(** * anbox: the command line layer, the session manager and the input manager

    A shallow embedding of
    - [anbox/cli.h], in the revision that declares [ValueFlag] (the one
      [cli.cpp] is written against), and [anbox/cli.cpp],
    - [anbox/cmds/session_manager.cpp],
    - the implementation of [anbox::input::Manager],
    and the properties of the session start-up they implement.

    Conventions.  A member function becomes a function of the object's
    fields.  Code that writes to a stream, logs, or calls into a collaborator
    whose source is elsewhere is written in a small monad [M]: it threads the
    mutable object, records every observable step in a trace of [Event]s and
    ends in an [Outcome] (a normal return, a C++ exception leaving the
    function, or a call that never returns). *)

From Stdlib Require Import ZArith Ascii String.
From stdpp Require Import base option list strings pretty gmap.

Local Open Scope Z_scope.

(** ** Exceptions and outcomes *)

(** The exception types the code throws or catches.  [po_error] is
    [boost::program_options::error], the only type [run] catches;
    [foreign_error] stands for whatever a collaborator outside this
    development throws. *)
Inductive exception : Type :=
| logic_error (what : string)
| runtime_error (what : string)
| bad_function_call
| po_error (what : string)
| foreign_error (what : string).

Definition is_po_error (e : exception) : bool :=
  match e with po_error _ => true | _ => false end.

Definition what (e : exception) : string :=
  match e with
  | logic_error w | runtime_error w | po_error w | foreign_error w => w
  | bad_function_call => "bad_function_call"
  end.

Definition EXIT_SUCCESS : Z := 0.
Definition EXIT_FAILURE : Z := 1.

(** [std::endl] as it shows in the written text. *)
Definition endl : string := String "010"%char EmptyString.

Inductive Outcome (A : Type) : Type :=
| Ret (a : A)
| Throw (e : exception)
| Block.
Arguments Ret {A} a.
Arguments Throw {A} e.
Arguments Block {A}.


(** A command that ended without success: a non-zero exit code, or an
    exception that left it. *)
Definition failed (o : Outcome Z) : Prop :=
  match o with
  | Ret z => z ≠ EXIT_SUCCESS
  | Throw _ => True
  | Block => False
  end.

(** ** Values that cross component boundaries *)

(** [core::posix::Signal], restricted to the two signals the session traps;
    [signal_number] is [static_cast<int>]. *)
Inductive Signal : Type := sig_int | sig_term.

Definition signal_number (s : Signal) : Z :=
  match s with sig_int => 2 | sig_term => 15 end.

Global Instance Signal_eq_dec : EqDecision Signal.
Proof. solve_decision. Defined.

(** [graphics::GLRendererServer::Config::Driver] *)
Inductive Driver : Type := Translator | Host.

Global Instance Driver_eq_dec : EqDecision Driver.
Proof. solve_decision. Defined.

(** [container::Configuration]: the ordered list of bind mounts, each a
    pair (host path, guest path). *)
Record Configuration : Type := { bind_mounts : list (string * string) }.

Inductive LogLevel : Type := Debug | Info | Warning | Error.

(** ** Observable steps *)

(** Calls into collaborators whose code is elsewhere (the signal trap, the
    runtime, the container client, the servers and connectors, the bus).
    Any of them may throw. *)
Inductive Call : Type :=
| trap_signals_for_process (signals : list Signal)
| signal_raised_connect
| ensure_paths (paths : list string)
| Runtime_create
| create_dispatcher_for_runtime
| container_Client_create
| register_terminate_handler
| Device_create (path : string)
| AndroidApiStub_create
| PlatformPolicy_create
| registerDisplayManager
| wm_Manager_create
| LauncherStorage_create
| GLRendererServer_create (driver : Driver)
| policy_set_renderer
| audio_Server_create
| PipeConnectionCreator_create
| rpc_ConnectionCreator_create
| PublishedSocketConnector_create (socket_file : string)
| dispatcher_dispatch (start_container_with : Configuration)
| bus_factory_call
| bus_install_executor
| Service_create_for_bus
| rt_start.

(** One constructor per observable step of the code under study: a call
    into a collaborator, text written to [ctxt.cout], a logger macro, a file
    system query, and what the runtime and the signal trap do while the
    action waits. *)
Inductive Event : Type :=
| called (c : Call)
| cout_write (text : string)
| log_message (level : LogLevel) (message : string)
| fs_exists_query (path : string)
| start_container (configuration : Configuration)
| trap_run
| signal_delivered (signal : Signal)
| terminate_handler_invoked
| trap_stop
| rt_stop.

(** ** The monad of the embedding *)

(** A computation over a mutable object of type [S]: the trace of what it
    did, the object as it left it, and how it ended. *)
Definition M (S A : Type) : Type := S -> list Event * S * Outcome A.

Definition ret {S A} (a : A) : M S A := fun s => ([], s, Ret a).

Definition trace_of {S A} (r : list Event * S * Outcome A) : list Event := r.1.1.
Definition state_of {S A} (r : list Event * S * Outcome A) : S := r.1.2.
Definition outcome_of {S A} (r : list Event * S * Outcome A) : Outcome A := r.2.

(** [r], after the steps [tr]. *)
Definition prepend {S A} (tr : list Event) (r : list Event * S * Outcome A)
  : list Event * S * Outcome A :=
  (tr ++ trace_of r, state_of r, outcome_of r).

Definition bind {S A B} (m : M S A) (k : A -> M S B) : M S B := fun s =>
  match m s with
  | (tr, s', Ret a) => prepend tr (k a s')
  | (tr, s', Throw e) => (tr, s', Throw e)
  | (tr, s', Block) => (tr, s', Block)
  end.

Global Instance M_ret {S} : MRet (M S) := fun A => @ret S A.
Global Instance M_bind {S} : MBind (M S) := fun A B k m => @bind S A B m k.

(** A step that cannot fail. *)
Definition emit {S} (e : Event) : M S unit := fun s => ([e], s, Ret tt).

(** [throw e] *)
Definition throw {S A} (e : exception) : M S A := fun s => ([], s, Throw e).

(** A call that does not return. *)
Definition block {S A} : M S A := fun s => ([], s, Block).

Definition get {S} : M S S := fun s => ([], s, Ret s).
Definition modify {S} (f : S -> S) : M S unit := fun s => ([], f s, Ret tt).

(** [try { m } catch (const T& e) { h e }], where [catches] says which
    exceptions are of type [T]. *)
Definition try_catch {S A} (m : M S A) (catches : exception -> bool)
    (h : exception -> M S A) : M S A := fun s =>
  match m s with
  | (tr, s', Throw e) =>
      if catches e then prepend tr (h e s') else (tr, s', Throw e)
  | r => r
  end.

(** Constructors that may throw return [exception + A]. *)
Global Instance result_ret : MRet (sum exception) := fun A a => inr a.
Global Instance result_bind : MBind (sum exception) := fun A B k r =>
  match r with inl e => inl e | inr a => k a end.

(** Lifting a constructor result. *)
Definition lift {S A} (r : exception + A) : M S A :=
  match r with inl e => throw e | inr a => ret a end.

(** ** [anbox::cli] *)
Module cli.

(** *** [SizeConstrainedString<max>] *)

Record SizeConstrainedString (max : nat) : Type :=
  MkSizeConstrainedString { as_string : string }.
Arguments MkSizeConstrainedString {max} _.
Arguments as_string {max} _.

(** The constructor: stores [s], then throws when [s.size() > max]. *)
Definition make_SizeConstrainedString (max : nat) (s : string)
  : exception + SizeConstrainedString max :=
  if decide (max < String.length s)%nat
  then inl (logic_error ("Max size exceeded " +:+ pretty max))
  else inr (MkSizeConstrainedString s).

(** [operator std::string()] *)
Definition to_std_string {max} (x : SizeConstrainedString max) : string :=
  as_string x.

(** [operator==] compares the stored strings. *)
Definition scs_eqb {max} (lhs rhs : SizeConstrainedString max) : bool :=
  bool_decide (as_string lhs = as_string rhs).

(** [operator<] is [std::string]'s lexicographic order on the stored
    strings. *)
Definition scs_ltb {max} (lhs rhs : SizeConstrainedString max) : bool :=
  String.ltb (as_string lhs) (as_string rhs).

(** [operator<<]: [std::setw(max) << std::left], the string padded with
    blanks on the right up to [max] columns. *)
Definition scs_print {max} (x : SizeConstrainedString max) : string :=
  as_string x +:+ string_of_list_ascii
    (replicate (max - String.length (as_string x)) " "%char).

Definition Name : Type := SizeConstrainedString 20.
Definition Usage : Type := SizeConstrainedString 60.
Definition Description : Type := SizeConstrainedString 80.

Definition make_Name : string -> exception + Name :=
  make_SizeConstrainedString 20.
Definition make_Usage : string -> exception + Usage :=
  make_SizeConstrainedString 60.
Definition make_Description : string -> exception + Description :=
  make_SizeConstrainedString 80.


(** *** Stream extraction, [operator>>] *)

(** [ss >> value] on a stream holding [s]: the new content of [value], or
    the exception the operator throws. *)
Class StreamExtract (T : Type) : Type :=
  stream_extract : string -> T -> exception + T.

Definition isspace (c : ascii) : bool :=
  let n := nat_of_ascii c in
  bool_decide (n = 32%nat) || (bool_decide (9 <= n)%nat && bool_decide (n <= 13)%nat).

Fixpoint skip_whitespace (s : string) : string :=
  match s with
  | String c r => if isspace c then skip_whitespace r else s
  | EmptyString => EmptyString
  end.

Fixpoint first_word (s : string) : string :=
  match s with
  | String c r => if isspace c then EmptyString else String c (first_word r)
  | EmptyString => EmptyString
  end.

(** [std::string]: leading white space is skipped and one word is read; a
    stream with no word fails the sentry and leaves the string as it was. *)
Global Instance string_extract : StreamExtract string := fun s old =>
  match skip_whitespace s with
  | EmptyString => inr old
  | w => inr (first_word w)
  end.

(** *** Flags *)

(** [Flag] over a command whose own members are of type [S].  The class
    hierarchy is folded into [notify_]: [None] for a plain [Flag]
    ([with_value()] is false), [Some] for a [ValueFlag], holding what
    [notify] does to the members. *)
Module Flag.
Record t (S : Type) : Type := Make {
  name_ : Name;
  description_ : Description;
  set_ : bool;
  notify_ : option (string -> S -> exception + S)
}.
Arguments Make {S} _ _ _ _.
Arguments name_ {S} _.
Arguments description_ {S} _.
Arguments set_ {S} _.
Arguments notify_ {S} _.

Definition name {S} (f : t S) : Name := name_ f.
Definition description {S} (f : t S) : Description := description_ f.
Definition is_set {S} (f : t S) : bool := set_ f.
Definition mark_set {S} (f : t S) : t S :=
  Make (name_ f) (description_ f) true (notify_ f).
Definition with_value {S} (f : t S) : bool :=
  match notify_ f with Some _ => true | None => false end.
End Flag.

(** [Flag::Ptr]: the address of the flag a [std::shared_ptr] owns. *)
Definition Ptr : Type := N.

(** [make_flag(name, description)] *)
Definition make_flag {S} (name : Name) (description : Description) : Flag.t S :=
  Flag.Make name description false None.

(** [make_flag(name, desc, value)], a [TypedReferenceValueFlag<T>] on the
    member the pair [proj], [update] reads and writes: [notify] is
    [ss >> value_.get()]. *)
Definition make_reference_flag {S T} `{StreamExtract T}
    (name : Name) (desc : Description)
    (proj : S -> T) (update : T -> S -> S) : Flag.t S :=
  Flag.Make name desc false
    (Some (fun s st =>
       match stream_extract s (proj st) with
       | inl e => inl e
       | inr v => inr (update v st)
       end)).

(** [std::set<Flag::Ptr>]: the flags in ascending order of address, one
    entry per address. *)
Definition FlagSet (S : Type) : Type := list (Ptr * Flag.t S).

Fixpoint set_insert {S} (p : Ptr) (f : Flag.t S) (l : FlagSet S) : FlagSet S :=
  match l with
  | [] => [(p, f)]
  | (q, g) :: l' =>
      if decide (p < q)%N then (p, f) :: l
      else if decide (p = q) then l
      else (q, g) :: set_insert p f l'
  end.

(** *** Commands *)

(** [Command::Context]; the two streams are the ambient trace. *)
Record Context : Type := { args : list string }.

(** The mutable part of a [CommandWithFlagsAndAction]: its flags and the
    members of the derived class. *)
Record Fields (S : Type) : Type := MkFields {
  flags_ : FlagSet S;
  members : S
}.
Arguments MkFields {S} _ _.
Arguments flags_ {S} _.
Arguments members {S} _.

Definition Action (S : Type) : Type := Context -> M (Fields S) Z.

Record CommandWithFlagsAndAction (S : Type) : Type := MkCommand {
  name_ : Name;
  usage_ : Usage;
  description_ : Description;
  action_ : option (Action S);
  fields : Fields S
}.
Arguments MkCommand {S} _ _ _ _ _.
Arguments name_ {S} _.
Arguments usage_ {S} _.
Arguments description_ {S} _.
Arguments action_ {S} _.
Arguments fields {S} _.

(** [CommandWithFlagsAndAction::flag] *)
Definition flag {S} (p : Ptr) (f : Flag.t S) (c : CommandWithFlagsAndAction S)
  : CommandWithFlagsAndAction S :=
  MkCommand (name_ c) (usage_ c) (description_ c) (action_ c)
    (MkFields (set_insert p f (flags_ (fields c))) (members (fields c))).

(** [CommandWithFlagsAndAction::action] *)
Definition action {S} (a : Action S) (c : CommandWithFlagsAndAction S)
  : CommandWithFlagsAndAction S :=
  MkCommand (name_ c) (usage_ c) (description_ c) (Some a) (fields c).

(** [CommandWithFlagsAndAction::help]: everything it writes to [out]. *)
Definition help {S} (c : CommandWithFlagsAndAction S) (flags : FlagSet S) : string :=
  "NAME:" +:+ endl +:+ "    " +:+ as_string (name_ c) +:+ " - "
    +:+ as_string (description_ c) +:+ endl +:+ endl
    +:+ "USAGE:" +:+ endl +:+ "    " +:+ as_string (name_ c)
    +:+ " [command options] [arguments...]" +:+ endl
  +:+ (if decide (0 < length flags)%nat
       then endl +:+ "OPTIONS:" +:+ endl
            +:+ String.concat EmptyString
                  (map (fun pf => "    --" +:+ scs_print (Flag.name pf.2) +:+ " "
                                  +:+ scs_print (Flag.description pf.2) +:+ endl)
                       flags)
       else EmptyString).

(** [CommandWithFlagsAndAction::is_flag_set] *)
Fixpoint is_flag_set {S} (flags : FlagSet S) (name : Name) : bool :=
  match flags with
  | [] => false
  | (_, f) :: rest =>
      if scs_eqb (Flag.name f) name then Flag.is_set f else is_flag_set rest name
  end.

(** *** The part of [boost::program_options] the commands use *)

(** The value semantics [run] and [add_to_desc_for_flags] register:
    [po::bool_switch(&help_requested)]; [po::value<std::string>()] with the
    notifier of the flag at address [vf]; and none, for an option that takes
    no value. *)
Inductive value_semantic : Type :=
| bool_switch
| typed_value (vf : Ptr)
| untyped_value.

Record option_description : Type := {
  long_name : string;
  semantic : value_semantic;
  description : string
}.

(** What [vm] holds for an option. *)
Inductive variable_value : Type :=
| vv_bool (b : bool)
| vv_string (s : string)
| vv_empty.

(** The result of [command_line_parser(...).run()] followed by [po::store]:
    the variables map in its iteration order, and what
    [collect_unrecognized(parsed.options, po::include_positional)] returns. *)
Record parsed_options : Type := {
  vm : list (string * variable_value);
  unrecognized : list string
}.

Definition vm_count (m : list (string * variable_value)) (key : string) : nat :=
  if bool_decide (key ∈ m.*1) then 1%nat else 0%nat.

(** [add_to_desc_for_flags] *)
Definition add_to_desc_for_flags {S} (desc : list option_description)
    (flags : FlagSet S) : list option_description :=
  desc ++
  map (fun pf : Ptr * Flag.t S =>
         let (p, f) := pf in
         if Flag.with_value f
         then {| long_name := as_string (Flag.name f);
                 semantic := typed_value p;
                 description := as_string (Flag.description f) |}
         else {| long_name := as_string (Flag.name f);
                 semantic := untyped_value;
                 description := as_string (Flag.description f) |})
      flags.

Fixpoint find_option (desc : list option_description) (key : string)
  : option option_description :=
  match desc with
  | [] => None
  | d :: rest => if bool_decide (long_name d = key) then Some d else find_option rest key
  end.

Fixpoint find_flag {S} (flags : FlagSet S) (p : Ptr) : option (Flag.t S) :=
  match flags with
  | [] => None
  | (q, f) :: rest => if decide (p = q) then Some f else find_flag rest p
  end.

(** The notifier [add_to_desc_for_flags] installs: [vf->notify(s)]. *)
Definition notifier {S} (vf : Ptr) (s : string) : M (Fields S) unit := fun st =>
  match find_flag (flags_ st) vf with
  | Some f =>
      match Flag.notify_ f with
      | Some n =>
          match n s (members st) with
          | inl e => ([], st, Throw e)
          | inr m' => ([], MkFields (flags_ st) m', Ret tt)
          end
      | None => ([], st, Ret tt)
      end
  | None => ([], st, Ret tt)
  end.

(** [po::notify(vm)]: every stored variable is handed to the notifier of
    its option.  The result is [help_requested] after the pass. *)
Fixpoint notify {S} (desc : list option_description)
    (m : list (string * variable_value)) (help_requested : bool)
  : M (Fields S) bool :=
  match m with
  | [] => mret help_requested
  | (key, v) :: rest =>
      match find_option desc key, v with
      | Some {| semantic := bool_switch |}, vv_bool b => notify desc rest b
      | Some {| semantic := typed_value vf |}, vv_string s =>
          notifier vf s;; notify desc rest help_requested
      | _, _ => notify desc rest help_requested
      end
  end.

(** [flag->mark_set()] for every flag that [vm] counts. *)
Definition mark_set_flags {S} (m : list (string * variable_value))
    (flags : FlagSet S) : FlagSet S :=
  map (fun pf : Ptr * Flag.t S =>
         if decide (0 < vm_count m (to_std_string (Flag.name pf.2)))%nat
         then (pf.1, Flag.mark_set pf.2) else pf)
      flags.

Section run.
Context {S : Type}.

(** The parser and [po::store], from [boost]: applied to the options
    description and the arguments, they throw or return what was parsed. *)
Variable command_line_parser :
  list option_description -> list string -> exception + parsed_options.

(** The options description [run] builds. *)
Definition options_of (flags : FlagSet S) : list option_description :=
  add_to_desc_for_flags
    [ {| long_name := "help"; semantic := bool_switch;
         description := "produces a help message" |} ]
    flags.

(** The first three statements of the [try] block: parse, store, notify.
    Returns [help_requested] and the parsed options. *)
Definition parse_store_notify (ctxt : Context)
  : M (Fields S) (bool * parsed_options) :=
  st ← get;
  let cd := options_of (flags_ st) in
  parsed ← lift (command_line_parser cd (args ctxt));
  help_requested ← notify cd (vm parsed) false;
  mret (help_requested, parsed).

(** The [catch (const po::error& e)] block of [run]. *)
Definition on_po_error (c : CommandWithFlagsAndAction S) (e : exception)
  : M (Fields S) Z :=
  emit (cout_write (what e +:+ endl));;
  st ← get;
  emit (cout_write (help c (flags_ st)));;
  mret EXIT_FAILURE.

(** [CommandWithFlagsAndAction::run].  The monad threads the mutable part
    of the command; a call of [run] on [c] starts from [fields c].  An empty
    [action_] is an empty [std::function]: calling it throws. *)
Definition run (c : CommandWithFlagsAndAction S) (ctxt : Context)
  : M (Fields S) Z :=
  try_catch
    ('(help_requested, parsed) ← parse_store_notify ctxt;
     if (help_requested : bool) then
       st ← get;
       emit (cout_write (help c (flags_ st)));;
       mret EXIT_SUCCESS
     else
       modify (fun st => MkFields (mark_set_flags (vm parsed) (flags_ st)) (members st));;
       match action_ c with
       | Some a => a {| args := unrecognized parsed |}
       | None => throw bad_function_call
       end)
    is_po_error
    (on_po_error c).
End run.

End cli.

(** ** The host the code runs on *)

(** What arrives while [trap->run()] waits. *)
Inductive AsyncEvent : Type :=
| SignalRaised (signal : Signal)
| ConnectionLost.

(** Everything the code reads from outside itself: the file system
    ([fs_exists]), the collaborators (which of their calls throw, [raises]),
    what arrives while the session waits ([pending], in order of arrival),
    the directories of the [SystemConfiguration] singleton, and what the
    audio server answers to [socket_file()]. *)
Record World : Type := {
  fs_exists : string -> bool;
  raises : Call -> option exception;
  pending : list AsyncEvent;
  socket_dir : string;
  input_device_dir : string;
  audio_socket_file : string
}.

(** A call into a collaborator: it is recorded, and it returns or throws as
    the world decides. *)
Definition call {S} (w : World) (c : Call) : M S unit := fun s =>
  match raises w c with
  | Some x => ([called c], s, Throw x)
  | None => ([called c], s, Ret tt)
  end.

(** [fs::exists(path)] *)
Definition exists_ {S} (w : World) (path : string) : M S bool :=
  emit (fs_exists_query path);; mret (fs_exists w path).

(** The logger macros. *)
Definition DEBUG {S} (message : string) : M S unit := emit (log_message Debug message).
Definition INFO {S} (message : string) : M S unit := emit (log_message Info message).
Definition WARNING {S} (message : string) : M S unit := emit (log_message Warning message).
Definition ERROR {S} (message : string) : M S unit := emit (log_message Error message).

(** ** [anbox::input] *)
Module input.

Record Device : Type := { path : string }.

(** [Manager]: [devices_] is a [std::map<std::uint32_t, std::shared_ptr<Device>>]. *)
Record Manager : Type := MkManager {
  runtime_ : N;
  devices_ : gmap Z Device
}.

Definition uint32_modulus : Z := 2 ^ 32.

Section manager.
Variable w : World.

(** [Manager::Manager] *)
Definition Manager_create {S} (runtime : N) : M S Manager :=
  call w (ensure_paths [input_device_dir w]);;
  mret (MkManager runtime ∅).

(** [Manager::next_id].  The counter is the function's [static] local:
    one variable for the whole process, zero when the process starts.  It
    is the state this monad threads; [next_id++] wraps at 32 bits. *)
Definition next_id : M Z Z := fun counter =>
  ([], (counter + 1) mod uint32_modulus, Ret counter).

(** [Manager::build_device_path] *)
Definition build_device_path (id : Z) : string :=
  input_device_dir w +:+ "/event" +:+ pretty id.

(** [devices_.insert({id, device})]: [std::map::insert] keeps an entry
    that is already there. *)
Definition map_insert (id : Z) (device : Device) (m : gmap Z Device)
  : gmap Z Device :=
  match m !! id with
  | Some _ => m
  | None => <[id := device]> m
  end.

(** [Manager::create_device]: the device, and the manager as it leaves
    it. *)
Definition create_device (this : Manager) : M Z (Device * Manager) :=
  id ← next_id;
  let path := build_device_path id in
  call w (Device_create path);;
  let device := {| path := path |} in
  mret (device, MkManager (runtime_ this) (map_insert id device (devices_ this))).

(** A sequence of [create_device] calls over a pool of managers: call
    number [k] is made on the manager at position [calls !! k] of the
    pool.  A position outside the pool is no call. *)
Fixpoint create_devices (pool : list Manager) (calls : list nat)
  : M Z (list Device * list Manager) :=
  match calls with
  | [] => mret ([], pool)
  | i :: rest =>
      match pool !! i with
      | Some this =>
          '(device, this') ← create_device this;
          '(devices, pool') ← create_devices (<[i := this']> pool) rest;
          mret (device :: devices, pool')
      | None => create_devices pool rest
      end
  end.
End manager.

(** The device paths a trace handed to [Device::create], in order. *)
Definition created_paths (tr : list Event) : list string :=
  omap (fun e => match e with called (Device_create p) => Some p | _ => None end) tr.

(** The ids [n] successive calls of [next_id] return when the counter
    starts at [counter]. *)
Fixpoint ids_from (counter : Z) (n : nat) : list Z :=
  match n with
  | O => []
  | S n => counter :: ids_from ((counter + 1) mod uint32_modulus) n
  end.

End input.

(** ** [anbox::cmds::SessionManager] *)
Module cmds.
Import cli.

(** The members the derived class adds to the command. *)
Record Members : Type := MkMembers {
  desktop_file_hint_ : string;
  gles_driver_ : Driver
}.

Definition set_desktop_file_hint (v : string) (m : Members) : Members :=
  MkMembers v (gles_driver_ m).
Definition set_gles_driver (v : Driver) (m : Members) : Members :=
  MkMembers (desktop_file_hint_ m) v.

(** [gles_driver_ = v] from inside the action. *)
Definition assign_gles_driver (v : Driver) : M (Fields Members) unit :=
  modify (fun st => MkFields (flags_ st) (set_gles_driver v (members st))).

(** *** The signal trap and the container client, as the action uses them *)

(** What a handler does when it is invoked. *)
Inductive HandlerOp : Type :=
| op_log (level : LogLevel) (message : string)
| op_trap_stop.

(** Modelled from the spec: the signal trap ("holds the set of signals being
    intercepted and a single subscriber callback") of [core::posix]; the
    slots connected to [signal_raised()] are kept in connection order. *)
Record SignalTrap : Type := MkSignalTrap {
  trapped : list Signal;
  signal_raised : list (Signal -> list HandlerOp)
}.

Definition connect (slot : Signal -> list HandlerOp) (trap : SignalTrap) : SignalTrap :=
  MkSignalTrap (trapped trap) (signal_raised trap ++ [slot]).

(** Modelled from the spec: the container client ("register_terminate_handler
    installs the single callback invoked when the supervisory connection to
    the container is lost"). *)
Record Client : Type := MkClient {
  terminate_handler : option (list HandlerOp)
}.

(** Runs the body of a handler; the result says whether it asked the trap
    to stop. *)
Fixpoint run_handler {S} (ops : list HandlerOp) (stop : bool) : M S bool :=
  match ops with
  | [] => mret stop
  | op_log level message :: rest =>
      emit (log_message level message);; run_handler rest stop
  | op_trap_stop :: rest =>
      emit trap_stop;; run_handler rest true
  end.

(** Modelled from the spec: [trap->run()] ("the top-level orchestrator
    blocks on the signal trap"; "a registration call stores one callback;
    firing it is a first-class operation").  The loop takes what arrives in
    order: a trapped signal fires the connected slots, the loss of the
    container connection fires the client's terminate handler.  It returns
    once a handler has called [trap->stop()]; with nothing left to arrive it
    waits for ever. *)
Fixpoint wait_for_stop {S} (trap : SignalTrap) (container : Client)
    (arriving : list AsyncEvent) : M S unit :=
  match arriving with
  | [] => block
  | SignalRaised signal :: rest =>
      emit (signal_delivered signal);;
      stop ← (if bool_decide (signal ∈ trapped trap)
              then run_handler (concat (map (fun slot => slot signal) (signal_raised trap))) false
              else mret false);
      if (stop : bool) then mret tt else wait_for_stop trap container rest
  | ConnectionLost :: rest =>
      stop ← match terminate_handler container with
             | Some ops => emit terminate_handler_invoked;; run_handler ops false
             | None => mret false
             end;
      if (stop : bool) then mret tt else wait_for_stop trap container rest
  end.

(** Modelled from the spec: the dispatcher ("enqueues task for asynchronous
    execution on the Runtime and returns immediately").  The task of line
    185, [container.start_container(container_configuration)], runs once
    the runtime has started; it reads the configuration through the
    reference the lambda captured. *)
Definition run_dispatched {S} (container_configuration : Configuration) : M S unit :=
  emit (start_container container_configuration).

(** The slot connected to [trap->signal_raised()]. *)
Definition on_signal_raised (signal : Signal) : list HandlerOp :=
  [ op_log Info ("Signal " +:+ pretty (signal_number signal) +:+ " received. Good night.");
    op_trap_stop ].

(** The handler registered with the container client. *)
Definition on_container_terminated : list HandlerOp :=
  [ op_log Warning "Lost connection to container manager, terminating.";
    op_trap_stop ].

(** [utils::string_format("%s/<name>", socket_path)].  Modelled from the
    spec: a published socket connector is bound to the path it is given
    ("binds a filesystem-path-addressed listening socket"), and that path is
    what its [socket_file()] returns. *)
Definition socket_file_in (socket_path name : string) : string :=
  socket_path +:+ "/" +:+ name.

Section session.
Variable w : World.

(** The bind mounts of lines 175-183, over the socket files of the two
    connectors and of the audio server. *)
Definition session_bind_mounts (qemu_pipe_socket bridge_socket audio_socket : string)
  : list (string * string) :=
  [ (qemu_pipe_socket, "/dev/qemu_pipe");
    (bridge_socket, "/dev/anbox_bridge");
    (audio_socket, "/dev/anbox_audio");
    (input_device_dir w, "/dev/input");
    ("/dev/binder", "/dev/binder");
    ("/dev/ashmem", "/dev/ashmem");
    ("/dev/fuse", "/dev/fuse") ].

(** Lines 108-190 of the lambda: the directories, the runtime, the
    collaborators, the two connectors, the container configuration and the
    dispatch of the container start, the bus.  Returns the container
    client and the configuration, the locals the rest of the lambda
    uses. *)
Definition session_startup : M (Fields Members) (Client * Configuration) :=
  call w (ensure_paths [socket_dir w; input_device_dir w]);;
  call w Runtime_create;;
  call w create_dispatcher_for_runtime;;
  call w container_Client_create;;
  call w register_terminate_handler;;
  let container := MkClient (Some on_container_terminated) in
  input_manager ← input.Manager_create w 0%N;
  call w AndroidApiStub_create;;
  call w PlatformPolicy_create;;
  call w registerDisplayManager;;
  call w wm_Manager_create;;
  call w LauncherStorage_create;;
  st ← get;
  call w (GLRendererServer_create (gles_driver_ (members st)));;
  call w policy_set_renderer;;
  call w audio_Server_create;;
  let socket_path := socket_dir w in
  call w PipeConnectionCreator_create;;
  let qemu_pipe_connector := socket_file_in socket_path "qemu_pipe" in
  call w (PublishedSocketConnector_create qemu_pipe_connector);;
  call w rpc_ConnectionCreator_create;;
  let bridge_connector := socket_file_in socket_path "anbox_bridge" in
  call w (PublishedSocketConnector_create bridge_connector);;
  let container_configuration :=
    {| bind_mounts :=
         session_bind_mounts qemu_pipe_connector bridge_connector
           (audio_socket_file w) |} in
  call w (dispatcher_dispatch container_configuration);;
  call w bus_factory_call;;
  call w bus_install_executor;;
  call w Service_create_for_bus;;
  mret (container, container_configuration).

(** Lines 192-196 of the lambda: [rt->start(); trap->run(); rt->stop();
    return EXIT_SUCCESS;].  Modelled from the spec: the runtime's [stop()]
    ("idempotent", "safe to call from a signal handler context") does not
    fail. *)
Definition session_run (trap : SignalTrap) (container : Client)
    (container_configuration : Configuration) : M (Fields Members) Z :=
  call w rt_start;;
  run_dispatched container_configuration;;
  emit trap_run;;
  wait_for_stop trap container (pending w);;
  emit rt_stop;;
  mret EXIT_SUCCESS.

(** The lambda installed with [action(...)]. *)
Definition session_action : Action Members := fun _ =>
  call w (trap_signals_for_process [sig_term; sig_int]);;
  let trap := MkSignalTrap [sig_term; sig_int] [] in
  call w signal_raised_connect;;
  let trap := connect on_signal_raised trap in
  binder ← exists_ w "/dev/binder";
  missing ← (if (binder : bool)
             then ashmem ← exists_ w "/dev/ashmem"; mret (negb ashmem)
             else mret true);
  if (missing : bool) then
    ERROR "Failed to start as either binder or ashmem kernel drivers are not loaded";;
    mret EXIT_FAILURE
  else
    nvidia ← exists_ w "/dev/nvidiactl";
    (if (nvidia : bool) then
       INFO "Detected properietary nvidia driver; forcing use of the host EGL driver.";;
       assign_gles_driver Host
     else mret tt);;
    '(container, container_configuration) ← session_startup;
    session_run trap container container_configuration.

(** *** The lambda, piece by piece *)

(** The trap as the lambda has set it up once the slot is connected. *)
Definition session_trap : SignalTrap :=
  connect on_signal_raised (MkSignalTrap [sig_term; sig_int] []).

(** The container client once the terminate handler is registered. *)
Definition session_container : Client :=
  MkClient (Some on_container_terminated).

(** The configuration of lines 174-183. *)
Definition session_configuration : Configuration :=
  {| bind_mounts :=
       session_bind_mounts (socket_file_in (socket_dir w) "qemu_pipe")
         (socket_file_in (socket_dir w) "anbox_bridge")
         (audio_socket_file w) |}.

(** The calls of [session_startup], in order, when the renderer is
    created for [driver]. *)
Definition startup_calls (driver : Driver) : list Call :=
  [ ensure_paths [socket_dir w; input_device_dir w];
    Runtime_create;
    create_dispatcher_for_runtime;
    container_Client_create;
    register_terminate_handler;
    ensure_paths [input_device_dir w];
    AndroidApiStub_create;
    PlatformPolicy_create;
    registerDisplayManager;
    wm_Manager_create;
    LauncherStorage_create;
    GLRendererServer_create driver;
    policy_set_renderer;
    audio_Server_create;
    PipeConnectionCreator_create;
    PublishedSocketConnector_create (socket_file_in (socket_dir w) "qemu_pipe");
    rpc_ConnectionCreator_create;
    PublishedSocketConnector_create (socket_file_in (socket_dir w) "anbox_bridge");
    dispatcher_dispatch session_configuration;
    bus_factory_call;
    bus_install_executor;
    Service_create_for_bus ].

(** A sequence of calls, up to and including the first that throws. *)
Fixpoint calls_until_throw (cs : list Call) : list Event * option exception :=
  match cs with
  | [] => ([], None)
  | c :: rest =>
      match raises w c with
      | Some x => ([called c], Some x)
      | None => let (tr, o) := calls_until_throw rest in (called c :: tr, o)
      end
  end.

(** What [trap->run()] does with the first arrival, for the session's trap
    and container. *)
Definition shutdown_events (ev : AsyncEvent) : list Event :=
  match ev with
  | SignalRaised signal =>
      [ signal_delivered signal;
        log_message Info ("Signal " +:+ pretty (signal_number signal) +:+ " received. Good night.");
        trap_stop ]
  | ConnectionLost =>
      [ terminate_handler_invoked;
        log_message Warning "Lost connection to container manager, terminating.";
        trap_stop ]
  end.

(** The state the lambda continues in after the check for the nvidia
    driver. *)
Definition after_nvidia_check (st : Fields Members) : Fields Members :=
  if fs_exists w "/dev/nvidiactl"
  then MkFields (flags_ st) (set_gles_driver Host (members st))
  else st.

(** What the lambda has done when it reaches line 108. *)
Definition checks_trace : list Event :=
  [ called (trap_signals_for_process [sig_term; sig_int]);
    called signal_raised_connect;
    fs_exists_query "/dev/binder";
    fs_exists_query "/dev/ashmem";
    fs_exists_query "/dev/nvidiactl" ]
  ++ (if fs_exists w "/dev/nvidiactl"
      then [ log_message Info
               "Detected properietary nvidia driver; forcing use of the host EGL driver." ]
      else []).

(** The diagnostic of line 97. *)
Definition missing_device_message : Event :=
  log_message Error
    "Failed to start as either binder or ashmem kernel drivers are not loaded".


(** How many times a trace registers a terminate handler with the
    container client. *)
Fixpoint terminate_handlers_registered (tr : list Event) : nat :=
  match tr with
  | [] => 0
  | called register_terminate_handler :: rest => S (terminate_handlers_registered rest)
  | _ :: rest => terminate_handlers_registered rest
  end.

(** *** The constructor *)

Context `{!StreamExtract Driver}.

(** [SessionManager::SessionManager].  [p_hint] and [p_gles] are the
    addresses of the two flags [make_flag] allocates; [initial_driver] is
    the value [gles_driver_] is declared with.  The result is the
    exception a [cli::Name] or [cli::Description] constructor throws, or
    the command. *)
Definition SessionManager (p_hint p_gles : Ptr) (initial_driver : Driver)
  : exception + CommandWithFlagsAndAction Members :=
  name ← make_Name "run";
  usage ← make_Usage "run";
  description ← make_Description "Run the the anbox system";
  let this := MkCommand name usage description None
                (MkFields [] (MkMembers EmptyString initial_driver)) in
  hint_name ← make_Name "desktop_file_hint";
  hint_description ← make_Description "Desktop file hint for QtMir/Unity8";
  let this := flag p_hint
                (make_reference_flag hint_name hint_description
                   desktop_file_hint_ set_desktop_file_hint) this in
  gles_name ← make_Name "gles-driver";
  gles_description ← make_Description
    "Which GLES driver to use. Possible values are 'host' or'translator'";
  let this := flag p_gles
                (make_reference_flag gles_name gles_description
                   gles_driver_ set_gles_driver) this in
  mret (action session_action this).

(** The two flags the constructor makes. *)
Definition hint_flag : Flag.t Members :=
  make_reference_flag (MkSizeConstrainedString "desktop_file_hint")
    (MkSizeConstrainedString "Desktop file hint for QtMir/Unity8")
    desktop_file_hint_ set_desktop_file_hint.

Definition gles_flag : Flag.t Members :=
  make_reference_flag (MkSizeConstrainedString "gles-driver")
    (MkSizeConstrainedString
       "Which GLES driver to use. Possible values are 'host' or'translator'")
    gles_driver_ set_gles_driver.

(** The command the constructor returns when it does not throw. *)
Definition session_command (p_hint p_gles : Ptr) (initial_driver : Driver)
  : CommandWithFlagsAndAction Members :=
  action session_action
    (flag p_gles gles_flag
       (flag p_hint hint_flag
          (MkCommand (MkSizeConstrainedString "run") (MkSizeConstrainedString "run")
             (MkSizeConstrainedString "Run the the anbox system") None
             (MkFields [] (MkMembers EmptyString initial_driver))))).

(** The two flags as the specification reads them: going through the
    variables map, the value stored for [desktop_file_hint] is extracted
    into [desktop_file_hint_], the value stored for [gles-driver] into
    [gles_driver_], and the switch [help] sets [help_requested].  The result
    is [help_requested] and the members, or the exception an extraction
    throws. *)
Fixpoint flags_applied (m : list (string * variable_value)) (help_requested : bool)
    (this : Members) : exception + bool * Members :=
  match m with
  | [] => inr (help_requested, this)
  | (key, v) :: rest =>
      if bool_decide ("help" = key) then
        match v with
        | vv_bool b => flags_applied rest b this
        | _ => flags_applied rest help_requested this
        end
      else if bool_decide ("desktop_file_hint" = key) then
        match v with
        | vv_string s =>
            hint ← stream_extract s (desktop_file_hint_ this);
            flags_applied rest help_requested (set_desktop_file_hint hint this)
        | _ => flags_applied rest help_requested this
        end
      else if bool_decide ("gles-driver" = key) then
        match v with
        | vv_string s =>
            driver ← stream_extract s (gles_driver_ this);
            flags_applied rest help_requested (set_gles_driver driver this)
        | _ => flags_applied rest help_requested this
        end
      else flags_applied rest help_requested this
  end.
End session.

End cmds.

(** ** Concrete hosts and command lines *)

(** Instances of what the development is parametric in, to run the code
    on. *)
Module sample.
Import cli cmds.

(** An [operator>>] for [Driver]: the two values the flag's description
    names, anything else is rejected. *)
Definition driver_extract : StreamExtract Driver := fun s _ =>
  if bool_decide (s = "host") then inr Host
  else if bool_decide (s = "translator") then inr Translator
  else inl (runtime_error "Invalid GLES driver value provided").

(** [--name=value] split at the first [=]. *)
Fixpoint split_option (s : string) : string * option string :=
  match s with
  | EmptyString => (EmptyString, None)
  | String c r =>
      if bool_decide (c = "="%char) then (EmptyString, Some r)
      else let (n, v) := split_option r in (String c n, v)
  end.

(** A parser for long options: a token [--name] or [--name=value] whose
    name is registered is stored, one that is registered with a value and
    comes without is an error, and every other token is collected as
    unrecognized. *)
Fixpoint long_options (desc : list option_description) (tokens : list string)
  : exception + parsed_options :=
  match tokens with
  | [] => inr {| vm := []; unrecognized := [] |}
  | tok :: rest =>
      parsed ← long_options desc rest;
      match tok with
      | String "-" (String "-" body) =>
          let (key, value) := split_option body in
          match find_option desc key, value with
          | Some {| semantic := bool_switch |}, _ =>
              inr {| vm := (key, vv_bool true) :: vm parsed;
                     unrecognized := unrecognized parsed |}
          | Some {| semantic := typed_value _ |}, Some v =>
              inr {| vm := (key, vv_string v) :: vm parsed;
                     unrecognized := unrecognized parsed |}
          | Some {| semantic := typed_value _ |}, None =>
              inl (po_error ("the required argument for option '--" +:+ key +:+ "' is missing"))
          | Some {| semantic := untyped_value |}, _ =>
              inr {| vm := (key, vv_empty) :: vm parsed;
                     unrecognized := unrecognized parsed |}
          | None, _ =>
              inr {| vm := vm parsed; unrecognized := tok :: unrecognized parsed |}
          end
      | _ => inr {| vm := vm parsed; unrecognized := tok :: unrecognized parsed |}
      end
  end.

(** A host where every collaborator works, with the given device nodes and
    the given arrivals while the session waits. *)
Definition host (devices : list string) (arriving : list AsyncEvent) : World :=
  {| fs_exists := fun p => existsb (String.eqb p) devices;
     raises := fun _ => None;
     pending := arriving;
     socket_dir := "/run/user/1000/anbox/sockets";
     input_device_dir := "/run/user/1000/anbox/input-devices";
     audio_socket_file := "/run/user/1000/anbox/sockets/anbox_audio" |}.

(** The same host, except that one call throws. *)
Definition failing_host (devices : list string) (arriving : list AsyncEvent)
    (failing : Call) : World :=
  {| fs_exists := fs_exists (host devices arriving);
     raises := fun c => match c, failing with
                        | Runtime_create, Runtime_create
                        | trap_signals_for_process _, trap_signals_for_process _
                        | rt_start, rt_start =>
                            Some (foreign_error "failed")
                        | _, _ => None
                        end;
     pending := arriving;
     socket_dir := socket_dir (host devices arriving);
     input_device_dir := input_device_dir (host devices arriving);
     audio_socket_file := audio_socket_file (host devices arriving) |}.

Definition fields0 : Fields Members :=
  MkFields [] (MkMembers EmptyString Translator).

(** The session command on a host without devices, its two flags at the
    addresses 10 and 20. *)
Definition session : CommandWithFlagsAndAction Members :=
  @session_command (host [] []) driver_extract 10%N 20%N Translator.

End sample.

(** ** [anbox::cli]: [args], the other value flags, the invariants of a flag set *)
Module cli_more.
Import cli.

(** [cli::args(argc, argv)].  The loop pushes [argv[1]], ..., [argv[argc - 1]];
    reading [argv] past its end has no defined result, which is [None]
    here. *)
Fixpoint args_from (argv : list string) (i count : nat) : option (list string) :=
  match count with
  | O => Some []
  | S count =>
      x ← argv !! i;
      rest ← args_from argv (S i) count;
      Some (x :: rest)
  end.

Definition args (argc : Z) (argv : list string) : option (list string) :=
  args_from argv 1 (Z.to_nat (argc - 1)).

(** A string without white space, in the sense of [isspace]. *)
Fixpoint no_whitespace (s : string) : bool :=
  match s with
  | EmptyString => true
  | String c r => negb (isspace c) && no_whitespace r
  end.

(** A string of white space only. *)
Fixpoint all_whitespace (s : string) : bool :=
  match s with
  | EmptyString => true
  | String c r => isspace c && all_whitespace r
  end.

(** A type whose default constructor gives a definite value ([T value;]). *)
Class DefaultConstructible (T : Type) : Type := default_constructed : T.
Global Instance string_default : DefaultConstructible string := EmptyString.

(** [TypedValueFlag<T>::notify] and [OptionalTypedReferenceValueFlag<T>::notify]:
    [T value; ss >> value;] and the optional, the flag's own or the one it
    refers to, is assigned [value]; [update] writes the optional. *)
Definition make_optional_flag {S T} `{StreamExtract T} `{DefaultConstructible T}
    (name : Name) (desc : Description)
    (update : option T -> S -> S) : Flag.t S :=
  Flag.Make name desc false
    (Some (fun s st =>
       match stream_extract s default_constructed with
       | inl e => inl e
       | inr v => inr (update (Some v) st)
       end)).

(** Every flag of a set is as [make_flag] leaves it: not marked. *)
Definition all_unset {S} (flags : FlagSet S) : Prop :=
  Forall (fun pf : Ptr * Flag.t S => Flag.is_set pf.2 = false) flags.

(** [std::set]'s invariant: the addresses ascend strictly. *)
Fixpoint ascending {S} (flags : FlagSet S) : Prop :=
  match flags with
  | [] => True
  | (p, _) :: rest =>
      match rest with
      | [] => True
      | (q, _) :: _ => (p < q)%N
      end ∧ ascending rest
  end.

End cli_more.

(** ** [anbox::cli::CommandWithSubcommands] *)
Module subcommands.
Import cli.

(** A command registered with a [CommandWithSubcommands] over members of
    type [S]: the [cmd::Help] of the command it is registered with, or any
    other [Command], of which the parent uses the name, the description and
    [run]. *)
Inductive Command (S : Type) : Type :=
| Help
| Other (name : Name) (usage : Usage) (description : Description)
        (run : Context -> M S Z).
Arguments Help {S}.
Arguments Other {S} _ _ _ _.

(** [Command::name], [Command::description]; for [cmd::Help] the strings
    of its constructor. *)
Definition command_name {S} (c : Command S) : Name :=
  match c with
  | Help => MkSizeConstrainedString "help"
  | Other name _ _ _ => name
  end.

Definition command_description {S} (c : Command S) : Description :=
  match c with
  | Help => MkSizeConstrainedString "prints a short help message"
  | Other _ _ description _ => description
  end.

(** The mutable part of a [CommandWithSubcommands]: [commands_], a
    [std::unordered_map<std::string, Command::Ptr>] in which an entry may
    hold a null pointer, and the flags with the members they refer to. *)
Record Fields (S : Type) : Type := MkFields {
  commands_ : gmap string (option (Command S));
  base : cli.Fields S
}.
Arguments MkFields {S} _ _.
Arguments commands_ {S} _.
Arguments base {S} _.

Record CommandWithSubcommands (S : Type) : Type := MkCommand {
  name_ : Name;
  usage_ : Usage;
  description_ : Description;
  fields : Fields S
}.
Arguments MkCommand {S} _ _ _ _.
Arguments name_ {S} _.
Arguments usage_ {S} _.
Arguments description_ {S} _.
Arguments fields {S} _.

(** [CommandWithSubcommands::command]: [commands_[name] = command]. *)
Definition command {S} (c : Command S) (this : CommandWithSubcommands S)
  : CommandWithSubcommands S :=
  MkCommand (name_ this) (usage_ this) (description_ this)
    (MkFields (<[as_string (command_name c) := Some c]> (commands_ (fields this)))
       (base (fields this))).

(** [CommandWithSubcommands::flag] *)
Definition flag {S} (p : Ptr) (f : Flag.t S) (this : CommandWithSubcommands S)
  : CommandWithSubcommands S :=
  MkCommand (name_ this) (usage_ this) (description_ this)
    (MkFields (commands_ (fields this))
       (cli.MkFields (set_insert p f (flags_ (base (fields this))))
          (members (base (fields this))))).

(** The constructor registers the help command. *)
Definition create {S} (name : Name) (usage : Usage) (description : Description)
    (members : S) : CommandWithSubcommands S :=
  command Help
    (MkCommand name usage description (MkFields ∅ (cli.MkFields [] members))).

(** A computation on the flags and members, run inside the command. *)
Definition on_base {S A} (m : M (cli.Fields S) A) : M (Fields S) A := fun st =>
  let r := m (base st) in
  (trace_of r, MkFields (commands_ st) (state_of r), outcome_of r).

(** A computation on the members alone. *)
Definition on_members {S A} (m : M S A) : M (cli.Fields S) A := fun st =>
  let r := m (members st) in
  (trace_of r, cli.MkFields (flags_ st) (state_of r), outcome_of r).

(** [vm[key]] *)
Fixpoint vm_at (m : list (string * variable_value)) (key : string)
  : option variable_value :=
  match m with
  | [] => None
  | (k, v) :: rest => if bool_decide (k = key) then Some v else vm_at rest key
  end.

(** [commands_[name]]: [operator[]] makes an entry holding a null pointer
    when there is none under [name]. *)
Definition commands_at {S} (name : string) : M (Fields S) (option (Command S)) :=
  fun st =>
    match commands_ st !! name with
    | Some cmd => ([], st, Ret cmd)
    | None => ([], MkFields (<[name := None]> (commands_ st)) (base st), Ret None)
    end.

Section run.
Context {S : Type}.

(** The order in which the [std::unordered_map] is iterated; the standard
    leaves it open. *)
Variable iteration_order :
  gmap string (option (Command S)) -> list (string * option (Command S)).

(** The parser and [po::store], from [boost], set up with the options
    description of the flags and the positional option [command]. *)
Variable command_line_parser :
  list option_description -> list string -> exception + parsed_options.

(** [what()] of the [po::required_option] that [po::notify] throws for
    the option [command]. *)
Variable required_option_what : string.

(** [CommandWithSubcommands::help]: everything it writes to [out].  The
    first line shows the usage string where that of a
    [CommandWithFlagsAndAction] shows the description; an entry that holds
    a null pointer counts for [commands_.size()] and is not listed. *)
Definition help (this : CommandWithSubcommands S) (st : Fields S) : string :=
  "NAME:" +:+ endl +:+ "    " +:+ as_string (name_ this) +:+ " - "
    +:+ as_string (usage_ this) +:+ endl +:+ endl
    +:+ "USAGE:" +:+ endl +:+ "    " +:+ as_string (name_ this)
    +:+ " [command options] [arguments...]" +:+ endl
  +:+ (if decide (0 < length (flags_ (base st)))%nat
       then endl +:+ "OPTIONS:" +:+ endl
            +:+ String.concat EmptyString
                  (map (fun pf => "    --" +:+ scs_print (Flag.name pf.2) +:+ " "
                                  +:+ scs_print (Flag.description pf.2) +:+ endl)
                       (flags_ (base st)))
       else EmptyString)
  +:+ (if decide (0 < size (commands_ st))%nat
       then endl +:+ "COMMANDS:" +:+ endl
            +:+ String.concat EmptyString
                  (map (fun kc : string * option (Command S) =>
                          match kc.2 with
                          | Some c => "    " +:+ scs_print (command_name c) +:+ " "
                                      +:+ scs_print (command_description c) +:+ endl
                          | None => EmptyString
                          end)
                       (iteration_order (commands_ st)))
       else EmptyString).

(** [cmd->run(...)]: [cmd::Help::run] writes the help of the command and
    returns [EXIT_FAILURE]. *)
Definition run_command (this : CommandWithSubcommands S) (c : Command S)
    (ctxt : Context) : M (Fields S) Z :=
  match c with
  | Help =>
      st ← get;
      emit (cout_write (help this st));;
      mret EXIT_FAILURE
  | Other _ _ _ run => on_base (on_members (run ctxt))
  end.

(** The first three statements of the [try] block and the evaluation of
    [vm["command"].as<std::string>()].  [po::notify] first checks that
    the required option is there, then runs the notifiers. *)
Definition parse_store_notify (ctxt : Context)
  : M (Fields S) (string * parsed_options) :=
  st ← get;
  let desc := add_to_desc_for_flags [] (flags_ (base st)) in
  parsed ← lift (command_line_parser desc (args ctxt));
  (if bool_decide ("command" ∈ (vm parsed).*1) then mret tt
   else throw (po_error required_option_what));;
  on_base (notify desc (vm parsed) false);;
  match vm_at (vm parsed) "command" with
  | Some (vv_string name) => mret (name, parsed)
  | _ => throw (foreign_error "boost::bad_any_cast")
  end.

(** The [catch (const po::error& e)] block of [run]. *)
Definition on_po_error (this : CommandWithSubcommands S) (e : exception)
  : M (Fields S) Z :=
  emit (cout_write (what e +:+ endl));;
  st ← get;
  emit (cout_write (help this st));;
  mret EXIT_FAILURE.

(** [CommandWithSubcommands::run] *)
Definition run (this : CommandWithSubcommands S) (ctxt : Context)
  : M (Fields S) Z :=
  try_catch
    ('(name, parsed) ← parse_store_notify ctxt;
     cmd ← commands_at name;
     match cmd with
     | None =>
         emit (cout_write ("Unknown command '" +:+ name +:+ "'" +:+ endl));;
         st ← get;
         emit (cout_write (help this st));;
         mret EXIT_FAILURE
     | Some c => run_command this c {| args := unrecognized parsed |}
     end)
    is_po_error
    (on_po_error this).
End run.

End subcommands.

Module sample_commands.
Import cli subcommands.

(** A parser that stores the first token as the positional option
    [command] and hands every token on. *)
Definition first_positional (desc : list option_description) (tokens : list string)
  : exception + parsed_options :=
  match tokens with
  | [] => inr {| vm := []; unrecognized := [] |}
  | tok :: _ => inr {| vm := [("command", vv_string tok)]; unrecognized := tokens |}
  end.

(** One iteration order: that of [map_to_list]. *)
Definition by_key {S} (m : gmap string (option (Command S)))
  : list (string * option (Command S)) :=
  map_to_list m.

(** A command [anbox] with the help command and a command [version]. *)
Definition version : Command unit :=
  Other (MkSizeConstrainedString "version")
    (MkSizeConstrainedString "print the version")
    (MkSizeConstrainedString "print the version of the daemon")
    (fun _ => emit (cout_write "anbox 1");; mret EXIT_SUCCESS).

Definition anbox : CommandWithSubcommands unit :=
  command version
    (create (MkSizeConstrainedString "anbox") (MkSizeConstrainedString "anbox [command]")
       (MkSizeConstrainedString "the anbox daemon") tt).

End sample_commands.


(** * Properties *)

(** ** The monad *)

Section monad_facts.
Context {S : Type}.

Lemma trace_of_prepend {A} tr (r : list Event * S * Outcome A) :
  trace_of (prepend tr r) = tr ++ trace_of r.
Proof. reflexivity. Qed.

Lemma state_of_prepend {A} tr (r : list Event * S * Outcome A) :
  state_of (prepend tr r) = state_of r.
Proof. reflexivity. Qed.


Lemma prepend_nil {A} (r : list Event * S * Outcome A) : prepend [] r = r.
Proof. by destruct r as [[tr s] o]. Qed.

Lemma prepend_prepend {A} tr1 tr2 (r : list Event * S * Outcome A) :
  prepend tr1 (prepend tr2 r) = prepend (tr1 ++ tr2) r.
Proof. unfold prepend; cbn. by rewrite app_assoc. Qed.

Lemma bind_ret_eq {A B} (a : A) (k : A -> M S B) s : (mret a ≫= k) s = k a s.
Proof. unfold mbind, M_bind, bind, mret, M_ret, ret. apply prepend_nil. Qed.

Lemma bind_emit_eq {B} e (k : unit -> M S B) s :
  (emit e ≫= k) s = prepend [e] (k tt s).
Proof. reflexivity. Qed.

Lemma bind_get_eq {B} (k : S -> M S B) s : (get ≫= k) s = k s s.
Proof. unfold mbind, M_bind, bind, get. apply prepend_nil. Qed.

Lemma bind_modify_eq {B} f (k : unit -> M S B) s : (modify f ≫= k) s = k tt (f s).
Proof. unfold mbind, M_bind, bind, modify. apply prepend_nil. Qed.

Lemma bind_call_eq {B} w c (k : unit -> M S B) s :
  (call w c ≫= k) s =
  match raises w c with
  | Some x => ([called c], s, Throw x)
  | None => prepend [called c] (k tt s)
  end.
Proof. unfold mbind, M_bind, bind, call. by destruct (raises w c). Qed.

Lemma bind_exists_eq {B} w path (k : bool -> M S B) s :
  (exists_ w path ≫= k) s = prepend [fs_exists_query path] (k (fs_exists w path) s).
Proof. reflexivity. Qed.

Lemma bind_assoc_eq {A B C} (m : M S A) (k : A -> M S B) (h : B -> M S C) s :
    ((m ≫= k) ≫= h) s = (m ≫= (fun a => k a ≫= h)) s.
  Proof.
    unfold mbind, M_bind, bind.
    destruct (m s) as [[tr s'] [a| |]]; try reflexivity.
    destruct (k a s') as [[tr' s''] [b| |]]; cbn; try reflexivity.
    by rewrite prepend_prepend.
  Qed.
End monad_facts.

(** ** The command line layer *)

(** C10.  Constructing a [SizeConstrainedString<max>] from [s] throws if and
    only if [s.size() > max]; what it throws is the [std::logic_error] of
    the source; when it does not throw, the stored string, [as_string()] and
    the conversion to [std::string] are [s] itself.  The same therefore
    holds of [Name] (20), [Usage] (60) and [Description] (80). *)
Theorem SizeConstrainedString_throws_iff_too_long (max : nat) (s : string) :
  ((∃ e, cli.make_SizeConstrainedString max s = inl e) ↔ (String.length s > max)%nat)
  ∧ match cli.make_SizeConstrainedString max s with
    | inl e => e = logic_error ("Max size exceeded " +:+ pretty max)
    | inr x => cli.as_string x = s ∧ cli.to_std_string x = s
    end
  ∧ ((∃ e, cli.make_Name s = inl e) ↔ (String.length s > 20)%nat)
  ∧ ((∃ e, cli.make_Usage s = inl e) ↔ (String.length s > 60)%nat)
  ∧ ((∃ e, cli.make_Description s = inl e) ↔ (String.length s > 80)%nat).
Proof.
  assert (Hiff : ∀ m, (∃ e, cli.make_SizeConstrainedString m s = inl e)
                      ↔ (String.length s > m)%nat).
  { intros m. unfold cli.make_SizeConstrainedString.
    destruct (decide (m < String.length s)%nat) as [Hlt|Hge].
    - split; [lia | eauto].
    - split; [intros [e He]; discriminate | lia]. }
  split; [apply Hiff|].
  split; [|repeat split; apply Hiff].
  unfold cli.make_SizeConstrainedString.
  by destruct (decide (max < String.length s)%nat).
Qed.

(** What the parsing stage does when the parser throws, and when [--help]
    is all that was stored. *)
Lemma parse_store_notify_throw {S : Type}
    (command_line_parser : list cli.option_description -> list string -> exception + cli.parsed_options)
    (ctxt : cli.Context) (st : cli.Fields S) (e : exception) :
  command_line_parser (cli.options_of (cli.flags_ st)) (cli.args ctxt) = inl e →
  cli.parse_store_notify command_line_parser ctxt st = ([], st, Throw e).
Proof.
  intros H. unfold cli.parse_store_notify. rewrite bind_get_eq. cbv zeta.
  unfold mbind, M_bind, bind. by rewrite H.
Qed.

Lemma parse_store_notify_help {S : Type}
    (command_line_parser : list cli.option_description -> list string -> exception + cli.parsed_options)
    (ctxt : cli.Context) (st : cli.Fields S) (parsed : cli.parsed_options) :
  command_line_parser (cli.options_of (cli.flags_ st)) (cli.args ctxt) = inr parsed →
  cli.vm parsed = [("help", cli.vv_bool true)] →
  cli.parse_store_notify command_line_parser ctxt st = ([], st, Ret (true, parsed)).
Proof.
  intros H Hvm. unfold cli.parse_store_notify. rewrite bind_get_eq. cbv zeta.
  unfold mbind, M_bind, bind. rewrite H. cbn. rewrite Hvm. reflexivity.
Qed.

(** In the options description of [run], [help] is the switch and the only
    one. *)
Lemma options_of_help {S : Type} (flags : cli.FlagSet S) :
  cli.find_option (cli.options_of flags) "help"
  = Some {| cli.long_name := "help"; cli.semantic := cli.bool_switch;
            cli.description := "produces a help message" |}
  ∧ ∀ key d, cli.find_option (cli.options_of flags) key = Some d →
             cli.semantic d = cli.bool_switch → key = "help".
Proof.
  split; [reflexivity|]. intros key d. unfold cli.options_of, cli.add_to_desc_for_flags.
  cbn [app cli.find_option cli.long_name].
  destruct (bool_decide ("help" = key)) eqn:Hkey; [by apply bool_decide_eq_true in Hkey|].
  intros Hfind Hsem. exfalso.
  induction flags as [|[p f] flags IH]; [discriminate|].
  cbn [map cli.find_option] in Hfind.
  destruct (cli.Flag.with_value f); cbn [cli.long_name] in Hfind;
    (destruct (bool_decide (cli.as_string (cli.Flag.name f) = key)); [|by apply IH]);
    injection Hfind as <-; discriminate.
Qed.

(** The notification pass when the variables map holds [help] as set: it
    writes nothing, keeps the flags, and either ends with [help_requested]
    set or with the exception of a notifier. *)
Lemma notify_help_stored {S : Type} (desc : list cli.option_description)
    (m : list (string * cli.variable_value)) (h : bool) (st : cli.Fields S) :
  (∃ d, cli.find_option desc "help" = Some d ∧ cli.semantic d = cli.bool_switch) →
  (∀ key d, cli.find_option desc key = Some d → cli.semantic d = cli.bool_switch →
            key = "help") →
  (∀ v, ("help", v) ∈ m → v = cli.vv_bool true) →
  h = true ∨ ("help", cli.vv_bool true) ∈ m →
  ∃ st', cli.flags_ st' = cli.flags_ st
         ∧ (cli.notify desc m h st = ([], st', Ret true)
            ∨ ∃ e, cli.notify desc m h st = ([], st', Throw e)).
Proof.
  intros (dh & Hdh & Hsw) Honly. revert h st.
  induction m as [|[key v] m IH]; intros h st Hall Hset.
  - destruct Hset as [-> | Hin]; [|by apply elem_of_nil in Hin].
    exists st. split; [done|]. by left.
  - assert (Hall' : ∀ v', ("help", v') ∈ m → v' = cli.vv_bool true).
    { intros v' Hin. apply Hall. by right. }
    assert (Hother : (key, v) ≠ ("help", cli.vv_bool true) →
                     h = true ∨ ("help", cli.vv_bool true) ∈ m).
    { intros Hne. destruct Hset as [-> | [Heq | Hin]%elem_of_cons]; [by left | | by right].
      by destruct Hne. }
    cbn [cli.notify].
    destruct (cli.find_option desc key) as [[name sem text]|] eqn:Hfind.
    + destruct sem as [| vf |].
      * assert (key = "help") as -> by (by apply (Honly _ _ Hfind)).
        destruct v as [b | s |].
        -- assert (cli.vv_bool b = cli.vv_bool true) as [= ->] by (apply Hall; left).
           apply IH; [exact Hall' | by left].
        -- apply IH; [exact Hall' | by apply Hother].
        -- apply IH; [exact Hall' | by apply Hother].
      * destruct v as [b | s |].
        -- apply IH; [exact Hall'|]. apply Hother. intros [= -> ->].
           rewrite Hdh in Hfind. injection Hfind as ->. discriminate.
        -- assert (Hrest : h = true ∨ ("help", cli.vv_bool true) ∈ m) by by apply Hother.
           unfold mbind, M_bind, bind, cli.notifier.
           destruct (cli.find_flag (cli.flags_ st) vf) as [f|];
             [destruct (cli.Flag.notify_ f) as [n|];
              [destruct (n s (cli.members st)) as [e|members']|]|].
           ++ exists st. split; [done|]. right. by exists e.
           ++ destruct (IH h (cli.MkFields (cli.flags_ st) members') Hall' Hrest)
                as (st' & Hfl & [Hr | (e & Hr)]); exists st'; (split; [exact Hfl|]);
                rewrite Hr; [by left | right; by exists e].
           ++ destruct (IH h st Hall' Hrest) as (st' & Hfl & [Hr | (e & Hr)]);
                exists st'; (split; [exact Hfl|]); rewrite Hr; [by left | right; by exists e].
           ++ destruct (IH h st Hall' Hrest) as (st' & Hfl & [Hr | (e & Hr)]);
                exists st'; (split; [exact Hfl|]); rewrite Hr; [by left | right; by exists e].
        -- apply IH; [exact Hall' | by apply Hother].
      * apply IH; [exact Hall'|]. apply Hother. intros [= -> ->].
        rewrite Hdh in Hfind. injection Hfind as ->. discriminate.
    + apply IH; [exact Hall'|]. apply Hother. intros [= -> ->]. congruence.
Qed.

(** C9, as stated, fails.  [run] tests [help_requested] after [po::notify]
    has handed every stored value to its flag: on the command line
    [--help --gles-driver=bogus] the parser stores [help] and the value
    [bogus], the notifier of [gles-driver] throws, and the exception leaves
    [run] with nothing written. *)
Lemma help_with_rejected_flag_value_prints_nothing :
  cli.run sample.long_options sample.session
    {| cli.args := ["--help"; "--gles-driver=bogus"] |} (cli.fields sample.session)
  = ([], cli.fields sample.session,
     Throw (runtime_error "Invalid GLES driver value provided"))
  ∧ sample.long_options (cli.options_of (cli.flags_ (cli.fields sample.session)))
      ["--help"; "--gles-driver=bogus"]
    = inr {| cli.vm := [("help", cli.vv_bool true); ("gles-driver", cli.vv_string "bogus")];
             cli.unrecognized := [] |}.
Proof. split; vm_compute; reflexivity. Qed.

(** C9, as it holds.  [run] on a command whose parsing stage (parse, store,
    notify) leaves [help_requested] set writes the help text and returns
    [EXIT_SUCCESS]; when the parsing stage throws a
    [boost::program_options::error] it writes the error and the help text
    and returns [EXIT_FAILURE].  In both cases the result is the same
    whatever action is installed (or none): the action is not invoked.  The
    first case is that of a command line on which [--help] is all the parser
    stores, the second that of a parser that throws.  When the parsed
    arguments hold [--help] among other options, the action is not invoked
    either: [run] writes the help text and returns [EXIT_SUCCESS] if every
    notifier accepts the value stored for its flag, and otherwise ends with
    the exception of the notifier that threw, which is reported like a parse
    error when it is a [boost::program_options::error] and leaves [run], with
    nothing written, when it is not. *)
Theorem run_help_and_parse_error {S : Type}
    (command_line_parser : list cli.option_description -> list string -> exception + cli.parsed_options)
    (c : cli.CommandWithFlagsAndAction S) (ctxt : cli.Context) (st : cli.Fields S) :
  (∀ tr st' parsed,
      cli.parse_store_notify command_line_parser ctxt st = (tr, st', Ret (true, parsed)) →
      ∀ a, cli.run command_line_parser
             (cli.MkCommand (cli.name_ c) (cli.usage_ c) (cli.description_ c) a (cli.fields c))
             ctxt st
           = (tr ++ [cout_write (cli.help c (cli.flags_ st'))], st', Ret EXIT_SUCCESS))
  ∧ (∀ tr st' message,
      cli.parse_store_notify command_line_parser ctxt st = (tr, st', Throw (po_error message)) →
      ∀ a, cli.run command_line_parser
             (cli.MkCommand (cli.name_ c) (cli.usage_ c) (cli.description_ c) a (cli.fields c))
             ctxt st
           = (tr ++ [cout_write (message +:+ endl); cout_write (cli.help c (cli.flags_ st'))],
              st', Ret EXIT_FAILURE))
  ∧ (∀ parsed,
      command_line_parser (cli.options_of (cli.flags_ st)) (cli.args ctxt) = inr parsed →
      cli.vm parsed = [("help", cli.vv_bool true)] →
      ∀ a, cli.run command_line_parser
             (cli.MkCommand (cli.name_ c) (cli.usage_ c) (cli.description_ c) a (cli.fields c))
             ctxt st
           = ([cout_write (cli.help c (cli.flags_ st))], st, Ret EXIT_SUCCESS))
  ∧ (∀ message,
      command_line_parser (cli.options_of (cli.flags_ st)) (cli.args ctxt)
      = inl (po_error message) →
      ∀ a, cli.run command_line_parser
             (cli.MkCommand (cli.name_ c) (cli.usage_ c) (cli.description_ c) a (cli.fields c))
             ctxt st
           = ([cout_write (message +:+ endl); cout_write (cli.help c (cli.flags_ st))],
              st, Ret EXIT_FAILURE))
  ∧ (∀ parsed,
      command_line_parser (cli.options_of (cli.flags_ st)) (cli.args ctxt) = inr parsed →
      ("help", cli.vv_bool true) ∈ cli.vm parsed →
      (∀ v, ("help", v) ∈ cli.vm parsed → v = cli.vv_bool true) →
      ∃ st', cli.flags_ st' = cli.flags_ st
        ∧ ((cli.notify (cli.options_of (cli.flags_ st)) (cli.vm parsed) false st
            = ([], st', Ret true)
            ∧ ∀ a, cli.run command_line_parser
                     (cli.MkCommand (cli.name_ c) (cli.usage_ c) (cli.description_ c) a
                        (cli.fields c))
                     ctxt st
                   = ([cout_write (cli.help c (cli.flags_ st'))], st', Ret EXIT_SUCCESS))
           ∨ (∃ e, cli.notify (cli.options_of (cli.flags_ st)) (cli.vm parsed) false st
                   = ([], st', Throw e)
                   ∧ ∀ a, cli.run command_line_parser
                            (cli.MkCommand (cli.name_ c) (cli.usage_ c) (cli.description_ c) a
                               (cli.fields c))
                            ctxt st
                          = if is_po_error e
                            then ([cout_write (what e +:+ endl);
                                   cout_write (cli.help c (cli.flags_ st'))],
                                  st', Ret EXIT_FAILURE)
                            else ([], st', Throw e)))).
Proof.
  assert (Hhelp : ∀ tr st' parsed,
      cli.parse_store_notify command_line_parser ctxt st = (tr, st', Ret (true, parsed)) →
      ∀ a, cli.run command_line_parser
             (cli.MkCommand (cli.name_ c) (cli.usage_ c) (cli.description_ c) a (cli.fields c))
             ctxt st
           = (tr ++ [cout_write (cli.help c (cli.flags_ st'))], st', Ret EXIT_SUCCESS)).
  { intros tr st' x H a. unfold cli.run, try_catch, mbind, M_bind, bind.
    rewrite H. reflexivity. }
  assert (Hthrow : ∀ tr st' message,
      cli.parse_store_notify command_line_parser ctxt st = (tr, st', Throw (po_error message)) →
      ∀ a, cli.run command_line_parser
             (cli.MkCommand (cli.name_ c) (cli.usage_ c) (cli.description_ c) a (cli.fields c))
             ctxt st
           = (tr ++ [cout_write (message +:+ endl); cout_write (cli.help c (cli.flags_ st'))],
              st', Ret EXIT_FAILURE)).
  { intros tr st' x H a. unfold cli.run, try_catch, mbind, M_bind, bind.
    rewrite H. reflexivity. }
  split; [exact Hhelp|]. split; [exact Hthrow|]. split; [|split].
  - intros parsed Hparsed Hvm a.
    exact (Hhelp [] st parsed (parse_store_notify_help _ _ _ _ Hparsed Hvm) a).
  - intros message Hparsed a.
    exact (Hthrow [] st message (parse_store_notify_throw _ _ _ _ Hparsed) a).
  - clear Hhelp Hthrow.
    intros parsed Hparsed Hin Honly.
    destruct (options_of_help (cli.flags_ st)) as [Hhelp Hswitch].
    destruct (notify_help_stored (cli.options_of (cli.flags_ st)) (cli.vm parsed) false st)
      as (st' & Hfl & [Hr | (e & Hr)]); [by eexists | exact Hswitch | exact Honly | by right | |].
    + exists st'. split; [exact Hfl|]. left. split; [exact Hr|]. intros a.
      unfold cli.run, cli.parse_store_notify, try_catch.
      rewrite bind_assoc_eq, bind_get_eq. cbv zeta.
      unfold mbind, M_bind, bind. rewrite Hparsed. cbn [lift ret prepend trace_of state_of outcome_of fst snd app].
      rewrite Hr. reflexivity.
    + exists st'. split; [exact Hfl|]. right. exists e. split; [exact Hr|]. intros a.
      unfold cli.run, cli.parse_store_notify, try_catch.
      rewrite bind_assoc_eq, bind_get_eq. cbv zeta.
      unfold mbind, M_bind, bind. rewrite Hparsed. cbn [lift ret prepend trace_of state_of outcome_of fst snd app].
      rewrite Hr. cbn [prepend trace_of state_of outcome_of fst snd app].
      by destruct (is_po_error e).
Qed.

Lemma run_help_and_parse_error_witness :
  cli.run sample.long_options sample.session {| cli.args := ["--help"] |} (cli.fields sample.session)
  = ([cout_write (cli.help sample.session (cli.flags_ (cli.fields sample.session)))],
     cli.fields sample.session, Ret EXIT_SUCCESS)
  ∧ cli.run sample.long_options sample.session {| cli.args := ["--gles-driver"] |} (cli.fields sample.session)
    = ([cout_write ("the required argument for option '--gles-driver' is missing" +:+ endl);
        cout_write (cli.help sample.session (cli.flags_ (cli.fields sample.session)))],
       cli.fields sample.session, Ret EXIT_FAILURE)
  ∧ cli.run sample.long_options sample.session
      {| cli.args := ["--help"; "--gles-driver=host"] |} (cli.fields sample.session)
    = ([cout_write (cli.help sample.session (cli.flags_ (cli.fields sample.session)))],
       cli.MkFields (cli.flags_ (cli.fields sample.session)) (cmds.MkMembers EmptyString Host),
       Ret EXIT_SUCCESS).
Proof.
  split; [|split].
  - exact (proj1 (run_help_and_parse_error sample.long_options sample.session
                    {| cli.args := ["--help"] |} (cli.fields sample.session))
                 [] (cli.fields sample.session)
                 {| cli.vm := [("help", cli.vv_bool true)]; cli.unrecognized := [] |} eq_refl
                 (cli.action_ sample.session)).
  - exact (proj1 (proj2 (run_help_and_parse_error sample.long_options sample.session
                    {| cli.args := ["--gles-driver"] |} (cli.fields sample.session)))
                 [] (cli.fields sample.session)
                 "the required argument for option '--gles-driver' is missing" eq_refl
                 (cli.action_ sample.session)).
  - destruct (proj2 (proj2 (proj2 (proj2
                (run_help_and_parse_error sample.long_options sample.session
                   {| cli.args := ["--help"; "--gles-driver=host"] |}
                   (cli.fields sample.session)))))
              {| cli.vm := [("help", cli.vv_bool true); ("gles-driver", cli.vv_string "host")];
                 cli.unrecognized := [] |} eq_refl)
      as (st' & _ & [[Hnotify Hrun] | (e & Hnotify & _)]).
    + left.
    + intros v [[= ->] | [[=] | Hin%elem_of_nil]%elem_of_cons]%elem_of_cons; done.
    + vm_compute in Hnotify. injection Hnotify as <-.
      exact (Hrun (cli.action_ sample.session)).
    + vm_compute in Hnotify. discriminate Hnotify.
Defined.

(** ** The input manager *)

Section manager_facts.
Import input.
Variable w : World.

Lemma create_device_eq (this : Manager) (counter : Z) :
  create_device w this counter =
  let next := (counter + 1) mod uint32_modulus in
  let path := build_device_path w counter in
  match raises w (Device_create path) with
  | Some x => ([called (Device_create path)], next, Throw x)
  | None =>
      ([called (Device_create path)], next,
       Ret ({| path := path |},
            MkManager (runtime_ this) (map_insert counter {| path := path |} (devices_ this))))
  end.
Proof.
  unfold create_device, next_id, mbind, M_bind, bind. cbv zeta.
  unfold call. by destruct (raises w _).
Qed.

Lemma build_device_path_inj : Inj (=) (=) (build_device_path w).
Proof.
  intros x y H. unfold build_device_path in H.
  apply String.app_inj, String.app_inj in H. by apply pretty_Z_inj in H.
Qed.

Lemma ids_from_lookup (n : nat) (counter : Z) (i : nat) :
  0 ≤ counter < uint32_modulus → (i < n)%nat →
  ids_from counter n !! i = Some ((counter + Z.of_nat i) mod uint32_modulus).
Proof.
  revert counter i. induction n as [|n IH]; intros counter i Hc Hi; [lia|].
  destruct i as [|i]; cbn [ids_from lookup list_lookup].
  - rewrite Z.add_0_r, Z.mod_small by done. reflexivity.
  - cbn. rewrite IH; [|by apply Z.mod_pos_bound|lia].
    f_equal. rewrite Zplus_mod_idemp_l. f_equal. lia.
Qed.

Lemma ids_from_length (n : nat) (counter : Z) : length (ids_from counter n) = n.
Proof. revert counter. induction n as [|n IH]; intros counter; cbn; by rewrite ?IH. Qed.

Lemma ids_from_NoDup (n : nat) (counter : Z) :
  0 ≤ counter < uint32_modulus → Z.of_nat n ≤ uint32_modulus →
  NoDup (ids_from counter n).
Proof.
  intros Hc Hn. apply NoDup_alt. intros i j x Hi Hj.
  assert (i < n)%nat by (apply lookup_lt_Some in Hi; by rewrite ids_from_length in Hi).
  assert (j < n)%nat by (apply lookup_lt_Some in Hj; by rewrite ids_from_length in Hj).
  rewrite ids_from_lookup in Hi, Hj by done.
  assert (Heq : (counter + Z.of_nat i) mod uint32_modulus
                = (counter + Z.of_nat j) mod uint32_modulus) by congruence.
  clear Hi Hj. unfold uint32_modulus in *.
  pose proof (Z.div_mod (counter + Z.of_nat i) (2 ^ 32) ltac:(lia)) as Hdi.
  pose proof (Z.div_mod (counter + Z.of_nat j) (2 ^ 32) ltac:(lia)) as Hdj.
  rewrite Heq in Hdi.
  set (qi := (counter + Z.of_nat i) `div` 2 ^ 32) in *.
  set (qj := (counter + Z.of_nat j) `div` 2 ^ 32) in *.
  assert (qi = qj) by nia. nia.
Qed.

Lemma create_devices_cons_eq (i : nat) (calls : list nat) (pool : list Manager) (counter : Z) :
  create_devices w pool (i :: calls) counter =
  match pool !! i with
  | None => create_devices w pool calls counter
  | Some this =>
      let next := (counter + 1) mod uint32_modulus in
      let device := {| path := build_device_path w counter |} in
      let this' := MkManager (runtime_ this) (map_insert counter device (devices_ this)) in
      match raises w (Device_create (build_device_path w counter)) with
      | Some x => ([called (Device_create (build_device_path w counter))], next, Throw x)
      | None =>
          match create_devices w (<[i := this']> pool) calls next with
          | (tr, s, Ret (devices, pool')) =>
              (called (Device_create (build_device_path w counter)) :: tr, s,
               Ret (device :: devices, pool'))
          | (tr, s, Throw x) =>
              (called (Device_create (build_device_path w counter)) :: tr, s, Throw x)
          | (tr, s, Block) =>
              (called (Device_create (build_device_path w counter)) :: tr, s, Block)
          end
      end
  end.
Proof.
  cbn [create_devices]. destruct (pool !! i) as [this|]; [|reflexivity].
  unfold mbind at 1, M_bind at 1, bind at 1. rewrite create_device_eq. cbv zeta.
  destruct (raises w _) as [x|]; [reflexivity|].
  unfold mbind at 1, M_bind at 1, bind at 1.
  destruct (create_devices w _ calls _) as [[tr s'] [[devices pool']| |]];
    unfold prepend, mret, M_ret, ret; cbn; by rewrite ?app_nil_r.
Qed.

(** A sequence of [create_device] calls hands [Device::create] the paths
    built from successive ids, up to the first call that throws. *)
Lemma create_devices_paths (calls : list nat) (pool : list Manager) (counter : Z) :
  let r := create_devices w pool calls counter in
  ∃ n, (n ≤ length calls)%nat
       ∧ created_paths (trace_of r) = map (build_device_path w) (ids_from counter n)
       ∧ ∀ devices pool', outcome_of r = Ret (devices, pool') →
                          map path devices = created_paths (trace_of r).
Proof.
  revert pool counter. induction calls as [|i calls IH]; intros pool counter; cbv zeta.
  - exists 0%nat. split; [done|]. split; [done|]. by intros devices pool' [= <- <-].
  - rewrite create_devices_cons_eq. destruct (pool !! i) as [this|].
    + cbv zeta. destruct (raises w _) as [x|].
      * exists 1%nat. split; [cbn; lia|]. split; [done|]. intros devices pool' [=].
      * match goal with
        | |- context [create_devices w ?p calls ?c] =>
            destruct (IH p c) as (n & Hn & Hpaths & Hret);
            destruct (create_devices w p calls c) as [[tr s'] [[devices pool']| |]]
        end; cbn in Hpaths, Hret;
          exists (S n); (split; [cbn; lia|]); (split; [cbn; by rewrite Hpaths|]).
        -- intros devices0 pool0 [= <- <-]. cbn. f_equal. exact (Hret devices pool' eq_refl).
        -- intros devices0 pool0 [=].
        -- intros devices0 pool0 [=].
    + destruct (IH pool counter) as (n & Hn & Hpaths & Hret).
      exists n. split; [cbn; lia|]. done.
Qed.
End manager_facts.

(** After 2^32 calls the counter is back where it started: the call number
    2^32 (counting from 0) returns the id of call number 0. *)
Lemma ids_repeat_after_wraparound :
  input.ids_from 0 (S (Z.to_nat (2 ^ 32))) !! 0%nat = Some 0
  ∧ input.ids_from 0 (S (Z.to_nat (2 ^ 32))) !! Z.to_nat (2 ^ 32) = Some 0.
Proof.
  split; [reflexivity|].
  rewrite ids_from_lookup; [|unfold input.uint32_modulus; lia|lia].
  rewrite Z2Nat.id by lia. reflexivity.
Qed.

(** C7, as stated, fails.  The counter of [next_id] is a function-local
    [static], not a member of the manager: with two managers in the same
    state, the device the second one creates first is [event0] in a process
    where the first manager was not used and [event1] in a process where it
    created a device before.  And the 32-bit counter wraps: the id after
    4294967295 is 0 again, so that call number 2^32 repeats the id of the
    first call. *)
Lemma next_id_counter_is_shared_and_wraps :
  input.created_paths
    (trace_of (input.create_devices (sample.host [] [])
                 [input.MkManager 0 ∅; input.MkManager 0 ∅] [1%nat] 0))
  = ["/run/user/1000/anbox/input-devices/event0"]
  ∧ input.created_paths
      (trace_of (input.create_devices (sample.host [] [])
                   [input.MkManager 0 ∅; input.MkManager 0 ∅] [0%nat; 1%nat] 0))
    = ["/run/user/1000/anbox/input-devices/event0";
       "/run/user/1000/anbox/input-devices/event1"]
  ∧ input.next_id 4294967295 = ([], 0, Ret 4294967295)
  ∧ input.next_id 0 = ([], 1, Ret 0)
  ∧ input.ids_from 0 (S (Z.to_nat (2 ^ 32))) !! 0%nat
    = input.ids_from 0 (S (Z.to_nat (2 ^ 32))) !! Z.to_nat (2 ^ 32).
Proof.
  split; [vm_compute; reflexivity|]. split; [vm_compute; reflexivity|].
  split; [vm_compute; reflexivity|]. split; [vm_compute; reflexivity|].
  destruct ids_repeat_after_wraparound as [-> ->]. reflexivity.
Qed.

(** C7, as it holds.  The id a [create_device] call gets is the value of the
    process-wide counter, whatever the manager it is called on.  In every
    sequence of at most 2^32 [create_device] calls, on whatever managers,
    the paths handed to [Device::create] are pairwise distinct; they are the
    paths [<input_device_dir>/event<id>] of the successive ids from the
    value of the counter on; and when the sequence returns, they are the
    paths of the devices it returns. *)
Theorem device_ids_distinct_below_wraparound
    (w : World) (pool : list input.Manager) (calls : list nat) (counter : Z) :
  0 ≤ counter < 2 ^ 32 →
  Z.of_nat (length calls) ≤ 2 ^ 32 →
  (let r := input.create_devices w pool calls counter in
   NoDup (input.created_paths (trace_of r))
   ∧ (∃ n, (n ≤ length calls)%nat
           ∧ input.created_paths (trace_of r)
             = map (fun id => input_device_dir w +:+ "/event" +:+ pretty id)
                   (input.ids_from counter n)
           ∧ NoDup (input.ids_from counter n))
   ∧ (∀ devices pool', outcome_of r = Ret (devices, pool') →
                       map input.path devices = input.created_paths (trace_of r))
   ∧ (∀ this this',
        trace_of (input.create_device w this counter)
        = trace_of (input.create_device w this' counter)
        ∧ trace_of (input.create_device w this counter)
          = [called (Device_create (input_device_dir w +:+ "/event" +:+ pretty counter))])).
Proof.
  intros Hc Hn r.
  destruct (create_devices_paths w calls pool counter) as (n & Hle & Hpaths & Hret).
  fold r in Hpaths, Hret.
  assert (Hnodup : NoDup (input.ids_from counter n)).
  { apply ids_from_NoDup; [done|]. unfold input.uint32_modulus. lia. }
  split; [|split; [|split]].
  - rewrite Hpaths. apply (NoDup_fmap_2 _). exact Hnodup.
  - exists n. split; [exact Hle|]. split; [exact Hpaths | exact Hnodup].
  - exact Hret.
  - intros this this'. rewrite !create_device_eq. cbv zeta.
    by destruct (raises w _).
Qed.

Lemma device_ids_distinct_below_wraparound_witness :
  NoDup (input.created_paths
           (trace_of (input.create_devices (sample.host [] [])
                        [input.MkManager 0 ∅; input.MkManager 0 ∅]
                        [0%nat; 1%nat; 0%nat] 4294967295))).
Proof.
  refine (proj1 (device_ids_distinct_below_wraparound (sample.host [] [])
                   [input.MkManager 0 ∅; input.MkManager 0 ∅]
                   [0%nat; 1%nat; 0%nat] 4294967295 _ _)).
  - vm_compute. split; [discriminate | reflexivity].
  - vm_compute. discriminate.
Defined.

(** ** The session action *)

(** Membership in an explicit list of events. *)
Ltac not_in_list :=
  let Hin := fresh "Hin" in
  intros Hin;
  repeat (apply elem_of_cons in Hin as [Hin|Hin]; [discriminate Hin|]);
  by apply elem_of_nil in Hin.

Ltac in_list := repeat first [ apply list_elem_of_here | apply list_elem_of_further ].

Section session_facts.
Import cli cmds.
Variable w : World.

Lemma session_startup_eq (st : Fields Members) :
  session_startup w st =
  match calls_until_throw w (startup_calls w (gles_driver_ (members st))) with
  | (tr, Some x) => (tr, st, Throw x)
  | (tr, None) => (tr, st, Ret (session_container, session_configuration w))
  end.
Proof.
  unfold session_startup, startup_calls, session_configuration, input.Manager_create.
  cbn [calls_until_throw].
  repeat first
    [ rewrite bind_assoc_eq
    | rewrite bind_ret_eq
    | rewrite bind_get_eq
    | rewrite bind_call_eq; cbv beta zeta;
      match goal with
      | |- context [raises w ?c] => destruct (raises w c) eqn:?; [reflexivity|]
      end ].
  reflexivity.
Qed.

Lemma wait_for_stop_eq {S} (arriving : list AsyncEvent) (s : S) :
  wait_for_stop session_trap session_container arriving s =
  match arriving with
  | [] => ([], s, Block)
  | ev :: _ => (shutdown_events ev, s, Ret tt)
  end.
Proof. by destruct arriving as [|[[]|] rest]. Qed.

Lemma session_run_eq (st : Fields Members) (configuration : Configuration) :
  session_run w session_trap session_container configuration st =
  match raises w rt_start with
  | Some x => ([called rt_start], st, Throw x)
  | None =>
      match pending w with
      | [] => ([called rt_start; start_container configuration; trap_run], st, Block)
      | ev :: _ =>
          ([called rt_start; start_container configuration; trap_run]
             ++ shutdown_events ev ++ [rt_stop], st, Ret EXIT_SUCCESS)
      end
  end.
Proof.
  unfold session_run, run_dispatched.
  rewrite bind_call_eq. destruct (raises w rt_start); [reflexivity|].
  cbv beta. rewrite !bind_emit_eq.
  unfold mbind at 1, M_bind at 1, bind at 1. rewrite wait_for_stop_eq.
  by destruct (pending w) as [|[[]|] rest].
Qed.

Lemma session_action_eq (ctxt : Context) (st : Fields Members) :
  session_action w ctxt st =
  match raises w (trap_signals_for_process [sig_term; sig_int]) with
  | Some x => ([called (trap_signals_for_process [sig_term; sig_int])], st, Throw x)
  | None =>
  match raises w signal_raised_connect with
  | Some x =>
      ([called (trap_signals_for_process [sig_term; sig_int]);
        called signal_raised_connect], st, Throw x)
  | None =>
      if fs_exists w "/dev/binder" then
        if fs_exists w "/dev/ashmem" then
          let st1 := after_nvidia_check w st in
          prepend (checks_trace w)
            match calls_until_throw w (startup_calls w (gles_driver_ (members st1))) with
            | (tr, Some x) => (tr, st1, Throw x)
            | (tr, None) =>
                prepend tr
                  (session_run w session_trap session_container
                     (session_configuration w) st1)
            end
        else
          ([called (trap_signals_for_process [sig_term; sig_int]);
            called signal_raised_connect;
            fs_exists_query "/dev/binder"; fs_exists_query "/dev/ashmem";
            missing_device_message], st, Ret EXIT_FAILURE)
      else
        ([called (trap_signals_for_process [sig_term; sig_int]);
          called signal_raised_connect;
          fs_exists_query "/dev/binder";
          missing_device_message], st, Ret EXIT_FAILURE)
  end end.
Proof.
  unfold session_action.
  rewrite bind_call_eq.
  destruct (raises w (trap_signals_for_process _)); [reflexivity|].
  cbv beta zeta. rewrite bind_call_eq.
  destruct (raises w signal_raised_connect); [reflexivity|].
  cbv beta zeta. rewrite bind_exists_eq.
  destruct (fs_exists w "/dev/binder"); [|reflexivity].
  rewrite bind_assoc_eq, bind_exists_eq.
  destruct (fs_exists w "/dev/ashmem"); [|reflexivity].
  rewrite bind_ret_eq. cbn [negb]. rewrite bind_exists_eq.
  unfold checks_trace, after_nvidia_check.
  fold session_trap.
  destruct (fs_exists w "/dev/nvidiactl").
  - unfold INFO, assign_gles_driver.
    rewrite bind_assoc_eq, bind_emit_eq, bind_modify_eq.
    cbv zeta. unfold mbind at 1, M_bind at 1, bind at 1.
    rewrite session_startup_eq.
    destruct (calls_until_throw _ _) as [tr [x|]]; reflexivity.
  - rewrite bind_ret_eq.
    cbv zeta. unfold mbind at 1, M_bind at 1, bind at 1.
    rewrite session_startup_eq.
    destruct (calls_until_throw _ _) as [tr [x|]]; reflexivity.
Qed.

Lemma calls_until_throw_inv (cs : list Call) :
  match calls_until_throw w cs with
  | (tr, None) => tr = map called cs ∧ Forall (fun c => raises w c = None) cs
  | (tr, Some x) =>
      ∃ cs1 c cs2, cs = cs1 ++ c :: cs2 ∧ tr = map called cs1 ++ [called c]
                   ∧ Forall (fun c => raises w c = None) cs1 ∧ raises w c = Some x
  end.
Proof.
  induction cs as [|c cs IH]; cbn [calls_until_throw].
  - split; [reflexivity | constructor].
  - destruct (raises w c) as [x|] eqn:Hc.
    + exists [], c, cs. repeat split; [constructor | assumption].
    + destruct (calls_until_throw w cs) as [tr [x|]].
      * destruct IH as (cs1 & c' & cs2 & -> & -> & Hq & Hx).
        exists (c :: cs1), c', cs2. repeat split; [constructor; assumption | assumption].
      * destruct IH as [-> Hq]. split; [reflexivity | constructor; assumption].
Qed.







Lemma take_S_middle {A} (l1 : list A) (x : A) (l2 : list A) :
  take (S (length l1)) (l1 ++ x :: l2) = l1 ++ [x].
Proof. induction l1 as [|y l1 IH]; cbn; [by rewrite take_0 | by f_equal]. Qed.

(** The shapes a run of the lambda can have. *)
Lemma session_action_cases (ctxt : Context) (st : Fields Members) :
  let r := session_action w ctxt st in
  let st1 := after_nvidia_check w st in
  let cs := startup_calls w (gles_driver_ (members st1)) in
  let waiting := [called rt_start; start_container (session_configuration w); trap_run] in
  (* the lambda leaves before the check for the nvidia driver *)
  ((fs_exists w "/dev/binder" = false ∨ fs_exists w "/dev/ashmem" = false
    ∨ raises w (trap_signals_for_process [sig_term; sig_int]) ≠ None
    ∨ raises w signal_raised_connect ≠ None)
   ∧ state_of r = st ∧ failed (outcome_of r)
   ∧ Forall (fun e => e ∈ [ called (trap_signals_for_process [sig_term; sig_int]);
                            called signal_raised_connect;
                            fs_exists_query "/dev/binder"; fs_exists_query "/dev/ashmem";
                            missing_device_message ]) (trace_of r))
  ∨ ((fs_exists w "/dev/binder" = true ∧ fs_exists w "/dev/ashmem" = true
      ∧ raises w (trap_signals_for_process [sig_term; sig_int]) = None
      ∧ raises w signal_raised_connect = None)
     ∧ state_of r = st1
     ∧ (* a call of the start-up throws *)
       ((∃ n c x, (cs ++ [rt_start]) !! n = Some c
                  ∧ raises w c = Some x
                  ∧ trace_of r = checks_trace w ++ map called (take (S n) (cs ++ [rt_start]))
                  ∧ outcome_of r = Throw x)
        (* nothing arrives while the lambda waits *)
        ∨ (pending w = []
           ∧ trace_of r = checks_trace w ++ map called cs ++ waiting
           ∧ outcome_of r = Block)
        (* the first arrival stops the trap *)
        ∨ (∃ ev rest, pending w = ev :: rest
                      ∧ trace_of r = checks_trace w ++ map called cs ++ waiting
                                       ++ shutdown_events ev ++ [rt_stop]
                      ∧ outcome_of r = Ret EXIT_SUCCESS))).
Proof.
  cbv zeta. rewrite session_action_eq.
  destruct (raises w (trap_signals_for_process _)) as [x|] eqn:H1.
  { left. split; [right; right; left; discriminate|]. split; [done|]. split; [exact I|].
    repeat constructor. }
  destruct (raises w signal_raised_connect) as [x|] eqn:H2.
  { left. split; [right; right; right; discriminate|]. split; [done|]. split; [exact I|].
    repeat constructor. }
  destruct (fs_exists w "/dev/binder") eqn:Hb;
    [destruct (fs_exists w "/dev/ashmem") eqn:Ha|].
  2,3: left; (split; [first [left; reflexivity | right; left; reflexivity]|]); (split; [done|]); (split; [discriminate|]);
       unfold missing_device_message; repeat constructor.
  right. split; [done|]. cbv zeta.
  pose proof (calls_until_throw_inv
                (startup_calls w (gles_driver_ (members (after_nvidia_check w st))))) as Hinv.
  destruct (calls_until_throw w _) as [tr [x|]].
  - destruct Hinv as (cs1 & c & cs2 & Hcs & -> & Hq & Hx).
    split; [done|]. left. exists (length cs1), c, x.
    rewrite Hcs, <- app_assoc. cbn [app].
    rewrite take_S_middle, list_lookup_middle, fmap_app by done. done.
  - destruct Hinv as [-> Hq]. rewrite prepend_prepend, session_run_eq.
    destruct (raises w rt_start) as [x|] eqn:H3.
    + split; [done|]. left.
      exists (length (startup_calls w (gles_driver_ (members (after_nvidia_check w st))))),
             rt_start, x.
      rewrite take_S_middle, list_lookup_middle, fmap_app by done.
      split; [done|]. split; [done|]. split; [|done].
      rewrite trace_of_prepend. cbn [trace_of fst]. by rewrite <- app_assoc.
    + destruct (pending w) as [|ev rest].
      * split; [done|]. right. left. split; [done|]. split; [|done].
        rewrite trace_of_prepend. cbn [trace_of fst]. by rewrite <- app_assoc.
      * split; [done|]. right. right. exists ev, rest. split; [done|]. split; [|done].
        rewrite trace_of_prepend. cbn [trace_of fst]. by rewrite <- !app_assoc.
Qed.


(** The calls a run of the lambda can make. *)
Lemma called_in_session_trace (ctxt : Context) (st : Fields Members) (c : Call) :
  called c ∈ trace_of (session_action w ctxt st) →
  c = trap_signals_for_process [sig_term; sig_int]
  ∨ c = signal_raised_connect
  ∨ c ∈ startup_calls w (gles_driver_ (members (after_nvidia_check w st)))
  ∨ c = rt_start.
Proof.
  intros Hin.
  assert (Hchecks : called c ∈ checks_trace w →
            c = trap_signals_for_process [sig_term; sig_int] ∨ c = signal_raised_connect).
  { unfold checks_trace. intros H. apply elem_of_app in H as [H | H].
    - repeat (apply elem_of_cons in H as [H | H];
              [first [discriminate H | injection H as ->; tauto] | ]).
      by apply elem_of_nil in H.
    - destruct (fs_exists w "/dev/nvidiactl"); revert H; not_in_list. }
  assert (Hcalls : ∀ cs, called c ∈ map called cs → c ∈ cs).
  { intros cs H. apply list_elem_of_fmap in H as (c' & [= ->] & H). exact H. }
  destruct (session_action_cases ctxt st)
    as [(_ & _ & _ & Hall) | (_ & _ & [(n & c' & x & Hn & _ & Htr & _)
                                      | [(_ & Htr & _) | (ev & rest & _ & Htr & _)]])].
  - rewrite Forall_forall in Hall. apply Hall in Hin.
    unfold missing_device_message in Hin.
    repeat (apply elem_of_cons in Hin as [Hin | Hin];
            [first [discriminate Hin | injection Hin as ->; tauto] | ]).
    by apply elem_of_nil in Hin.
  - rewrite Htr in Hin. apply elem_of_app in Hin as [Hin | Hin]; [apply Hchecks in Hin; tauto|].
    apply Hcalls, elem_of_take in Hin as (i & Hi & _).
    apply list_elem_of_lookup_2, elem_of_app in Hi as [Hi | Hi]; [tauto|].
    apply list_elem_of_singleton in Hi. tauto.
  - rewrite Htr in Hin. apply elem_of_app in Hin as [Hin | Hin]; [apply Hchecks in Hin; tauto|].
    apply elem_of_app in Hin as [Hin | Hin]; [apply Hcalls in Hin; tauto|].
    repeat (apply elem_of_cons in Hin as [Hin | Hin];
            [first [discriminate Hin | injection Hin as ->; tauto] | ]).
    by apply elem_of_nil in Hin.
  - rewrite Htr in Hin. apply elem_of_app in Hin as [Hin | Hin]; [apply Hchecks in Hin; tauto|].
    apply elem_of_app in Hin as [Hin | Hin]; [apply Hcalls in Hin; tauto|].
    apply elem_of_app in Hin as [Hin | Hin].
    { repeat (apply elem_of_cons in Hin as [Hin | Hin];
              [first [discriminate Hin | injection Hin as ->; tauto] | ]).
      by apply elem_of_nil in Hin. }
    apply elem_of_app in Hin as [Hin | Hin]; destruct ev; revert Hin; not_in_list.
Qed.

(** The steps up to the start of the runtime are calls, queries and log
    messages. *)
Lemma not_in_startup_trace (e : Event) (cs : list Call) :
  (∀ c, e ≠ called c) → (∀ path, e ≠ fs_exists_query path) →
  (∀ level message, e ≠ log_message level message) →
  e ∉ checks_trace w ++ map called cs.
Proof.
  intros Hc Hq Hl Hin. apply elem_of_app in Hin as [Hin | Hin].
  - unfold checks_trace in Hin. apply elem_of_app in Hin as [Hin | Hin].
    + repeat (apply elem_of_cons in Hin as [Hin | Hin];
              [first [by destruct (Hc _ Hin) | by destruct (Hq _ Hin)] | ]).
      by apply elem_of_nil in Hin.
    + destruct (fs_exists w "/dev/nvidiactl").
      * apply list_elem_of_singleton in Hin. by destruct (Hl _ _ Hin).
      * by apply elem_of_nil in Hin.
  - apply list_elem_of_fmap in Hin as (c & Hin & _). by destruct (Hc _ Hin).
Qed.

Lemma terminate_handlers_registered_app (tr1 tr2 : list Event) :
  terminate_handlers_registered (tr1 ++ tr2)
  = (terminate_handlers_registered tr1 + terminate_handlers_registered tr2)%nat.
Proof.
  induction tr1 as [|e tr1 IH]; [reflexivity|].
  cbn [app terminate_handlers_registered].
  destruct e as [[]| | | | | | | | |]; cbn; by rewrite ?IH.
Qed.

Lemma terminate_handlers_registered_take (n : nat) (tr : list Event) :
  (terminate_handlers_registered (take n tr) ≤ terminate_handlers_registered tr)%nat.
Proof.
  revert n. induction tr as [|e tr IH]; intros [|n]; cbn [take]; try (cbn; lia).
  specialize (IH n).
  destruct e as [[]| | | | | | | | |]; cbn [terminate_handlers_registered]; lia.
Qed.

Lemma terminate_handlers_registered_checks :
  terminate_handlers_registered (checks_trace w) = 0%nat.
Proof. unfold checks_trace. by destruct (fs_exists w "/dev/nvidiactl"). Qed.

End session_facts.

(** A call that throws ends the run: on a host where [Runtime::create]
    throws, the lambda stops there and the exception leaves it. *)
Example runtime_create_failure_ends_startup :
  cmds.session_action
    (sample.failing_host ["/dev/binder"; "/dev/ashmem"] [SignalRaised sig_int] Runtime_create)
    {| cli.args := [] |} sample.fields0
  = ([ called (trap_signals_for_process [sig_term; sig_int]);
       called signal_raised_connect;
       fs_exists_query "/dev/binder";
       fs_exists_query "/dev/ashmem";
       fs_exists_query "/dev/nvidiactl";
       called (ensure_paths ["/run/user/1000/anbox/sockets";
                             "/run/user/1000/anbox/input-devices"]);
       called Runtime_create ],
     sample.fields0, Throw (foreign_error "failed")).
Proof. reflexivity. Qed.

(** A session that starts and is stopped by [SIGINT]. *)
Example session_stopped_by_sigint :
  outcome_of (cmds.session_action
                (sample.host ["/dev/binder"; "/dev/ashmem"] [SignalRaised sig_int])
                {| cli.args := [] |} sample.fields0)
  = Ret EXIT_SUCCESS
  ∧ last (trace_of (cmds.session_action
                      (sample.host ["/dev/binder"; "/dev/ashmem"] [SignalRaised sig_int])
                      {| cli.args := [] |} sample.fields0))
    = Some rt_stop.
Proof. split; reflexivity. Qed.

Section session_claims.
Import cli cmds.




(** C3.  The configuration of every container start the session action
    requests (the dispatch of line 185) and of every container start that
    runs holds exactly the seven bind mounts of lines 175-183, in that
    order; the two socket paths are those of the connectors created before;
    and a container start that runs was dispatched with the same
    configuration: the list is not changed in between. *)
Theorem container_start_gets_declared_bind_mounts
    (w : World) (ctxt : Context) (st : Fields Members) (configuration : Configuration) :
  called (dispatcher_dispatch configuration) ∈ trace_of (session_action w ctxt st)
  ∨ start_container configuration ∈ trace_of (session_action w ctxt st) →
  bind_mounts configuration
  = [ (socket_dir w +:+ "/qemu_pipe", "/dev/qemu_pipe");
      (socket_dir w +:+ "/anbox_bridge", "/dev/anbox_bridge");
      (audio_socket_file w, "/dev/anbox_audio");
      (input_device_dir w, "/dev/input");
      ("/dev/binder", "/dev/binder");
      ("/dev/ashmem", "/dev/ashmem");
      ("/dev/fuse", "/dev/fuse") ]
  ∧ called (PublishedSocketConnector_create (socket_dir w +:+ "/qemu_pipe"))
    ∈ trace_of (session_action w ctxt st)
  ∧ called (PublishedSocketConnector_create (socket_dir w +:+ "/anbox_bridge"))
    ∈ trace_of (session_action w ctxt st)
  ∧ called (dispatcher_dispatch configuration) ∈ trace_of (session_action w ctxt st).
Proof.
  intros Hin.
  destruct (session_action_cases w ctxt st)
    as [(_ & _ & _ & Hall) | (_ & _ & [(n & c & x & Hn & _ & Htr & _)
                                      | [(_ & Htr & _) | (ev & rest & _ & Htr & _)]])].
  - exfalso. rewrite Forall_forall in Hall.
    destruct Hin as [Hin | Hin]; apply Hall in Hin; revert Hin;
      unfold missing_device_message; not_in_list.
  - rewrite Htr in Hin |- *. clear Htr.
    unfold startup_calls, session_configuration, session_bind_mounts, socket_file_in,
      checks_trace in *.
    cbn [app] in Hn, Hin |- *.
    do 23 (destruct n as [|n];
           [ cbn [take fmap list_fmap app] in Hin |- *;
             destruct (fs_exists w "/dev/nvidiactl"); cbn [app] in Hin |- *;
             destruct Hin as [Hin | Hin];
             repeat (apply elem_of_cons in Hin as [Hin | Hin];
                     [ first [ discriminate Hin
                             | injection Hin as ->;
                               split; [reflexivity|]; repeat split; in_list ] | ]);
             by apply elem_of_nil in Hin
           | ]).
    discriminate Hn.
  - rewrite Htr in Hin |- *. clear Htr.
    unfold startup_calls, session_configuration, session_bind_mounts, socket_file_in,
      checks_trace in *.
    destruct (fs_exists w "/dev/nvidiactl"); cbn [app fmap list_fmap] in Hin |- *;
      destruct Hin as [Hin | Hin];
      repeat (apply elem_of_cons in Hin as [Hin | Hin];
              [ first [ discriminate Hin
                      | injection Hin as ->;
                        split; [reflexivity|]; repeat split; in_list ] | ]);
      by apply elem_of_nil in Hin.
  - rewrite Htr in Hin |- *. clear Htr.
    unfold startup_calls, session_configuration, session_bind_mounts, socket_file_in,
      checks_trace in *.
    destruct ev as [signal|];
      destruct (fs_exists w "/dev/nvidiactl");
      cbn [app fmap list_fmap shutdown_events] in Hin |- *;
      destruct Hin as [Hin | Hin];
      repeat (apply elem_of_cons in Hin as [Hin | Hin];
              [ first [ discriminate Hin
                      | injection Hin as ->;
                        split; [reflexivity|]; repeat split; in_list ] | ]);
      by apply elem_of_nil in Hin.
Qed.

Lemma container_start_gets_declared_bind_mounts_witness :
  bind_mounts (session_configuration
                 (sample.host ["/dev/binder"; "/dev/ashmem"] [SignalRaised sig_term]))
  = [ ("/run/user/1000/anbox/sockets/qemu_pipe", "/dev/qemu_pipe");
      ("/run/user/1000/anbox/sockets/anbox_bridge", "/dev/anbox_bridge");
      ("/run/user/1000/anbox/sockets/anbox_audio", "/dev/anbox_audio");
      ("/run/user/1000/anbox/input-devices", "/dev/input");
      ("/dev/binder", "/dev/binder");
      ("/dev/ashmem", "/dev/ashmem");
      ("/dev/fuse", "/dev/fuse") ].
Proof.
  refine (proj1 (container_start_gets_declared_bind_mounts
                   (sample.host ["/dev/binder"; "/dev/ashmem"] [SignalRaised sig_term])
                   {| args := [] |} sample.fields0 _ (or_intror _))).
  vm_compute. in_list.
Defined.

(** C4, as it holds.  The session action checks for [/dev/nvidiactl] only
    after the trap is set up and both [/dev/binder] and [/dev/ashmem] were
    found.  In a run that makes the check, if [/dev/nvidiactl] exists the
    action leaves [gles_driver_] at [Host], whatever it was, and the
    renderer is created for [Host]; if [/dev/nvidiactl] does not exist, or
    the check is not made, the members are as the flags left them, and a
    renderer that is created is created for the flag's value. *)
Theorem nvidia_forces_host_driver_once_checked
    (w : World) (ctxt : Context) (st : Fields Members) :
  let r := session_action w ctxt st in
  (fs_exists_query "/dev/nvidiactl" ∈ trace_of r
   ↔ fs_exists w "/dev/binder" = true ∧ fs_exists w "/dev/ashmem" = true
     ∧ raises w (trap_signals_for_process [sig_term; sig_int]) = None
     ∧ raises w signal_raised_connect = None)
  ∧ (fs_exists_query "/dev/nvidiactl" ∈ trace_of r →
     fs_exists w "/dev/nvidiactl" = true →
     gles_driver_ (members (state_of r)) = Host
     ∧ desktop_file_hint_ (members (state_of r)) = desktop_file_hint_ (members st)
     ∧ ∀ driver, called (GLRendererServer_create driver) ∈ trace_of r → driver = Host)
  ∧ (fs_exists w "/dev/nvidiactl" = false ∨ fs_exists_query "/dev/nvidiactl" ∉ trace_of r →
     state_of r = st
     ∧ ∀ driver, called (GLRendererServer_create driver) ∈ trace_of r →
                 driver = gles_driver_ (members st)).
Proof.
  intros r.
  pose proof (session_action_cases w ctxt st) as Hcases. cbv zeta in Hcases. fold r in Hcases.
  assert (Hdriver : ∀ driver, called (GLRendererServer_create driver) ∈ trace_of r →
                      driver = gles_driver_ (members (after_nvidia_check w st))).
  { intros driver Hin. apply called_in_session_trace in Hin.
    destruct Hin as [Hin | [Hin | [Hin | Hin]]]; try discriminate Hin.
    unfold startup_calls in Hin.
    repeat (apply elem_of_cons in Hin as [Hin | Hin];
            [first [discriminate Hin | by injection Hin] | ]).
    by apply elem_of_nil in Hin. }
  assert (Hreached : fs_exists_query "/dev/nvidiactl" ∈ trace_of r
     ↔ fs_exists w "/dev/binder" = true ∧ fs_exists w "/dev/ashmem" = true
       ∧ raises w (trap_signals_for_process [sig_term; sig_int]) = None
       ∧ raises w signal_raised_connect = None).
  { destruct Hcases
      as [(Hearly & _ & _ & Hall) | (Hok & _ & Hshape)].
    - split.
      + intros Hin. exfalso. rewrite Forall_forall in Hall. apply Hall in Hin.
        revert Hin. unfold missing_device_message. not_in_list.
      + intros (Hb & Ha & H1 & H2). exfalso.
        destruct Hearly as [? | [? | [? | ?]]]; congruence.
    - split; [intros _; exact Hok|]. intros _.
      assert (Hin : fs_exists_query "/dev/nvidiactl" ∈ checks_trace w).
      { unfold checks_trace. apply elem_of_app. left. in_list. }
      destruct Hshape as [(n & c' & x & _ & _ & -> & _)
                         | [(_ & -> & _) | (ev & rest & _ & -> & _)]];
        apply elem_of_app; by left. }
  assert (Hstate : fs_exists_query "/dev/nvidiactl" ∈ trace_of r →
                   state_of r = after_nvidia_check w st).
  { intros Hin.
    destruct Hcases
      as [(_ & _ & _ & Hall) | (_ & Hst & _)]; [|exact Hst].
    exfalso. rewrite Forall_forall in Hall. apply Hall in Hin.
    revert Hin. unfold missing_device_message. not_in_list. }
  assert (Hearly : fs_exists_query "/dev/nvidiactl" ∉ trace_of r →
                   state_of r = st
                   ∧ ∀ driver, called (GLRendererServer_create driver) ∉ trace_of r).
  { intros Hnot.
    destruct Hcases
      as [(_ & Hst & _ & Hall) | (Hok & _)].
    - split; [exact Hst|]. intros driver Hin. rewrite Forall_forall in Hall.
      apply Hall in Hin. revert Hin. unfold missing_device_message. not_in_list.
    - destruct Hnot. by apply Hreached. }
  split; [exact Hreached|]. split.
  - intros Hin Hnvidia. rewrite (Hstate Hin).
    unfold after_nvidia_check in *. rewrite Hnvidia in *.
    split; [reflexivity|]. split; [reflexivity|]. exact Hdriver.
  - intros [Hnvidia | Hnot].
    + assert (Hdec : fs_exists_query "/dev/nvidiactl" ∈ trace_of r
                     ∨ fs_exists_query "/dev/nvidiactl" ∉ trace_of r).
      { destruct Hcases as [(_ & _ & _ & Hall) | (Hok & _)].
        - right. intros Hin. rewrite Forall_forall in Hall. apply Hall in Hin.
          revert Hin. unfold missing_device_message. not_in_list.
        - left. by apply Hreached. }
      destruct Hdec as [Hin | Hnot].
      * rewrite (Hstate Hin). unfold after_nvidia_check in *. rewrite Hnvidia in *.
        split; [reflexivity | exact Hdriver].
      * destruct (Hearly Hnot) as [Hst Hno]. split; [exact Hst|].
        intros driver Hin. by destruct (Hno driver).
    + destruct (Hearly Hnot) as [Hst Hno]. split; [exact Hst|].
      intros driver Hin. by destruct (Hno driver).
Qed.

(** C4, as stated, fails: on a host where [/dev/nvidiactl] exists and
    [/dev/binder] does not, the action returns at line 98, before the check
    of line 103, and [gles_driver_] keeps the flag's value [Translator]. *)
Lemma nvidia_check_not_reached_without_binder :
  fs_exists (sample.host ["/dev/ashmem"; "/dev/nvidiactl"] []) "/dev/nvidiactl" = true
  ∧ gles_driver_ (members sample.fields0) = Translator
  ∧ gles_driver_
      (members (state_of (session_action (sample.host ["/dev/ashmem"; "/dev/nvidiactl"] [])
                            {| args := [] |} sample.fields0)))
    = Translator
  ∧ outcome_of (session_action (sample.host ["/dev/ashmem"; "/dev/nvidiactl"] [])
                  {| args := [] |} sample.fields0)
    = Ret EXIT_FAILURE.
Proof. repeat split. Qed.

Lemma nvidia_forces_host_driver_once_checked_witness :
  gles_driver_
    (members (state_of (session_action
                          (sample.host ["/dev/binder"; "/dev/ashmem"; "/dev/nvidiactl"] [])
                          {| args := [] |} sample.fields0)))
  = Host.
Proof.
  refine (proj1 (proj1 (proj2 (nvidia_forces_host_driver_once_checked
                   (sample.host ["/dev/binder"; "/dev/ashmem"; "/dev/nvidiactl"] [])
                   {| args := [] |} sample.fields0)) _ eq_refl)).
  vm_compute. in_list.
Defined.

(** C5.  A run of the session action that reaches [trap->run()] has passed
    every precondition; it either waits for ever, when nothing arrives, or
    it ends with the arrival's handler, [rt->stop()] after the trap's loop
    has returned, and [EXIT_SUCCESS].  On a host where the start-up
    succeeds and a trapped signal arrives the run is of the second kind.  A
    run with a required device missing never reaches the wait and ends in
    failure. *)
Theorem signal_stops_runtime_and_action_succeeds
    (w : World) (ctxt : Context) (st : Fields Members) :
  let r := session_action w ctxt st in
  (trap_run ∈ trace_of r →
     (fs_exists w "/dev/binder" = true ∧ fs_exists w "/dev/ashmem" = true)
     ∧ ((pending w = [] ∧ outcome_of r = Block)
        ∨ (∃ ev rest tr,
             pending w = ev :: rest
             ∧ trace_of r = tr ++ [trap_run] ++ shutdown_events ev ++ [rt_stop]
             ∧ (trap_run ∉ tr) ∧ (rt_stop ∉ tr)
             ∧ outcome_of r = Ret EXIT_SUCCESS)))
  ∧ (∀ signal rest,
       pending w = SignalRaised signal :: rest →
       fs_exists w "/dev/binder" = true → fs_exists w "/dev/ashmem" = true →
       (∀ c, raises w c = None) →
       outcome_of r = Ret EXIT_SUCCESS
       ∧ ∃ tr, trace_of r
               = tr ++ [ trap_run; signal_delivered signal;
                         log_message Info
                           ("Signal " +:+ pretty (signal_number signal)
                              +:+ " received. Good night.");
                         trap_stop; rt_stop ]
               ∧ (trap_run ∉ tr) ∧ (rt_stop ∉ tr))
  ∧ (fs_exists w "/dev/binder" = false ∨ fs_exists w "/dev/ashmem" = false →
       failed (outcome_of r) ∧ (trap_run ∉ trace_of r)).
Proof.
  intros r.
  pose proof (session_action_cases w ctxt st) as Hcases. cbv zeta in Hcases. fold r in Hcases.
  set (cs := startup_calls w (gles_driver_ (members (after_nvidia_check w st)))) in *.
  assert (Hearly : ∀ e, e ≠ missing_device_message → (∀ c, e ≠ called c) →
                        (∀ path, e ≠ fs_exists_query path) →
            Forall (fun e => e ∈ [ called (trap_signals_for_process [sig_term; sig_int]);
                                   called signal_raised_connect;
                                   fs_exists_query "/dev/binder"; fs_exists_query "/dev/ashmem";
                                   missing_device_message ]) (trace_of r) →
            e ∉ trace_of r).
  { intros e He Hc Hq Hall Hin. rewrite Forall_forall in Hall. apply Hall in Hin.
    repeat (apply elem_of_cons in Hin as [Hin | Hin];
            [first [by destruct (Hc _ Hin) | by destruct (Hq _ Hin) | by destruct He] | ]).
    by apply elem_of_nil in Hin. }
  assert (Hshape : ∀ ev rest,
            pending w = ev :: rest →
            trace_of r = checks_trace w ++ map called cs
                           ++ [called rt_start; start_container (session_configuration w); trap_run]
                           ++ shutdown_events ev ++ [rt_stop] →
            ∃ tr, trace_of r = tr ++ [trap_run] ++ shutdown_events ev ++ [rt_stop]
                  ∧ (trap_run ∉ tr) ∧ (rt_stop ∉ tr)).
  { intros ev rest _ Htr.
    exists (checks_trace w ++ map called (cs ++ [rt_start])
              ++ [start_container (session_configuration w)]).
    split; [rewrite Htr, fmap_app, <- !app_assoc; reflexivity|].
    split; rewrite app_assoc; intros Hin; apply elem_of_app in Hin as [Hin | Hin];
      try (by apply list_elem_of_singleton in Hin);
      by apply not_in_startup_trace in Hin. }
  split; [|split].
  - intros Hin.
    destruct Hcases as [(_ & _ & _ & Hall) | ((Hb & Ha & _) & _ & [(n & c & x & _ & _ & Htr & _)
                                      | [(Hp & _ & Ho) | (ev & rest & Hp & Htr & Ho)]])].
    + by destruct (Hearly trap_run ltac:(done) ltac:(done) ltac:(done) Hall).
    + rewrite Htr in Hin. by apply not_in_startup_trace in Hin.
    + split; [done|]. by left.
    + split; [done|]. right. destruct (Hshape ev rest Hp Htr) as (tr & ? & ? & ?).
      by exists ev, rest, tr.
  - intros signal rest Hp Hb Ha Hquiet.
    destruct Hcases as [(Hmiss & _) | (_ & _ & [(n & c & x & _ & Hx & _)
                                      | [(Hp' & _) | (ev & rest' & Hp' & Htr & Ho)]])].
    + rewrite !Hquiet in Hmiss. destruct Hmiss as [? | [? | [? | ?]]]; congruence.
    + rewrite Hquiet in Hx. discriminate.
    + rewrite Hp in Hp'. discriminate.
    + split; [exact Ho|]. rewrite Hp in Hp'. injection Hp' as <- <-.
      destruct (Hshape _ _ Hp Htr) as (tr & ? & ? & ?). by exists tr.
  - intros Hmissing.
    destruct Hcases as [(_ & _ & Hfailed & Hall) | ((Hb & Ha & _) & _)].
    + split; [exact Hfailed|]. by apply Hearly.
    + destruct Hmissing; congruence.
Qed.

Lemma signal_stops_runtime_and_action_succeeds_witness :
  outcome_of (session_action (sample.host ["/dev/binder"; "/dev/ashmem"] [SignalRaised sig_int])
                {| args := [] |} sample.fields0)
  = Ret EXIT_SUCCESS.
Proof.
  exact (proj1 (proj1 (proj2 (signal_stops_runtime_and_action_succeeds
                   (sample.host ["/dev/binder"; "/dev/ashmem"] [SignalRaised sig_int])
                   {| args := [] |} sample.fields0))
                 sig_int [] eq_refl eq_refl eq_refl (fun _ => eq_refl))).
Defined.

(** C6.  The session action registers a terminate handler with the
    container client at most once.  The handler it registers logs a warning
    and stops the trap: whatever the trap, [trap->run()] returns on the loss
    of the container connection.  In a run in which the handler is invoked
    it was registered exactly once, and the run goes on to [rt->stop()] and
    returns [EXIT_SUCCESS], and the handler is invoked that one time only;
    on a host where the start-up succeeds and the connection is lost first,
    the handler is invoked. *)
Theorem connection_loss_handler_stops_session
    (w : World) (ctxt : Context) (st : Fields Members) :
  let r := session_action w ctxt st in
  (terminate_handlers_registered (trace_of r) ≤ 1)%nat
  ∧ terminate_handler session_container
    = Some [ op_log Warning "Lost connection to container manager, terminating.";
             op_trap_stop ]
  ∧ (∀ (trap : SignalTrap) (arriving : list AsyncEvent) (s : Fields Members),
       wait_for_stop trap session_container (ConnectionLost :: arriving) s
       = ([ terminate_handler_invoked;
            log_message Warning "Lost connection to container manager, terminating.";
            trap_stop ], s, Ret tt))
  ∧ (terminate_handler_invoked ∈ trace_of r →
       terminate_handlers_registered (trace_of r) = 1%nat
       ∧ outcome_of r = Ret EXIT_SUCCESS
       ∧ ∃ tr, trace_of r
               = tr ++ [ trap_run; terminate_handler_invoked;
                         log_message Warning
                           "Lost connection to container manager, terminating.";
                         trap_stop; rt_stop ]
               ∧ called register_terminate_handler ∈ tr
               ∧ (terminate_handler_invoked ∉ tr))
  ∧ (∀ rest,
       pending w = ConnectionLost :: rest →
       fs_exists w "/dev/binder" = true → fs_exists w "/dev/ashmem" = true →
       (∀ c, raises w c = None) →
       terminate_handler_invoked ∈ trace_of r).
Proof.
  intros r.
  pose proof (session_action_cases w ctxt st) as Hcases. cbv zeta in Hcases. fold r in Hcases.
  set (cs := startup_calls w (gles_driver_ (members (after_nvidia_check w st)))) in *.
  assert (Hcs : terminate_handlers_registered (map called (cs ++ [rt_start])) = 1%nat)
    by reflexivity.
  assert (Hcs' : terminate_handlers_registered (map called cs) = 1%nat) by reflexivity.
  assert (Hearly : ∀ tr,
            Forall (fun e => e ∈ [ called (trap_signals_for_process [sig_term; sig_int]);
                                   called signal_raised_connect;
                                   fs_exists_query "/dev/binder"; fs_exists_query "/dev/ashmem";
                                   missing_device_message ]) tr →
            terminate_handlers_registered tr = 0%nat ∧ terminate_handler_invoked ∉ tr).
  { induction 1 as [|e tr He _ [IH1 IH2]]; [split; [reflexivity | by intros ?%elem_of_nil]|].
    unfold missing_device_message in He.
    split.
    - repeat (apply elem_of_cons in He as [-> | He]; [exact IH1|]). by apply elem_of_nil in He.
    - intros [Heq | Hin]%elem_of_cons; [subst e|by destruct IH2].
      revert He. not_in_list. }
  split; [|split; [reflexivity|split; [reflexivity|split]]].
  - destruct Hcases as [(_ & _ & _ & Hall) | (_ & _ & [(n & c & x & _ & _ & -> & _)
                                      | [(_ & -> & _) | (ev & rest & _ & -> & _)]])].
    + apply Hearly in Hall as [-> _]. lia.
    + rewrite terminate_handlers_registered_app, terminate_handlers_registered_checks.
      fold (fmap (M := list) called). rewrite fmap_take.
      pose proof (terminate_handlers_registered_take (S n) (called <$> cs ++ [rt_start])).
      change (map called (cs ++ [rt_start])) with (called <$> cs ++ [rt_start]) in Hcs. lia.
    + rewrite !terminate_handlers_registered_app, terminate_handlers_registered_checks, Hcs'.
      cbn. lia.
    + rewrite !terminate_handlers_registered_app, terminate_handlers_registered_checks, Hcs'.
      destruct ev; cbn; lia.
  - intros Hin.
    destruct Hcases as [(_ & _ & _ & Hall) | (_ & _ & [(n & c & x & _ & _ & Htr & _)
                                      | [(_ & Htr & _) | (ev & rest & _ & Htr & Ho)]])].
    + apply Hearly in Hall as [_ Hno]. by destruct Hno.
    + rewrite Htr in Hin. by apply not_in_startup_trace in Hin.
    + rewrite Htr, app_assoc in Hin. apply elem_of_app in Hin as [Hin | Hin];
        [by apply not_in_startup_trace in Hin | revert Hin; not_in_list].
    + rewrite Htr, app_assoc in Hin. apply elem_of_app in Hin as [Hin | Hin];
        [by apply not_in_startup_trace in Hin|].
      destruct ev as [signal|]; [revert Hin; cbn; not_in_list|].
      split; [|split; [exact Ho|]].
      * rewrite Htr, !terminate_handlers_registered_app,
          terminate_handlers_registered_checks, Hcs'. reflexivity.
      * exists (checks_trace w ++ map called cs
                  ++ [called rt_start; start_container (session_configuration w)]).
        split; [rewrite Htr, <- !app_assoc; reflexivity|]. split.
        -- apply elem_of_app. right. apply elem_of_app. left.
           apply list_elem_of_fmap_2. unfold cs, startup_calls. in_list.
        -- rewrite app_assoc. intros Hin'. apply elem_of_app in Hin' as [Hin' | Hin'];
             [by apply not_in_startup_trace in Hin' | revert Hin'; not_in_list].
  - intros rest Hp Hb Ha Hquiet.
    destruct Hcases as [(Hmiss & _) | (_ & _ & [(n & c & x & _ & Hx & _)
                                      | [(Hp' & _) | (ev & rest' & Hp' & Htr & Ho)]])].
    + rewrite !Hquiet in Hmiss. destruct Hmiss as [? | [? | [? | ?]]]; congruence.
    + rewrite Hquiet in Hx. discriminate.
    + rewrite Hp in Hp'. discriminate.
    + rewrite Hp in Hp'. injection Hp' as <- <-. rewrite Htr.
      do 3 (apply elem_of_app; right). apply elem_of_app. left. cbn. in_list.
Qed.

Lemma connection_loss_handler_stops_session_witness :
  terminate_handler_invoked
  ∈ trace_of (session_action (sample.host ["/dev/binder"; "/dev/ashmem"] [ConnectionLost])
                {| args := [] |} sample.fields0).
Proof.
  exact (proj2 (proj2 (proj2 (proj2 (connection_loss_handler_stops_session
                   (sample.host ["/dev/binder"; "/dev/ashmem"] [ConnectionLost])
                   {| args := [] |} sample.fields0))))
               [] eq_refl eq_refl eq_refl (fun _ => eq_refl)).
Defined.
End session_claims.

(** ** The flags of the session command *)

Section session_flags.
Import cli cmds.
Context `{!StreamExtract Driver}.
Variable w : World.
Variables p_hint p_gles : Ptr.
Variable initial_driver : Driver.
Hypothesis distinct : p_hint ≠ p_gles.

Lemma SessionManager_eq :
  SessionManager w p_hint p_gles initial_driver
  = inr (session_command w p_hint p_gles initial_driver).
Proof. reflexivity. Qed.

Lemma session_flags_eq :
  flags_ (fields (session_command w p_hint p_gles initial_driver))
  = if decide (p_gles < p_hint)%N
    then [(p_gles, gles_flag); (p_hint, hint_flag)]
    else [(p_hint, hint_flag); (p_gles, gles_flag)].
Proof.
  cbn. destruct (decide (p_gles < p_hint)%N); [reflexivity|].
  destruct (decide (p_gles = p_hint)); [by destruct distinct|reflexivity].
Qed.

Local Abbreviation session_flags := (flags_ (fields (session_command w p_hint p_gles initial_driver))).

Lemma find_option_session (key : string) :
  find_option (options_of session_flags) key =
  if bool_decide ("help" = key)
  then Some {| long_name := "help"; semantic := bool_switch;
               description := "produces a help message" |}
  else if bool_decide ("desktop_file_hint" = key)
  then Some {| long_name := "desktop_file_hint"; semantic := typed_value p_hint;
               description := "Desktop file hint for QtMir/Unity8" |}
  else if bool_decide ("gles-driver" = key)
  then Some {| long_name := "gles-driver"; semantic := typed_value p_gles;
               description :=
                 "Which GLES driver to use. Possible values are 'host' or'translator'" |}
  else None.
Proof.
  rewrite session_flags_eq. unfold options_of, add_to_desc_for_flags.
  destruct (decide (p_gles < p_hint)%N);
    cbv [hint_flag gles_flag make_reference_flag Flag.with_value Flag.notify_ Flag.name
         Flag.name_ Flag.description Flag.description_ as_string long_name app map
         find_option];
    repeat case_bool_decide; subst; try reflexivity; try discriminate.
Qed.

Lemma find_flag_hint : find_flag session_flags p_hint = Some hint_flag.
Proof.
  rewrite session_flags_eq.
  destruct (decide (p_gles < p_hint)%N); cbn [find_flag];
    repeat case_decide; try reflexivity; congruence.
Qed.

Lemma find_flag_gles : find_flag session_flags p_gles = Some gles_flag.
Proof.
  rewrite session_flags_eq.
  destruct (decide (p_gles < p_hint)%N); cbn [find_flag];
    repeat case_decide; try reflexivity; congruence.
Qed.

Lemma notify_session_flags (m : list (string * variable_value)) :
  ∀ (help_requested : bool) (this : Members) (help' : bool) (this' : Members),
    flags_applied m help_requested this = inr (help', this') →
    notify (options_of session_flags) m help_requested (MkFields session_flags this)
    = ([], MkFields session_flags this', Ret help').
Proof.
  induction m as [|[key v] m IH]; intros h this h' this' Happ.
  - cbn in Happ. injection Happ as <- <-. reflexivity.
  - cbn [notify flags_applied] in Happ |- *. rewrite find_option_session.
    repeat case_bool_decide.
    + destruct v; by apply IH.
    + destruct v as [b|s|]; try by apply IH.
      destruct (stream_extract s (desktop_file_hint_ this)) as [e|hint] eqn:He;
        [discriminate Happ|]. cbn in Happ.
      unfold mbind, M_bind, bind, notifier. cbn [flags_ members].
      rewrite find_flag_hint. cbn [hint_flag make_reference_flag Flag.notify_].
      rewrite He. rewrite (IH _ _ _ _ Happ). reflexivity.
    + destruct v as [b|s|]; try by apply IH.
      destruct (stream_extract s (gles_driver_ this)) as [e|driver] eqn:He;
        [discriminate Happ|]. cbn in Happ.
      unfold mbind, M_bind, bind, notifier. cbn [flags_ members].
      rewrite find_flag_gles. cbn [gles_flag make_reference_flag Flag.notify_].
      rewrite He. rewrite (IH _ _ _ _ Happ). reflexivity.
    + by apply IH.
Qed.
End session_flags.

Section session_flag_claims.
Import cli cmds.

(** C8.  The constructor of the session command does not throw and
    registers exactly two flags, [desktop_file_hint] and [gles-driver], both
    taking a value.  When [run] gets to the action (the command line parses
    and [--help] is not given), the values stored for the two flags have
    been extracted into [desktop_file_hint_] and [gles_driver_] by then: the
    action, whose first step registers the signal trap, starts on the
    members the flags produce. *)
Theorem session_flags_registered_and_applied_before_action
    (command_line_parser : list option_description -> list string -> exception + parsed_options)
    (extract_driver : StreamExtract Driver)
    (w : World) (p_hint p_gles : Ptr) (initial_driver : Driver) (ctxt : Context) :
  p_hint ≠ p_gles →
  ∃ c, SessionManager w p_hint p_gles initial_driver = inr c
       ∧ action_ c = Some (session_action w)
       ∧ members (fields c) = MkMembers EmptyString initial_driver
       ∧ map (fun pf => (pf.1, as_string (Flag.name pf.2), Flag.with_value pf.2))
             (flags_ (fields c))
         ≡ₚ [ (p_hint, "desktop_file_hint", true); (p_gles, "gles-driver", true) ]
       ∧ ∀ parsed this',
           command_line_parser (options_of (flags_ (fields c))) (args ctxt) = inr parsed →
           flags_applied (vm parsed) false (members (fields c)) = inr (false, this') →
           run command_line_parser c ctxt (fields c)
           = try_catch (session_action w {| args := unrecognized parsed |})
               is_po_error (on_po_error c)
               (MkFields (mark_set_flags (vm parsed) (flags_ (fields c))) this').
Proof.
  intros Hne. exists (session_command w p_hint p_gles initial_driver).
  split; [reflexivity|]. split; [reflexivity|]. split; [reflexivity|]. split.
  - rewrite (session_flags_eq w p_hint p_gles initial_driver Hne).
    destruct (decide (p_gles < p_hint)%N); cbn; [apply Permutation_swap | reflexivity].
  - intros parsed this' Hparsed Happlied.
    unfold run, try_catch, parse_store_notify.
    rewrite bind_assoc_eq, bind_get_eq. cbv zeta.
    rewrite bind_assoc_eq. unfold mbind at 1, M_bind at 1, bind at 1.
    rewrite Hparsed. unfold lift, mret at 1, M_ret at 1, ret at 1.
    rewrite prepend_nil, bind_assoc_eq.
    unfold mbind at 1, M_bind at 1, bind at 1.
    pose proof (notify_session_flags w p_hint p_gles initial_driver Hne _ _ _ _ _ Happlied)
      as Hnotify.
    change (MkFields (flags_ (fields (session_command w p_hint p_gles initial_driver)))
              (members (fields (session_command w p_hint p_gles initial_driver))))
      with (fields (session_command w p_hint p_gles initial_driver)) in Hnotify.
    rewrite Hnotify.
    rewrite prepend_nil, bind_ret_eq, bind_modify_eq.
    reflexivity.
Qed.

Lemma session_flags_registered_and_applied_before_action_witness :
  ∃ c, @SessionManager (sample.host [] []) sample.driver_extract 10%N 20%N Translator = inr c
       ∧ action_ c = Some (session_action (sample.host [] []))
       ∧ run sample.long_options c
           {| args := ["--gles-driver=host"; "--desktop_file_hint=anbox.desktop"; "extra"] |}
           (fields c)
         = try_catch (session_action (sample.host [] []) {| args := ["extra"] |})
             is_po_error (on_po_error c)
             (MkFields
                (mark_set_flags
                   [("gles-driver", vv_string "host");
                    ("desktop_file_hint", vv_string "anbox.desktop")]
                   (flags_ (fields c)))
                (MkMembers "anbox.desktop" Host)).
Proof.
  destruct (session_flags_registered_and_applied_before_action
              sample.long_options sample.driver_extract (sample.host [] [])
              10%N 20%N Translator
              {| args := ["--gles-driver=host"; "--desktop_file_hint=anbox.desktop"; "extra"] |}
              ltac:(discriminate))
    as (c & Hc & Haction & Hmembers & Hflags & Hrun).
  exists c. split; [exact Hc|]. split; [exact Haction|].
  injection Hc as <-.
  exact (Hrun {| vm := [("gles-driver", vv_string "host");
                        ("desktop_file_hint", vv_string "anbox.desktop")];
                 unrecognized := ["extra"] |}
              (MkMembers "anbox.desktop" Host) eq_refl eq_refl).
Defined.
End session_flag_claims.

(** ** More of the command line layer *)

Section cli_more_facts.
Import cli cli_more.

Lemma args_from_some (argv : list string) (count i : nat) :
  (i + count ≤ length argv)%nat →
  args_from argv i count = Some (take count (drop i argv)).
Proof.
  revert i. induction count as [|count IH]; intros i Hle; [reflexivity|].
  cbn [args_from].
  destruct (lookup_lt_is_Some_2 argv i ltac:(lia)) as [x Hx].
  rewrite Hx. cbn. rewrite IH by lia. cbn.
  rewrite (drop_S _ _ _ Hx). reflexivity.
Qed.

Lemma args_from_none (argv : list string) (count i : nat) :
  (length argv < i + count)%nat → (0 < count)%nat →
  args_from argv i count = None.
Proof.
  revert i. induction count as [|count IH]; intros i Hlt Hpos; [lia|].
  cbn [args_from]. destruct (argv !! i) as [x|] eqn:Hx; [|reflexivity].
  cbn. apply lookup_lt_Some in Hx.
  rewrite IH; [reflexivity | lia | lia].
Qed.

(** X1.  [cli::args] returns the arguments after the program name: when
    [argc] does not exceed the length of [argv], the strings [argv[1]], ...,
    [argv[argc - 1]] in their order; nothing at all when [argc] is at most 1
    (a negative [argc] included); and it reads past the end of [argv] when
    [argc] is larger than the length of [argv]. *)
Theorem args_drops_program_name (argc : Z) (argv : list string) :
  (argc ≤ Z.of_nat (length argv) →
     args argc argv = Some (drop 1 (take (Z.to_nat argc) argv)))
  ∧ (argc ≤ 1 → args argc argv = Some [])
  ∧ (Z.of_nat (length argv) < argc → 1 < argc → args argc argv = None).
Proof.
  unfold args. split; [|split].
  - intros Hle. destruct (decide (argc ≤ 1)) as [Hsmall|Hbig].
    + replace (Z.to_nat (argc - 1)) with 0%nat by lia. cbn.
      rewrite drop_ge; [reflexivity|]. rewrite length_take. lia.
    + rewrite args_from_some by lia.
      rewrite take_drop_commute.
      by replace (1 + Z.to_nat (argc - 1))%nat with (Z.to_nat argc) by lia.
  - intros Hsmall. by replace (Z.to_nat (argc - 1)) with 0%nat by lia.
  - intros Hlt Hbig. apply args_from_none; lia.
Qed.

Lemma args_drops_program_name_witness :
  args 3 ["anbox"; "run"; "--gles-driver=host"] = Some ["run"; "--gles-driver=host"].
Proof.
  exact (proj1 (args_drops_program_name 3 ["anbox"; "run"; "--gles-driver=host"])
               ltac:(vm_compute; discriminate)).
Defined.

Lemma string_length_app (s1 s2 : string) :
  String.length (s1 +:+ s2) = (String.length s1 + String.length s2)%nat.
Proof. induction s1 as [|c s1 IH]; simpl; [reflexivity | by rewrite IH]. Qed.

Lemma compare_refl (s : string) : String.compare s s = Eq.
Proof.
  induction s as [|c s IH]; [reflexivity|]. cbn.
  unfold Ascii.compare. by rewrite N.compare_refl.
Qed.

Lemma length_blanks (n : nat) :
  String.length (string_of_list_ascii (replicate n " "%char)) = n.
Proof. induction n as [|n IH]; cbn; by rewrite ?IH. Qed.

(** X2.  [operator<<] writes a constrained string in exactly [max]
    columns when the string was accepted by the constructor: the string
    itself, then blanks up to the width. *)
Theorem constrained_string_prints_in_max_columns (max : nat) (s : string)
    (x : SizeConstrainedString max) :
  make_SizeConstrainedString max s = inr x →
  String.length (scs_print x) = max
  ∧ scs_print x
    = s +:+ string_of_list_ascii (replicate (max - String.length s) " "%char).
Proof.
  unfold make_SizeConstrainedString. intros H.
  destruct (decide (max < String.length s)%nat) as [|Hle]; [discriminate|].
  injection H as <-. unfold scs_print. cbn [as_string].
  split; [|reflexivity]. rewrite string_length_app, length_blanks. lia.
Qed.

Lemma constrained_string_prints_in_max_columns_witness :
  String.length (scs_print (MkSizeConstrainedString (max := 20) "gles-driver")) = 20%nat.
Proof.
  exact (proj1 (constrained_string_prints_in_max_columns 20 "gles-driver"
                  (MkSizeConstrainedString "gles-driver") eq_refl)).
Defined.

Lemma compare_lt_trans (s1 s2 s3 : string) :
  String.compare s1 s2 = Lt → String.compare s2 s3 = Lt → String.compare s1 s3 = Lt.
Proof.
  revert s2 s3. induction s1 as [|c1 s1 IH]; intros [|c2 s2] [|c3 s3]; cbn;
    try discriminate; try reflexivity.
  destruct (Ascii.compare c1 c2) eqn:H12; try discriminate.
  - apply Ascii.compare_eq_iff in H12 as ->.
    destruct (Ascii.compare c2 c3); try discriminate; eauto.
  - intros _. destruct (Ascii.compare c2 c3) eqn:H23; try discriminate.
    + apply Ascii.compare_eq_iff in H23 as <-. by rewrite H12.
    + intros _. unfold Ascii.compare in *.
      rewrite N.compare_lt_iff in H12, H23.
      assert (Hlt : (N_of_ascii c1 < N_of_ascii c3)%N) by lia.
      apply N.compare_lt_iff in Hlt. by rewrite Hlt.
Qed.

(** X3.  [operator==] holds for equal constrained strings only, and
    [operator<] is a strict total order on them: of two strings one is
    below the other or they are equal, a string below another is neither
    equal to it nor above it, and the order is transitive. *)
Theorem constrained_string_order (max : nat) (a b c : SizeConstrainedString max) :
  (scs_eqb a b = true ↔ a = b)
  ∧ (scs_ltb a b = true ∨ scs_eqb a b = true ∨ scs_ltb b a = true)
  ∧ (scs_ltb a b = true → scs_eqb a b = false ∧ scs_ltb b a = false)
  ∧ (scs_ltb a b = true → scs_ltb b c = true → scs_ltb a c = true).
Proof.
  destruct a as [a], b as [b], c as [c]. unfold scs_eqb, scs_ltb, String.ltb. cbn [as_string].
  split; [|split; [|split]].
  - rewrite bool_decide_eq_true. split; [by intros -> | by intros [= ->]].
  - destruct (String.compare a b) eqn:Hab.
    + right. left. apply String.compare_eq_iff in Hab. by apply bool_decide_eq_true.
    + by left.
    + right. right. rewrite String.compare_antisym, Hab. reflexivity.
  - destruct (String.compare a b) eqn:Hab; try discriminate. intros _. split.
    + apply bool_decide_eq_false. intros ->.
      rewrite compare_refl in Hab. discriminate.
    + rewrite String.compare_antisym, Hab. reflexivity.
  - destruct (String.compare a b) eqn:Hab; try discriminate.
    destruct (String.compare b c) eqn:Hbc; try discriminate.
    by rewrite (compare_lt_trans _ _ _ Hab Hbc).
Qed.

Lemma skip_whitespace_all (s : string) :
  all_whitespace s = true → skip_whitespace s = EmptyString.
Proof.
  induction s as [|c s IH]; [done|]. cbn. destruct (isspace c); [exact IH | discriminate].
Qed.

Lemma skip_whitespace_some (s : string) :
  all_whitespace s = false →
  ∃ c r, skip_whitespace s = String c r ∧ isspace c = false.
Proof.
  induction s as [|c s IH]; [discriminate|]. cbn.
  destruct (isspace c) eqn:Hc; [exact IH|]. intros _. by exists c, s.
Qed.

Lemma first_word_no_whitespace (s : string) : no_whitespace (first_word s) = true.
Proof.
  induction s as [|c s IH]; [done|]. cbn.
  destruct (isspace c) eqn:Hc; [done|]. cbn. by rewrite Hc.
Qed.

Lemma first_word_id (s : string) : no_whitespace s = true → first_word s = s.
Proof.
  induction s as [|c s IH]; [done|]. cbn.
  destruct (isspace c); [discriminate|]. cbn. intros H. by rewrite IH.
Qed.

Lemma skip_whitespace_id (s : string) : no_whitespace s = true → skip_whitespace s = s.
Proof. destruct s as [|c s]; [done|]. cbn. by destruct (isspace c). Qed.

Lemma string_app_cons (c : ascii) (s t : string) :
  String c s +:+ t = String c (s +:+ t).
Proof. reflexivity. Qed.

Lemma string_app_empty (t : string) : EmptyString +:+ t = t.
Proof. reflexivity. Qed.

Lemma skip_whitespace_app (ws t : string) :
  all_whitespace ws = true → skip_whitespace (ws +:+ t) = skip_whitespace t.
Proof.
  induction ws as [|c ws IH]; [done|].
  rewrite string_app_cons. cbn [skip_whitespace all_whitespace].
  destruct (isspace c); [exact IH | discriminate].
Qed.

Lemma first_word_app (word rest : string) :
  no_whitespace word = true →
  rest = EmptyString ∨ (∃ c r, rest = String c r ∧ isspace c = true) →
  first_word (word +:+ rest) = word.
Proof.
  intros Hword Hrest. induction word as [|c word IH].
  - rewrite string_app_empty. destruct Hrest as [-> | (c & r & -> & Hc)]; [done|].
    cbn [first_word]. by rewrite Hc.
  - rewrite string_app_cons. cbn [first_word no_whitespace] in Hword |- *.
    destruct (isspace c); [discriminate|]. by rewrite IH.
Qed.

Lemma string_extract_word (ws word rest old : string) :
  all_whitespace ws = true → no_whitespace word = true → word ≠ EmptyString →
  rest = EmptyString ∨ (∃ c r, rest = String c r ∧ isspace c = true) →
  stream_extract (ws +:+ word +:+ rest) old = inr word.
Proof.
  intros Hws Hword Hne Hrest. unfold stream_extract, string_extract.
  rewrite skip_whitespace_app by done.
  destruct word as [|c word]; [done|].
  rewrite string_app_cons. cbn [skip_whitespace]. cbn [no_whitespace] in Hword.
  destruct (isspace c) eqn:Hc; [discriminate|].
  rewrite <- string_app_cons.
  rewrite first_word_app; [done | by cbn [no_whitespace]; rewrite Hc | done].
Qed.

(** Every text is white space, a word without white space, and a rest that
    is empty or starts with white space. *)
Lemma string_split_word (s : string) :
  ∃ ws word rest,
    s = ws +:+ word +:+ rest ∧ all_whitespace ws = true ∧ no_whitespace word = true
    ∧ (rest = EmptyString ∨ (∃ c r, rest = String c r ∧ isspace c = true))
    ∧ (all_whitespace s = false → word ≠ EmptyString).
Proof.
  assert (Hword : ∀ t, ∃ word rest,
             t = word +:+ rest ∧ no_whitespace word = true
             ∧ (rest = EmptyString ∨ (∃ c r, rest = String c r ∧ isspace c = true))
             ∧ (∀ c r, t = String c r → isspace c = false → word ≠ EmptyString)).
  { induction t as [|c t (word & rest & Ht & Hw & Hr & _)].
    - exists EmptyString, EmptyString. repeat split; [by left | done].
    - destruct (isspace c) eqn:Hc.
      + exists EmptyString, (String c t). repeat split; [right; by exists c, t|].
        intros c' r [= <- <-]. congruence.
      + exists (String c word), rest. split; [by rewrite Ht|].
        split; [by cbn [no_whitespace]; rewrite Hc|].
        split; [exact Hr | done]. }
  induction s as [|c s (ws & word & rest & Hs & Hws & Hw & Hr & Hne)].
  - exists EmptyString, EmptyString, EmptyString. repeat split; [by left | done].
  - destruct (isspace c) eqn:Hc.
    + exists (String c ws), word, rest. split; [by rewrite Hs|].
      split; [by cbn [all_whitespace]; rewrite Hc|].
      split; [exact Hw|]. split; [exact Hr|]. cbn [all_whitespace]. by rewrite Hc.
    + destruct (Hword (String c s)) as (word' & rest' & Ht & Hw' & Hr' & Hne').
      exists EmptyString, word', rest'. split; [exact Ht|]. split; [done|].
      split; [exact Hw'|]. split; [exact Hr'|]. intros _. by apply (Hne' c s).
Qed.

(** X4.  A reference flag for a [std::string] reads one word: [notify]
    stores the first white-space-free word of the given text, that is, for
    a text made of white space, a non-empty word without white space and a
    rest that is empty or starts with white space, that word; every text
    that is not white space only is of this form.  The word is the whole
    text when that holds no white space and is not empty; on a text of white
    space only (the empty text included) the extraction fails and the
    referenced string keeps its value. *)
Theorem reference_string_flag_reads_first_word {S : Type}
    (name : Name) (desc : Description) (proj : S -> string) (update : string -> S -> S)
    (s : string) (st : S) :
  ∃ notify,
    Flag.notify_ (make_reference_flag name desc proj update) = Some notify
    ∧ (all_whitespace s = true → notify s st = inr (update (proj st) st))
    ∧ (all_whitespace s = false →
         ∃ word, notify s st = inr (update word st)
                 ∧ word ≠ EmptyString ∧ no_whitespace word = true)
    ∧ (s ≠ EmptyString → no_whitespace s = true → notify s st = inr (update s st))
    ∧ (∀ ws word rest,
         all_whitespace ws = true → no_whitespace word = true → word ≠ EmptyString →
         rest = EmptyString ∨ (∃ c r, rest = String c r ∧ isspace c = true) →
         notify (ws +:+ word +:+ rest) st = inr (update word st))
    ∧ (all_whitespace s = false →
         ∃ ws word rest,
           s = ws +:+ word +:+ rest
           ∧ all_whitespace ws = true ∧ no_whitespace word = true ∧ word ≠ EmptyString
           ∧ (rest = EmptyString ∨ (∃ c r, rest = String c r ∧ isspace c = true))
           ∧ notify s st = inr (update word st)).
Proof.
  eexists. split; [reflexivity|]. cbn beta.
  assert (Hword : ∀ ws word rest,
            all_whitespace ws = true → no_whitespace word = true → word ≠ EmptyString →
            rest = EmptyString ∨ (∃ c r, rest = String c r ∧ isspace c = true) →
            match stream_extract (ws +:+ word +:+ rest) (proj st) with
            | inl e => inl e
            | inr v => inr (update v st)
            end = inr (update word st)).
  { intros ws word rest Hws Hw Hne Hrest. by rewrite string_extract_word. }
  assert (Hsplit : all_whitespace s = false →
            ∃ ws word rest,
              s = ws +:+ word +:+ rest
              ∧ all_whitespace ws = true ∧ no_whitespace word = true ∧ word ≠ EmptyString
              ∧ (rest = EmptyString ∨ (∃ c r, rest = String c r ∧ isspace c = true))
              ∧ match stream_extract s (proj st) with
                | inl e => inl e
                | inr v => inr (update v st)
                end = inr (update word st)).
  { intros Hs. destruct (string_split_word s) as (ws & word & rest & -> & Hws & Hw & Hr & Hne).
    exists ws, word, rest. repeat split; try done; [by apply Hne | by apply Hword; [| |apply Hne|]]. }
  unfold stream_extract, string_extract in *.
  split; [|split; [|split; [|split; [exact Hword | exact Hsplit]]]].
  - intros H. by rewrite skip_whitespace_all.
  - intros H. destruct (skip_whitespace_some s H) as (c & r & -> & Hc).
    exists (first_word (String c r)). split; [reflexivity|]. split.
    + cbn. by rewrite Hc.
    + apply first_word_no_whitespace.
  - intros Hne H. rewrite skip_whitespace_id by done.
    destruct s as [|c r]; [done|]. by rewrite first_word_id.
Qed.

Lemma reference_string_flag_reads_first_word_witness :
  ∃ notify,
    Flag.notify_ cmds.hint_flag = Some notify
    ∧ notify "  " (cmds.MkMembers "anbox.desktop" Translator)
      = inr (cmds.MkMembers "anbox.desktop" Translator)
    ∧ notify " unity8.desktop --mode=full" (cmds.MkMembers "anbox.desktop" Translator)
      = inr (cmds.MkMembers "unity8.desktop" Translator).
Proof.
  destruct (reference_string_flag_reads_first_word
              (MkSizeConstrainedString "desktop_file_hint")
              (MkSizeConstrainedString "Desktop file hint for QtMir/Unity8")
              cmds.desktop_file_hint_ cmds.set_desktop_file_hint
              "  " (cmds.MkMembers "anbox.desktop" Translator))
    as (notify & Hnotify & Hblank & _ & _ & Hword & _).
  exists notify. split; [exact Hnotify|]. split; [exact (Hblank eq_refl)|].
  refine (Hword " " "unity8.desktop" " --mode=full" eq_refl eq_refl _ _); [discriminate|].
  right. by exists " "%char, "--mode=full".
Defined.

(** X5.  A flag over an [Optional<std::string>] always assigns: [notify]
    stores the word read into a default-constructed string, which for a text
    made of white space, a non-empty word without white space and a rest
    that is empty or starts with white space is that word, so that a text of
    white space only engages the optional with the empty string, where a
    reference flag would keep the old value. *)
Theorem optional_string_flag_always_assigns {S : Type}
    (name : Name) (desc : Description)
    (update : option string -> S -> S)
    (s : string) (st : S) :
  ∃ notify,
    Flag.notify_ (make_optional_flag name desc update) = Some notify
    ∧ (all_whitespace s = true → notify s st = inr (update (Some EmptyString) st))
    ∧ (∃ word, notify s st = inr (update (Some word) st) ∧ no_whitespace word = true)
    ∧ (no_whitespace s = true → notify s st = inr (update (Some s) st))
    ∧ (∀ ws word rest,
         all_whitespace ws = true → no_whitespace word = true → word ≠ EmptyString →
         rest = EmptyString ∨ (∃ c r, rest = String c r ∧ isspace c = true) →
         notify (ws +:+ word +:+ rest) st = inr (update (Some word) st))
    ∧ (all_whitespace s = false →
         ∃ ws word rest,
           s = ws +:+ word +:+ rest
           ∧ all_whitespace ws = true ∧ no_whitespace word = true ∧ word ≠ EmptyString
           ∧ (rest = EmptyString ∨ (∃ c r, rest = String c r ∧ isspace c = true))
           ∧ notify s st = inr (update (Some word) st)).
Proof.
  eexists. split; [reflexivity|]. cbn beta.
  assert (Hword : ∀ ws word rest,
            all_whitespace ws = true → no_whitespace word = true → word ≠ EmptyString →
            rest = EmptyString ∨ (∃ c r, rest = String c r ∧ isspace c = true) →
            match stream_extract (ws +:+ word +:+ rest) default_constructed with
            | inl e => inl e
            | inr v => inr (update (Some v) st)
            end = inr (update (Some word) st)).
  { intros ws word rest Hws Hw Hne Hrest. by rewrite string_extract_word. }
  assert (Hsplit : all_whitespace s = false →
            ∃ ws word rest,
              s = ws +:+ word +:+ rest
              ∧ all_whitespace ws = true ∧ no_whitespace word = true ∧ word ≠ EmptyString
              ∧ (rest = EmptyString ∨ (∃ c r, rest = String c r ∧ isspace c = true))
              ∧ match stream_extract s default_constructed with
                | inl e => inl e
                | inr v => inr (update (Some v) st)
                end = inr (update (Some word) st)).
  { intros Hs. destruct (string_split_word s) as (ws & word & rest & -> & Hws & Hw & Hr & Hne).
    exists ws, word, rest. repeat split; try done; [by apply Hne | by apply Hword; [| |apply Hne|]]. }
  unfold stream_extract, string_extract, default_constructed, string_default in *.
  split; [|split; [|split; [|split; [exact Hword | exact Hsplit]]]].
  - intros H. by rewrite skip_whitespace_all.
  - destruct (skip_whitespace s) as [|c r] eqn:Hs.
    + by exists EmptyString.
    + exists (first_word (String c r)). split; [reflexivity|].
      apply first_word_no_whitespace.
  - intros H. rewrite skip_whitespace_id by done.
    destruct s as [|c r]; [done|]. by rewrite first_word_id.
Qed.

Lemma optional_string_flag_always_assigns_witness :
  ∃ notify,
    Flag.notify_ (make_optional_flag (MkSizeConstrainedString "desktop_file_hint")
                    (MkSizeConstrainedString "Desktop file hint for QtMir/Unity8")
                    (fun (v : option string) (_ : option string) => v))
    = Some notify
    ∧ notify "  " (Some "anbox.desktop") = inr (Some EmptyString)
    ∧ notify " unity8.desktop --mode=full" (Some "anbox.desktop")
      = inr (Some "unity8.desktop").
Proof.
  destruct (optional_string_flag_always_assigns
              (MkSizeConstrainedString "desktop_file_hint")
              (MkSizeConstrainedString "Desktop file hint for QtMir/Unity8")
              (fun (v : option string) (_ : option string) => v)
              "  " (Some "anbox.desktop"))
    as (notify & Hnotify & Hblank & _ & _ & Hword & _).
  exists notify. split; [exact Hnotify|]. split; [exact (Hblank eq_refl)|].
  refine (Hword " " "unity8.desktop" " --mode=full" eq_refl eq_refl _ _); [discriminate|].
  right. by exists " "%char, "--mode=full".
Defined.

Section flag_set_facts.
Context {S : Type}.
Implicit Types (l : FlagSet S) (p q : Ptr) (f g : Flag.t S).

(** every address of an ascending set above [p] *)
Lemma ascending_cons_inv q g l :
  ascending ((q, g) :: l) → ascending l ∧ ∀ r h, (r, h) ∈ l → (q < r)%N.
Proof.
  revert q g. induction l as [|[q' g'] l IH]; intros q g H.
  - split; [done|]. intros r h Hin. by apply elem_of_nil in Hin.
  - cbn in H. destruct H as [Hlt Hasc]. split; [exact Hasc|].
    intros r h [Heq | Hin]%elem_of_cons.
    + by inversion Heq; subst.
    + destruct (IH q' g' Hasc) as [_ Hall]. specialize (Hall r h Hin). lia.
Qed.

Lemma ascending_cons q g l :
  ascending l → (∀ r h, (r, h) ∈ l → (q < r)%N) → ascending ((q, g) :: l).
Proof.
  destruct l as [|[q' g'] l]; [done|]. intros Hasc Hall. cbn. split; [|exact Hasc].
  apply (Hall q' g'). left.
Qed.

Lemma elem_of_set_insert p f l r h :
  (r, h) ∈ set_insert p f l → (r, h) = (p, f) ∨ (r, h) ∈ l.
Proof.
  induction l as [|[q g] l IH]; cbn.
  - intros Hin%list_elem_of_singleton. by left.
  - destruct (decide (p < q)%N).
    + intros [Heq | Hin]%elem_of_cons; [by left | by right].
    + destruct (decide (p = q)).
      * by right.
      * intros [Heq | Hin]%elem_of_cons.
        -- right. rewrite Heq. left.
        -- destruct (IH Hin) as [H | H]; [by left | right; by right].
Qed.

Lemma set_insert_ascending p f l : ascending l → ascending (set_insert p f l).
Proof.
  induction l as [|[q g] l IH]; [done|]. intros Hasc. cbn [set_insert].
  destruct (decide (p < q)%N) as [Hlt|Hge].
  - cbn. by split.
  - destruct (decide (p = q)) as [Heq|Hne]; [exact Hasc|].
    destruct (ascending_cons_inv _ _ _ Hasc) as [Hl Hall].
    apply ascending_cons; [by apply IH|].
    intros r h [Heq | Hin]%elem_of_set_insert.
    + inversion Heq; subst. lia.
    + by apply (Hall r h).
Qed.

Lemma find_flag_None_above p l :
  (∀ r h, (r, h) ∈ l → (p < r)%N) → find_flag l p = None.
Proof.
  induction l as [|[q g] l IH]; [done|]. intros Hall. cbn.
  destruct (decide (p = q)) as [->|Hne].
  - specialize (Hall q g ltac:(left)). lia.
  - apply IH. intros r h Hin. apply (Hall r h). by right.
Qed.

Lemma find_flag_set_insert p f l q :
  ascending l →
  find_flag (set_insert p f l) q
  = if decide (q = p) then Some (default f (find_flag l p)) else find_flag l q.
Proof.
  induction l as [|[r g] l IH]; intros Hasc.
  - cbn. by destruct (decide (q = p)).
  - cbn [set_insert]. destruct (ascending_cons_inv _ _ _ Hasc) as [Hl Hall].
    destruct (decide (p < r)%N) as [Hlt|Hge].
    + cbn [find_flag]. destruct (decide (q = p)) as [->|Hne]; [|done].
      destruct (decide (p = r)); [lia|].
      rewrite find_flag_None_above; [done|].
      intros r' h Hin. specialize (Hall r' h Hin). lia.
    + destruct (decide (p = r)) as [->|Hne].
      * cbn [find_flag]. destruct (decide (q = r)) as [->|Hqr].
        -- by destruct (decide (r = r)).
        -- done.
      * cbn [find_flag]. rewrite (IH Hl).
        destruct (decide (q = r)) as [->|Hqr].
        -- by destruct (decide (r = p)); [congruence|].
        -- destruct (decide (q = p)); [|done]. by destruct (decide (p = r)).
Qed.

Lemma set_insert_present p f l :
  ascending l → is_Some (find_flag l p) → set_insert p f l = l.
Proof.
  induction l as [|[r g] l IH]; cbn [set_insert find_flag].
  - by intros _ [? ?].
  - intros Hasc H. destruct (ascending_cons_inv _ _ _ Hasc) as [Hl Hall].
    destruct (decide (p < r)%N) as [Hlt|Hge].
    + destruct (decide (p = r)); [lia|].
      rewrite find_flag_None_above in H; [by destruct H|].
      intros r' h Hin. specialize (Hall r' h Hin). lia.
    + destruct (decide (p = r)); [done|]. by rewrite IH.
Qed.

Lemma set_insert_length p f l :
  ascending l →
  length (set_insert p f l)
  = match find_flag l p with Some _ => length l | None => Datatypes.S (length l) end.
Proof.
  induction l as [|[r g] l IH]; [done|]. intros Hasc.
  destruct (ascending_cons_inv _ _ _ Hasc) as [Hl Hall].
  cbn [set_insert find_flag].
  destruct (decide (p < r)%N) as [Hlt|Hge].
  - destruct (decide (p = r)); [lia|].
    rewrite find_flag_None_above; [done|].
    intros r' h Hin. specialize (Hall r' h Hin). lia.
  - destruct (decide (p = r)); [done|]. cbn. rewrite (IH Hl).
    by destruct (find_flag l p).
Qed.

End flag_set_facts.

(** X6.  [CommandWithFlagsAndAction::flag] keeps [flags_] a set ordered by
    address: the addresses still ascend, the new address is present, the
    flags at the other addresses are as before, a flag whose address is
    already in the set changes nothing, a new one makes the set one larger,
    and neither the members nor the action are touched. *)
Theorem flag_keeps_flag_set_ordered {S : Type}
    (c : CommandWithFlagsAndAction S) (p : Ptr) (f : Flag.t S) :
  ascending (flags_ (fields c)) →
  let c' := flag p f c in
  ascending (flags_ (fields c'))
  ∧ find_flag (flags_ (fields c')) p
    = Some (default f (find_flag (flags_ (fields c)) p))
  ∧ (∀ q, q ≠ p → find_flag (flags_ (fields c')) q = find_flag (flags_ (fields c)) q)
  ∧ (is_Some (find_flag (flags_ (fields c)) p) → fields c' = fields c)
  ∧ (find_flag (flags_ (fields c)) p = None →
       length (flags_ (fields c')) = Datatypes.S (length (flags_ (fields c))))
  ∧ members (fields c') = members (fields c)
  ∧ action_ c' = action_ c.
Proof.
  intros Hasc c'. subst c'. unfold flag. cbn [fields flags_ members action_].
  split; [by apply set_insert_ascending|]. split.
  { rewrite find_flag_set_insert by done. by destruct (decide (p = p)). }
  split.
  { intros q Hq. rewrite find_flag_set_insert by done. by destruct (decide (q = p)). }
  split.
  { intros H. rewrite set_insert_present by done. by destruct (fields c). }
  split; [|done].
  intros H. rewrite set_insert_length by done. by rewrite H.
Qed.

Lemma flag_keeps_flag_set_ordered_witness :
  ascending (flags_ (fields (flag 7%N (make_flag (S := unit)
      (MkSizeConstrainedString "verbose") (MkSizeConstrainedString "more output"))
      (flag 3%N (make_flag (MkSizeConstrainedString "quiet") (MkSizeConstrainedString "less output"))
         (MkCommand (MkSizeConstrainedString "run") (MkSizeConstrainedString "run")
            (MkSizeConstrainedString "runs") None (MkFields [] tt)))))).
Proof.
  exact (proj1 (flag_keeps_flag_set_ordered
    (flag 3%N (make_flag (MkSizeConstrainedString "quiet") (MkSizeConstrainedString "less output"))
         (MkCommand (MkSizeConstrainedString "run") (MkSizeConstrainedString "run")
            (MkSizeConstrainedString "runs") None (MkFields [] tt)))
    7%N (make_flag (MkSizeConstrainedString "verbose") (MkSizeConstrainedString "more output"))
    ltac:(vm_compute; split; exact I))).
Defined.

Lemma scs_eqb_eq {max} (a b : SizeConstrainedString max) :
  scs_eqb a b = true ↔ a = b.
Proof.
  destruct a as [a], b as [b]. unfold scs_eqb. cbn. rewrite bool_decide_eq_true.
  split; [by intros -> | by intros [= ->]].
Qed.

(** X7.  After the marking loop of [run], on flags none of which was
    marked before, [is_flag_set] is true for a name exactly when a flag of
    that name is registered and the variables map counts the name. *)
Theorem is_flag_set_after_marking {S : Type}
    (m : list (string * variable_value)) (flags : FlagSet S) (name : Name) :
  all_unset flags →
  is_flag_set (mark_set_flags m flags) name = true
  ↔ as_string name ∈ m.*1 ∧ ∃ pf, pf ∈ flags ∧ Flag.name pf.2 = name.
Proof.
  unfold all_unset. induction flags as [|[p f] flags IH]; intros Hunset.
  - cbn. split; [discriminate|]. intros (_ & pf & Hin & _). by apply elem_of_nil in Hin.
  - apply Forall_cons in Hunset as [Hf Hrest]. specialize (IH Hrest).
    cbn [mark_set_flags map fst snd]. unfold vm_count, to_std_string.
    destruct (bool_decide (as_string (Flag.name f) ∈ m.*1)) eqn:Hm.
    + destruct (decide (0 < 1)%nat); [|lia]. cbn [is_flag_set].
      change (Flag.name (Flag.mark_set f)) with (Flag.name f).
      destruct (scs_eqb (Flag.name f) name) eqn:Hname.
      * apply scs_eqb_eq in Hname. subst name. cbn. split; [|done]. intros _.
        apply bool_decide_eq_true in Hm. split; [done|]. exists (p, f). split; [left|done].
      * fold (mark_set_flags m flags). rewrite IH. split.
        -- intros (Hin & pf & Hpf & Hn). split; [done|]. exists pf. split; [by right|done].
        -- intros (Hin & pf & [-> | Hpf]%elem_of_cons & Hn).
           ++ cbn in Hn. subst name. assert (scs_eqb (Flag.name f) (Flag.name f) = true) by by apply scs_eqb_eq.
              congruence.
           ++ split; [done|]. by exists pf.
    + destruct (decide (0 < 0)%nat); [lia|]. cbn [is_flag_set].
      destruct (scs_eqb (Flag.name f) name) eqn:Hname.
      * apply scs_eqb_eq in Hname. subst name. cbn in Hf. rewrite Hf.
        apply bool_decide_eq_false in Hm. split; [discriminate|]. by intros [? _].
      * fold (mark_set_flags m flags). rewrite IH. split.
        -- intros (Hin & pf & Hpf & Hn). split; [done|]. exists pf. split; [by right|done].
        -- intros (Hin & pf & [-> | Hpf]%elem_of_cons & Hn).
           ++ cbn in Hn. subst name. assert (scs_eqb (Flag.name f) (Flag.name f) = true) by by apply scs_eqb_eq.
              congruence.
           ++ split; [done|]. by exists pf.
Qed.

Lemma is_flag_set_after_marking_witness :
  is_flag_set (mark_set_flags [("quiet", vv_empty)]
     [(3%N, make_flag (S := unit) (MkSizeConstrainedString "quiet") (MkSizeConstrainedString "less output"))])
     (MkSizeConstrainedString "quiet") = true.
Proof.
  apply (is_flag_set_after_marking [("quiet", vv_empty)]
     [(3%N, make_flag (S := unit) (MkSizeConstrainedString "quiet") (MkSizeConstrainedString "less output"))]
     (MkSizeConstrainedString "quiet")).
  - repeat constructor.
  - split; [by left|]. eexists. split; [left|reflexivity].
Defined.

Section parsing_facts.
Context {S : Type}.
Variable command_line_parser :
  list option_description -> list string -> exception + parsed_options.

Lemma notifier_frame (vf : Ptr) (s : string) (st : Fields S) :
  trace_of (notifier vf s st) = [] ∧ flags_ (state_of (notifier vf s st)) = flags_ st.
Proof.
  unfold notifier. destruct (find_flag (flags_ st) vf) as [f|]; [|done].
  destruct (Flag.notify_ f) as [n|]; [|done]. by destruct (n s (members st)).
Qed.

Lemma notify_frame desc (m : list (string * variable_value)) (h : bool) (st : Fields S) :
  trace_of (notify desc m h st) = [] ∧ flags_ (state_of (notify desc m h st)) = flags_ st.
Proof.
  revert h st. induction m as [|[key v] m IH]; intros h st; [done|].
  cbn [notify].
  destruct (find_option desc key) as [[n [| vf |] d]|]; destruct v; try apply IH.
  unfold mbind, M_bind, bind.
  pose proof (notifier_frame vf s st) as [Htr Hfl].
  destruct (notifier vf s st) as [[tr st'] [[]| e |]]; cbn in Htr, Hfl; subst tr; try done.
  unfold prepend. cbn. destruct (IH h st') as [-> ->]. done.
Qed.

Lemma notify_app desc (m1 m2 : list (string * variable_value)) (h : bool) (st : Fields S) :
  notify desc (m1 ++ m2) h st = (h' ← notify desc m1 h; notify desc m2 h') st.
Proof.
  revert h st. induction m1 as [|[key v] m1 IH]; intros h st.
  - cbn [app notify]. by rewrite bind_ret_eq.
  - cbn [app notify].
    destruct (find_option desc key) as [[n [| vf |] d]|]; destruct v; try apply IH.
    unfold mbind, M_bind, bind in IH |- *.
    destruct (notifier vf s st) as [[tr st'] [[]| e |]]; try done.
    rewrite IH.
    destruct (notify desc m1 h st') as [[tr1 st1] [h1| e |]]; try done.
    unfold prepend. cbn [trace_of state_of outcome_of fst snd].
    by rewrite app_assoc.
Qed.

Lemma parse_store_notify_frame (ctxt : Context) (st : Fields S) :
  trace_of (parse_store_notify command_line_parser ctxt st) = []
  ∧ flags_ (state_of (parse_store_notify command_line_parser ctxt st)) = flags_ st.
Proof.
  unfold parse_store_notify. rewrite bind_get_eq. cbv zeta.
  unfold mbind, M_bind, bind.
  destruct (command_line_parser (options_of (flags_ st)) (cli.args ctxt)) as [e|parsed]; [done|].
  cbn [lift ret]. unfold prepend. cbn [app trace_of state_of outcome_of fst snd].
  pose proof (notify_frame (options_of (flags_ st)) (vm parsed) false st) as [Htr Hfl].
  destruct (notify (options_of (flags_ st)) (vm parsed) false st) as [[tr st'] [b| e |]];
    cbn in Htr, Hfl; subst tr; done.
Qed.

End parsing_facts.

Lemma find_flag_elem_of {S} (flags : FlagSet S) (p : Ptr) (f : Flag.t S) :
  ascending flags → (p, f) ∈ flags → find_flag flags p = Some f.
Proof.
  induction flags as [|[q g] flags IH]; intros Hasc Hin; [by apply elem_of_nil in Hin|].
  destruct (ascending_cons_inv _ _ _ Hasc) as [Hrest Habove].
  cbn [find_flag]. apply elem_of_cons in Hin as [[= -> ->] | Hin].
  - by destruct (decide (q = q)).
  - destruct (decide (p = q)) as [->|]; [|by apply IH].
    specialize (Habove q f Hin). lia.
Qed.

(** The option [add_to_desc_for_flags] registers for a value flag: under
    the flag's name, with the notifier of the flag's address. *)
Lemma find_option_value_flag {S} (desc : list option_description) (flags : FlagSet S)
    (p : Ptr) (f : Flag.t S) :
  ascending flags → (p, f) ∈ flags → Flag.with_value f = true →
  (∀ d, d ∈ desc → long_name d ≠ as_string (Flag.name f)) →
  (∀ q g, (q, g) ∈ flags → Flag.name g = Flag.name f → q = p) →
  ∃ d, find_option (add_to_desc_for_flags desc flags) (as_string (Flag.name f)) = Some d
       ∧ semantic d = typed_value p.
Proof.
  intros Hasc Hin Hvalue Hdesc Hname. unfold add_to_desc_for_flags.
  induction desc as [|d desc IH].
  - cbn [app]. clear Hdesc. induction flags as [|[q g] flags IH]; [by apply elem_of_nil in Hin|].
    destruct (ascending_cons_inv _ _ _ Hasc) as [Hrest Habove].
    cbn [map find_option].
    destruct (bool_decide (long_name (if Flag.with_value g then _ else _)
                           = as_string (Flag.name f))) eqn:Hkey.
    + apply bool_decide_eq_true in Hkey.
      assert (Hg : Flag.name g = Flag.name f).
      { destruct (Flag.with_value g); cbn [long_name] in Hkey;
          destruct (Flag.name g), (Flag.name f); cbn in Hkey; by subst. }
      assert (q = p) as -> by (apply (Hname q g); [left | exact Hg]).
      apply elem_of_cons in Hin as [[= <-] | Hin].
      * rewrite Hvalue. by eexists.
      * destruct (Flag.with_value g) eqn:Hvg; [by eexists|].
        specialize (Habove p f Hin). lia.
    + apply IH; [exact Hrest | |].
      * apply elem_of_cons in Hin as [[= <- <-] | Hin]; [|done].
        rewrite Hvalue in Hkey. cbn [long_name] in Hkey.
        by apply bool_decide_eq_false in Hkey.
      * intros q' g' Hin'. apply Hname. by right.
  - cbn [app find_option].
    destruct (bool_decide (long_name d = as_string (Flag.name f))) eqn:Hkey.
    + apply bool_decide_eq_true in Hkey. destruct (Hdesc d); [left | done].
    + apply IH. intros d' Hd'. apply Hdesc. by right.
Qed.

(** X8.  The notifier [add_to_desc_for_flags] installs for a value flag
    hands the stored value to that flag: in the notification pass over the
    options description of a set of flags, a value stored under the name of
    a value flag (a name no other option has) goes to the [notify] of that
    flag, the members are what it leaves, and the pass goes on with the next
    entry; when [notify] throws the pass ends there, with the members as the
    earlier notifiers left them.  The values are handed over in the order of
    the variables map: notifying a map is notifying its first part and then
    the rest from the members and [help_requested] the first part left.  The
    pass writes nothing and never changes [flags_]. *)
Theorem notify_applies_values_in_order {S : Type}
    (desc : list option_description) (m1 m2 : list (string * variable_value))
    (help_requested : bool) (st : Fields S) :
  notify desc (m1 ++ m2) help_requested st
  = match notify desc m1 help_requested st with
    | (_, st1, Ret h1) => notify desc m2 h1 st1
    | (_, st1, Throw e) => ([], st1, Throw e)
    | (_, st1, Block) => ([], st1, Block)
    end
  ∧ trace_of (notify desc (m1 ++ m2) help_requested st) = []
  ∧ flags_ (state_of (notify desc (m1 ++ m2) help_requested st)) = flags_ st
  ∧ (∀ desc0 p f n s rest,
       desc = add_to_desc_for_flags desc0 (flags_ st) →
       ascending (flags_ st) →
       (p, f) ∈ flags_ st →
       Flag.notify_ f = Some n →
       (∀ d, d ∈ desc0 → long_name d ≠ as_string (Flag.name f)) →
       (∀ q g, (q, g) ∈ flags_ st → Flag.name g = Flag.name f → q = p) →
       notify desc ((as_string (Flag.name f), vv_string s) :: rest) help_requested st
       = match n s (members st) with
         | inl e => ([], st, Throw e)
         | inr members' =>
             notify desc rest help_requested (MkFields (flags_ st) members')
         end).
Proof.
  split; [|split; [|split]]; [| apply notify_frame | apply notify_frame |].
  - rewrite notify_app. unfold mbind, M_bind, bind.
    pose proof (notify_frame desc m1 help_requested st) as [Htr _].
    destruct (notify desc m1 help_requested st) as [[tr st1] [h1| e |]];
      cbn in Htr; subst tr; try done.
    apply prepend_nil.
  - intros desc0 p f n s rest -> Hasc Hin Hn Hdesc Hname.
    destruct (find_option_value_flag desc0 (flags_ st) p f) as (d & Hd & Hsem); try done.
    { unfold Flag.with_value. by rewrite Hn. }
    cbn [notify]. rewrite Hd. destruct d as [name sem text]. cbn in Hsem. subst sem.
    unfold mbind, M_bind, bind, notifier.
    rewrite (find_flag_elem_of _ _ _ Hasc Hin), Hn.
    destruct (n s (members st)) as [e|members']; [reflexivity|].
    apply prepend_nil.
Qed.

Lemma notify_applies_values_in_order_witness :
  notify (options_of (flags_ (fields sample.session)))
    [("gles-driver", vv_string "host"); ("desktop_file_hint", vv_string "unity8.desktop")]
    false (fields sample.session)
  = notify (options_of (flags_ (fields sample.session)))
      [("desktop_file_hint", vv_string "unity8.desktop")] false
      (MkFields (flags_ (fields sample.session)) (cmds.MkMembers EmptyString Host)).
Proof.
  refine (proj2 (proj2 (proj2
            (notify_applies_values_in_order
               (options_of (flags_ (fields sample.session))) [] [] false
               (fields sample.session))))
            [ {| long_name := "help"; semantic := bool_switch;
                 description := "produces a help message" |} ]
            20%N (@cmds.gles_flag sample.driver_extract) _ "host"
            [("desktop_file_hint", vv_string "unity8.desktop")]
            eq_refl _ _ eq_refl _ _).
  - vm_compute. split; [reflexivity | split; exact I].
  - vm_compute. in_list.
  - intros d ->%list_elem_of_singleton. discriminate.
  - intros q g [[= -> ->] | [[= -> ->] | Hin%elem_of_nil]%elem_of_cons]%elem_of_cons Hg;
      [discriminate Hg | reflexivity | done].
Defined.

(** X9.  When the parsing stage of [CommandWithFlagsAndAction::run] ends
    without [help_requested], [run] marks the flags the variables map
    counts and calls the action with the arguments the parser did not
    recognize.  The action's result is the result of [run], except that a
    [boost::program_options::error] thrown by the action is caught like a
    parse error: the message and the help text are written and [run] returns
    [EXIT_FAILURE].  Without an action installed the call throws
    [std::bad_function_call], after the flags were marked. *)
Theorem run_hands_over_to_action {S : Type}
    (command_line_parser : list option_description -> list string -> exception + parsed_options)
    (c : CommandWithFlagsAndAction S) (ctxt : Context) (st st1 : Fields S)
    (tr : list Event) (parsed : parsed_options) :
  parse_store_notify command_line_parser ctxt st = (tr, st1, Ret (false, parsed)) →
  let st2 := MkFields (mark_set_flags (vm parsed) (flags_ st)) (members st1) in
  tr = []
  ∧ (action_ c = None →
       run command_line_parser c ctxt st = ([], st2, Throw bad_function_call))
  ∧ (∀ a, action_ c = Some a →
       let r := a {| cli.args := unrecognized parsed |} st2 in
       run command_line_parser c ctxt st
       = match outcome_of r with
         | Throw (po_error message) =>
             (trace_of r ++ [cout_write (message +:+ endl);
                             cout_write (help c (flags_ (state_of r)))],
              state_of r, Ret EXIT_FAILURE)
         | _ => r
         end).
Proof.
  intros Hparse st2.
  pose proof (parse_store_notify_frame command_line_parser ctxt st) as [Htr Hfl].
  rewrite Hparse in Htr, Hfl. cbn in Htr, Hfl. subst tr.
  split; [done|]. subst st2. rewrite <- Hfl.
  split.
  - intros Hnone. unfold run, try_catch, mbind, M_bind, bind. rewrite Hparse, Hnone. reflexivity.
  - intros a Ha r. unfold run, try_catch, mbind, M_bind, bind. rewrite Hparse, Ha.
    cbn [modify prepend trace_of state_of outcome_of fst snd app].
    fold r. destruct r as [[tr2 st3] [z| e |]]; cbn [trace_of state_of outcome_of fst snd app]; try done.
    destruct e; try done.
Qed.

Lemma run_hands_over_to_action_witness :
  cli.run sample.long_options
    (cli.MkCommand (cli.name_ sample.session) (cli.usage_ sample.session)
       (cli.description_ sample.session) None (cli.fields sample.session))
    {| cli.args := ["--gles-driver=host"] |} (cli.fields sample.session)
  = ([],
     cli.MkFields
       (cli.mark_set_flags [("gles-driver", cli.vv_string "host")]
          (cli.flags_ (cli.fields sample.session)))
       (cmds.MkMembers EmptyString Host),
     Throw bad_function_call).
Proof.
  exact (proj1 (proj2 (run_hands_over_to_action sample.long_options
           (cli.MkCommand (cli.name_ sample.session) (cli.usage_ sample.session)
              (cli.description_ sample.session) None (cli.fields sample.session))
           {| cli.args := ["--gles-driver=host"] |} (cli.fields sample.session)
           (cli.MkFields (cli.flags_ (cli.fields sample.session))
              (cmds.MkMembers EmptyString Host))
           []
           {| cli.vm := [("gles-driver", cli.vv_string "host")]; cli.unrecognized := [] |}
           eq_refl)) eq_refl).
Defined.

End cli_more_facts.

(** ** Commands with subcommands *)

Section subcommand_facts.
Import cli subcommands.
Context {S : Type}.
Variable iteration_order :
  gmap string (option (Command S)) -> list (string * option (Command S)).
Variable command_line_parser :
  list option_description -> list string -> exception + parsed_options.
Variable required_option_what : string.

Lemma vm_at_Some_elem (m : list (string * variable_value)) key v :
  vm_at m key = Some v → key ∈ m.*1.
Proof.
  induction m as [|[k v'] m IH]; [discriminate|]. cbn.
  destruct (bool_decide (k = key)) eqn:Hk.
  - apply bool_decide_eq_true in Hk as ->. intros _. left.
  - intros H. right. by apply IH.
Qed.

(** The parsing stage of [CommandWithSubcommands::run], case by case. *)
Lemma sub_parse_store_notify_eq (ctxt : Context) (st : Fields S) :
  parse_store_notify command_line_parser required_option_what ctxt st =
  let desc := add_to_desc_for_flags [] (flags_ (base st)) in
  match command_line_parser desc (args ctxt) with
  | inl e => ([], st, Throw e)
  | inr parsed =>
      if bool_decide ("command" ∈ (vm parsed).*1) then
        match notify desc (vm parsed) false (base st) with
        | (_, b, Ret _) =>
            match vm_at (vm parsed) "command" with
            | Some (vv_string name) => ([], MkFields (commands_ st) b, Ret (name, parsed))
            | _ => ([], MkFields (commands_ st) b, Throw (foreign_error "boost::bad_any_cast"))
            end
        | (_, b, Throw e) => ([], MkFields (commands_ st) b, Throw e)
        | (_, b, Block) => ([], MkFields (commands_ st) b, Block)
        end
      else ([], st, Throw (po_error required_option_what))
  end.
Proof.
  unfold parse_store_notify. rewrite bind_get_eq. cbv zeta.
  unfold mbind, M_bind, bind.
  destruct (command_line_parser _ (args ctxt)) as [e|parsed]; [reflexivity|].
  cbn [lift ret]. destruct (bool_decide ("command" ∈ (vm parsed).*1)); [|reflexivity].
  cbn [mret M_ret ret]. unfold on_base.
  pose proof (notify_frame (add_to_desc_for_flags [] (flags_ (base st))) (vm parsed) false (base st))
    as [Htr _].
  destruct (notify _ (vm parsed) false (base st)) as [[tr b] [h| e |]];
    cbn in Htr; subst tr; cbn; try reflexivity.
  by destruct (vm_at (vm parsed) "command") as [[]|].
Qed.

Lemma sub_parse_store_notify_frame (ctxt : Context) (st : Fields S) :
  let r := parse_store_notify command_line_parser required_option_what ctxt st in
  trace_of r = [] ∧ commands_ (state_of r) = commands_ st
  ∧ flags_ (base (state_of r)) = flags_ (base st).
Proof.
  cbv zeta. rewrite sub_parse_store_notify_eq. cbv zeta.
  destruct (command_line_parser _ (args ctxt)) as [e|parsed]; [done|].
  destruct (bool_decide _); [|done].
  pose proof (notify_frame (add_to_desc_for_flags [] (flags_ (base st))) (vm parsed) false (base st))
    as [_ Hfl].
  destruct (notify _ (vm parsed) false (base st)) as [[tr b] [h| e |]]; cbn in Hfl; try done.
  by destruct (vm_at (vm parsed) "command") as [[]|].
Qed.

End subcommand_facts.

Section subcommand_claims.
Import cli subcommands.
Context {S : Type}.
Variable iteration_order :
  gmap string (option (Command S)) -> list (string * option (Command S)).
Variable command_line_parser :
  list option_description -> list string -> exception + parsed_options.
Variable required_option_what : string.

Local Abbreviation sub_run := (run iteration_order command_line_parser required_option_what).
Local Abbreviation sub_help := (help iteration_order).
Local Abbreviation sub_parse := (parse_store_notify command_line_parser required_option_what).

(** X10.  [CommandWithSubcommands::run] on a command name that is not
    registered, or whose entry holds a null pointer, writes
    [Unknown command '<name>'] and the help text and returns
    [EXIT_FAILURE].  The look-up with [operator[]] leaves an entry with a
    null pointer under that name: the map grows by one when the name was not
    there, and no other entry changes. *)
Theorem unknown_command_fails_and_leaves_null_entry
    (this : CommandWithSubcommands S) (ctxt : Context) (st st1 : Fields S)
    (tr : list Event) (name : string) (parsed : parsed_options) :
  sub_parse ctxt st = (tr, st1, Ret (name, parsed)) →
  commands_ st !! name = None ∨ commands_ st !! name = Some None →
  let st2 := MkFields (<[name := None]> (commands_ st)) (base st1) in
  sub_run this ctxt st
  = ([cout_write ("Unknown command '" +:+ name +:+ "'" +:+ endl);
      cout_write (sub_help this st2)], st2, Ret EXIT_FAILURE)
  ∧ commands_ st2 !! name = Some None
  ∧ (commands_ st !! name = None → size (commands_ st2) = Datatypes.S (size (commands_ st)))
  ∧ (commands_ st !! name = Some None → commands_ st2 = commands_ st)
  ∧ (∀ other, other ≠ name → commands_ st2 !! other = commands_ st !! other).
Proof.
  intros Hparse Hunknown st2.
  pose proof (sub_parse_store_notify_frame command_line_parser required_option_what ctxt st)
    as (Htr & Hcmds & _).
  cbv zeta in Htr, Hcmds. rewrite Hparse in Htr, Hcmds. cbn in Htr, Hcmds. subst tr.
  split; [|split; [|split; [|split]]].
  - unfold run, try_catch, mbind, M_bind, bind. rewrite Hparse.
    unfold commands_at. rewrite Hcmds. subst st2.
    destruct Hunknown as [H | H]; rewrite H; [reflexivity|].
    rewrite insert_id by done. rewrite <- Hcmds. destruct st1. reflexivity.
  - subst st2. cbn. apply lookup_insert_eq.
  - intros H. subst st2. cbn. by rewrite map_size_insert_None.
  - intros H. subst st2. cbn. by rewrite insert_id.
  - intros other Hne. subst st2. cbn. by rewrite lookup_insert_ne.
Qed.

(** X11.  When the command name selects the help command,
    [CommandWithSubcommands::run] writes the help text of the command itself
    and returns [EXIT_FAILURE], and the registered commands are as
    before. *)
Theorem help_command_prints_help_and_fails
    (this : CommandWithSubcommands S) (ctxt : Context) (st st1 : Fields S)
    (tr : list Event) (name : string) (parsed : parsed_options) :
  sub_parse ctxt st = (tr, st1, Ret (name, parsed)) →
  commands_ st !! name = Some (Some Help) →
  sub_run this ctxt st = ([cout_write (sub_help this st1)], st1, Ret EXIT_FAILURE)
  ∧ commands_ st1 = commands_ st.
Proof.
  intros Hparse Hhelp.
  pose proof (sub_parse_store_notify_frame command_line_parser required_option_what ctxt st)
    as (Htr & Hcmds & _).
  cbv zeta in Htr, Hcmds. rewrite Hparse in Htr, Hcmds. cbn in Htr, Hcmds. subst tr.
  split; [|done].
  unfold run, try_catch, mbind, M_bind, bind. rewrite Hparse.
  unfold commands_at. rewrite Hcmds, Hhelp. reflexivity.
Qed.

(** X12.  When the command name selects a registered command,
    [CommandWithSubcommands::run] runs it with the arguments the parser
    collected and returns its result; the call is inside the [try] block, so
    a [boost::program_options::error] the command throws is reported with
    the help text of the parent and turned into [EXIT_FAILURE], and any
    other exception leaves [run].  Neither the registered commands nor the
    flags change. *)
Theorem registered_command_runs_inside_try_block
    (this : CommandWithSubcommands S) (ctxt : Context) (st st1 : Fields S)
    (tr : list Event) (name : string) (parsed : parsed_options)
    (n : Name) (u : Usage) (d : Description) (child : Context -> M S Z) :
  sub_parse ctxt st = (tr, st1, Ret (name, parsed)) →
  commands_ st !! name = Some (Some (Other n u d child)) →
  let r := child {| args := unrecognized parsed |} (members (base st1)) in
  let st2 := MkFields (commands_ st) (cli.MkFields (flags_ (base st)) (state_of r)) in
  sub_run this ctxt st
  = match outcome_of r with
    | Throw (po_error message) =>
        (trace_of r ++ [cout_write (message +:+ endl); cout_write (sub_help this st2)],
         st2, Ret EXIT_FAILURE)
    | o => (trace_of r, st2, o)
    end.
Proof.
  intros Hparse Hchild r st2.
  pose proof (sub_parse_store_notify_frame command_line_parser required_option_what ctxt st)
    as (Htr & Hcmds & Hfl).
  cbv zeta in Htr, Hcmds, Hfl. rewrite Hparse in Htr, Hcmds, Hfl. cbn in Htr, Hcmds, Hfl.
  subst tr st2. rewrite <- Hcmds, <- Hfl.
  unfold run, try_catch, mbind, M_bind, bind. rewrite Hparse.
  unfold commands_at. rewrite Hcmds, Hchild.
  cbn [prepend trace_of state_of outcome_of fst snd app run_command on_base on_members base
         commands_ members flags_].
  rewrite <- Hcmds. fold r.
  destruct r as [[tr2 s2] [z| e |]]; cbn [trace_of state_of outcome_of fst snd app]; try done.
  destruct e; try done.
Qed.

(** X13.  [CommandWithSubcommands::run] without a command on the command
    line fails before any flag is notified: it writes the message of the
    missing required option and the help text, returns [EXIT_FAILURE] and
    leaves the command as it was.  The same holds for an error of the
    parser, and every [boost::program_options::error] of the parsing stage
    ends [run] with the message, the help text and [EXIT_FAILURE]. *)
Theorem missing_command_notifies_no_flag
    (this : CommandWithSubcommands S) (ctxt : Context) (st : Fields S) :
  (∀ parsed,
     command_line_parser (add_to_desc_for_flags [] (flags_ (base st))) (args ctxt) = inr parsed →
     "command" ∉ (vm parsed).*1 →
     sub_run this ctxt st
     = ([cout_write (required_option_what +:+ endl); cout_write (sub_help this st)],
        st, Ret EXIT_FAILURE))
  ∧ (∀ message,
     command_line_parser (add_to_desc_for_flags [] (flags_ (base st))) (args ctxt)
     = inl (po_error message) →
     sub_run this ctxt st
     = ([cout_write (message +:+ endl); cout_write (sub_help this st)], st, Ret EXIT_FAILURE))
  ∧ (∀ tr st1 message,
     sub_parse ctxt st = (tr, st1, Throw (po_error message)) →
     sub_run this ctxt st
     = ([cout_write (message +:+ endl); cout_write (sub_help this st1)], st1, Ret EXIT_FAILURE)
     ∧ commands_ st1 = commands_ st).
Proof.
  assert (Hthrow : ∀ tr st1 message,
     sub_parse ctxt st = (tr, st1, Throw (po_error message)) →
     sub_run this ctxt st
     = ([cout_write (message +:+ endl); cout_write (sub_help this st1)], st1, Ret EXIT_FAILURE)
     ∧ commands_ st1 = commands_ st).
  { intros tr st1 message Hparse.
    pose proof (sub_parse_store_notify_frame command_line_parser required_option_what ctxt st)
      as (Htr & Hcmds & _).
    cbv zeta in Htr, Hcmds. rewrite Hparse in Htr, Hcmds. cbn in Htr, Hcmds. subst tr.
    split; [|done]. unfold run, try_catch, mbind, M_bind, bind. rewrite Hparse. reflexivity. }
  split; [|split; [|exact Hthrow]].
  - intros parsed Hparsed Hmissing.
    apply (Hthrow [] st required_option_what).
    rewrite sub_parse_store_notify_eq. cbv zeta. rewrite Hparsed.
    by rewrite bool_decide_eq_false_2.
  - intros message Hparsed.
    apply (Hthrow [] st message).
    rewrite sub_parse_store_notify_eq. cbv zeta. by rewrite Hparsed.
Qed.

(** X14.  [CommandWithSubcommands::command] registers a command under
    its name: the entry of that name is the command, the other entries and
    the flags are untouched, and registering a second command of the same
    name replaces the first.  A new [CommandWithSubcommands] holds the help
    command, under [help], and no flags. *)
Theorem command_registers_under_its_name
    (this : CommandWithSubcommands S) (c : Command S) :
  commands_ (fields (command c this)) !! as_string (command_name c) = Some (Some c)
  ∧ (∀ other, other ≠ as_string (command_name c) →
       commands_ (fields (command c this)) !! other = commands_ (fields this) !! other)
  ∧ (∀ c', command_name c' = command_name c → command c (command c' this) = command c this)
  ∧ base (fields (command c this)) = base (fields this)
  ∧ (∀ name usage description members,
       commands_ (fields (create name usage description members))
       = {[ "help" := Some (Help (S := S)) ]}
       ∧ flags_ (base (fields (create name usage description members))) = []).
Proof.
  unfold command. cbn [fields commands_ base name_ usage_ description_].
  split; [apply lookup_insert_eq|].
  split; [by intros other Hne; rewrite lookup_insert_ne|].
  split; [intros c' ->; by rewrite insert_insert_eq|].
  split; [done|]. intros name usage description members. split; [|done].
  unfold create, command. cbn. by rewrite insert_empty.
Qed.

End subcommand_claims.

Lemma unknown_command_fails_and_leaves_null_entry_witness :
  subcommands.run sample_commands.by_key sample_commands.first_positional
    "the option '--command' is required but missing"
    sample_commands.anbox {| cli.args := ["start"] |}
    (subcommands.fields sample_commands.anbox)
  = ([cout_write ("Unknown command 'start'" +:+ endl);
      cout_write (subcommands.help sample_commands.by_key sample_commands.anbox
                    (subcommands.MkFields
                       (<["start" := None]>
                          (subcommands.commands_ (subcommands.fields sample_commands.anbox)))
                       (subcommands.base (subcommands.fields sample_commands.anbox))))],
     subcommands.MkFields
       (<["start" := None]>
          (subcommands.commands_ (subcommands.fields sample_commands.anbox)))
       (subcommands.base (subcommands.fields sample_commands.anbox)),
     Ret EXIT_FAILURE).
Proof.
  refine (proj1 (unknown_command_fails_and_leaves_null_entry
           sample_commands.by_key sample_commands.first_positional
           "the option '--command' is required but missing"
           sample_commands.anbox {| cli.args := ["start"] |}
           (subcommands.fields sample_commands.anbox)
           (subcommands.fields sample_commands.anbox) [] "start"
           {| cli.vm := [("command", cli.vv_string "start")]; cli.unrecognized := ["start"] |}
           _ _)); [vm_compute; reflexivity | left; vm_compute; reflexivity].
Defined.

Lemma help_command_prints_help_and_fails_witness :
  subcommands.run sample_commands.by_key sample_commands.first_positional
    "the option '--command' is required but missing"
    sample_commands.anbox {| cli.args := ["help"] |}
    (subcommands.fields sample_commands.anbox)
  = ([cout_write (subcommands.help sample_commands.by_key sample_commands.anbox
                    (subcommands.fields sample_commands.anbox))],
     subcommands.fields sample_commands.anbox, Ret EXIT_FAILURE).
Proof.
  exact (proj1 (help_command_prints_help_and_fails
           sample_commands.by_key sample_commands.first_positional
           "the option '--command' is required but missing"
           sample_commands.anbox {| cli.args := ["help"] |}
           (subcommands.fields sample_commands.anbox)
           (subcommands.fields sample_commands.anbox) [] "help"
           {| cli.vm := [("command", cli.vv_string "help")]; cli.unrecognized := ["help"] |}
           ltac:(vm_compute; reflexivity) ltac:(vm_compute; reflexivity))).
Defined.

Lemma registered_command_runs_inside_try_block_witness :
  subcommands.run sample_commands.by_key sample_commands.first_positional
    "the option '--command' is required but missing"
    sample_commands.anbox {| cli.args := ["version"] |}
    (subcommands.fields sample_commands.anbox)
  = ([cout_write "anbox 1"], subcommands.fields sample_commands.anbox, Ret EXIT_SUCCESS).
Proof.
  exact (registered_command_runs_inside_try_block
           sample_commands.by_key sample_commands.first_positional
           "the option '--command' is required but missing"
           sample_commands.anbox {| cli.args := ["version"] |}
           (subcommands.fields sample_commands.anbox)
           (subcommands.fields sample_commands.anbox) [] "version"
           {| cli.vm := [("command", cli.vv_string "version")]; cli.unrecognized := ["version"] |}
           (cli.MkSizeConstrainedString "version")
           (cli.MkSizeConstrainedString "print the version")
           (cli.MkSizeConstrainedString "print the version of the daemon")
           (fun _ => emit (cout_write "anbox 1");; mret EXIT_SUCCESS)
           ltac:(vm_compute; reflexivity) ltac:(vm_compute; reflexivity)).
Defined.

Lemma missing_command_notifies_no_flag_witness :
  subcommands.run sample_commands.by_key sample_commands.first_positional
    "the option '--command' is required but missing"
    sample_commands.anbox {| cli.args := [] |}
    (subcommands.fields sample_commands.anbox)
  = ([cout_write ("the option '--command' is required but missing" +:+ endl);
      cout_write (subcommands.help sample_commands.by_key sample_commands.anbox
                    (subcommands.fields sample_commands.anbox))],
     subcommands.fields sample_commands.anbox, Ret EXIT_FAILURE).
Proof.
  refine (proj1 (missing_command_notifies_no_flag
                   sample_commands.by_key sample_commands.first_positional
                   "the option '--command' is required but missing"
                   sample_commands.anbox {| cli.args := [] |}
                   (subcommands.fields sample_commands.anbox))
                {| cli.vm := []; cli.unrecognized := [] |} eq_refl _).
  apply not_elem_of_nil.
Defined.

(** ** The device registry of the input manager *)

Section registry_facts.
Import input.
Variable w : World.

Lemma map_insert_lookup (id id' : Z) (device : Device) (m : gmap Z Device) :
  map_insert id device m !! id'
  = if decide (id' = id) then Some (default device (m !! id)) else m !! id'.
Proof.
  unfold map_insert. destruct (m !! id) as [d|] eqn:Hm.
  - destruct (decide (id' = id)) as [->|]; [exact Hm | reflexivity].
  - destruct (decide (id' = id)) as [->|].
    + by rewrite lookup_insert_eq.
    + by rewrite lookup_insert_ne.
Qed.

Lemma map_insert_keeps (id id' : Z) (device d : Device) (m : gmap Z Device) :
  m !! id' = Some d → map_insert id device m !! id' = Some d.
Proof.
  intros H. rewrite map_insert_lookup. destruct (decide (id' = id)) as [->|]; [|exact H].
  by rewrite H.
Qed.

Lemma create_devices_keeps (calls : list nat) (pool : list Manager) (counter : Z)
    tr s devices pool' :
  create_devices w pool calls counter = (tr, s, Ret (devices, pool')) →
  length pool' = length pool
  ∧ ∀ i this id d, pool !! i = Some this → devices_ this !! id = Some d →
      ∃ this', pool' !! i = Some this' ∧ devices_ this' !! id = Some d
               ∧ runtime_ this' = runtime_ this.
Proof.
  revert pool counter tr s devices pool'.
  induction calls as [|j calls IH]; intros pool counter tr s devices pool' Hrun.
  - injection Hrun as <- <- <- <-. split; [done|]. intros i this id d Hi Hd. by exists this.
  - rewrite create_devices_cons_eq in Hrun. destruct (pool !! j) as [that|] eqn:Hj.
    + cbv zeta in Hrun. destruct (raises w _); [discriminate|].
      destruct (create_devices w _ calls _) as [[tr1 s1] [[devices1 pool1]| |]] eqn:Hrest;
        try discriminate.
      injection Hrun as <- <- <- <-.
      destruct (IH _ _ _ _ _ _ Hrest) as [Hlen Hkeep].
      split; [by rewrite Hlen, length_insert|].
      intros i this id d Hi Hd. destruct (decide (i = j)) as [->|Hne].
      * assert (this = that) as -> by congruence.
        destruct (Hkeep j (MkManager (runtime_ that)
                             (map_insert counter {| path := build_device_path w counter |}
                                (devices_ that))) id d) as (this' & H1 & H2 & H3).
        { apply list_lookup_insert_eq. by apply lookup_lt_Some in Hj. }
        { by apply map_insert_keeps. }
        by exists this'.
      * apply (Hkeep i this id d); [|exact Hd]. by rewrite list_lookup_insert_ne.
    + by apply (IH _ _ _ _ _ _ Hrun).
Qed.

Lemma elem_of_ids_from_S (counter : Z) (n : nat) (id : Z) :
  id ∈ ids_from ((counter + 1) mod uint32_modulus) n → id ∈ ids_from counter (S n).
Proof. cbn. by right. Qed.

Lemma create_devices_holds (calls : list nat) (pool : list Manager) (counter : Z)
    tr s devices pool' :
  create_devices w pool calls counter = (tr, s, Ret (devices, pool')) →
  0 ≤ counter < uint32_modulus →
  Z.of_nat (length calls) ≤ uint32_modulus →
  Forall (fun i => (i < length pool)%nat) calls →
  (∀ i this id, pool !! i = Some this → id ∈ ids_from counter (length calls) →
                devices_ this !! id = None) →
  ∀ k i, calls !! k = Some i →
    ∃ this',
      devices !! k = Some {| path := build_device_path w ((counter + Z.of_nat k) mod uint32_modulus) |}
      ∧ pool' !! i = Some this'
      ∧ devices_ this' !! ((counter + Z.of_nat k) mod uint32_modulus)
        = Some {| path := build_device_path w ((counter + Z.of_nat k) mod uint32_modulus) |}.
Proof.
  revert pool counter tr s devices pool'.
  induction calls as [|j calls IH];
    intros pool counter tr s devices pool' Hrun Hc Hn Hvalid Hfresh k i Hk; [done|].
  rewrite create_devices_cons_eq in Hrun.
  apply Forall_cons in Hvalid as [Hj Hvalid].
  destruct (lookup_lt_is_Some_2 pool j Hj) as [that Hthat]. rewrite Hthat in Hrun.
  cbv zeta in Hrun. destruct (raises w _); [discriminate|].
  destruct (create_devices w _ calls _) as [[tr1 s1] [[devices1 pool1]| |]] eqn:Hrest;
    try discriminate.
  injection Hrun as <- <- <- <-.
  set (device := {| path := build_device_path w counter |}) in *.
  set (that' := MkManager (runtime_ that) (map_insert counter device (devices_ that))) in *.
  assert (Hnodup : NoDup (ids_from counter (S (length calls)))).
  { apply ids_from_NoDup; [done|]. cbn [length] in Hn. lia. }
  cbn [ids_from] in Hnodup. apply NoDup_cons in Hnodup as [Hnotin _].
  destruct k as [|k].
  - injection Hk as ->. rewrite Z.add_0_r, Z.mod_small by done.
    destruct (create_devices_keeps _ _ _ _ _ _ _ Hrest) as [_ Hkeep].
    destruct (Hkeep i that' counter device) as (this' & H1 & H2 & _).
    { by apply list_lookup_insert_eq. }
    { subst that'. cbn. rewrite map_insert_lookup. destruct (decide (counter = counter)); [|done].
      rewrite (Hfresh i that counter Hthat); [done|]. cbn. left. }
    by exists this'.
  - cbn in Hk.
    assert (Hnext : 0 ≤ (counter + 1) mod uint32_modulus < uint32_modulus)
      by (apply Z.mod_pos_bound; unfold uint32_modulus; lia).
    destruct (IH _ _ _ _ _ _ Hrest Hnext) with (k := k) (i := i) as (this' & H1 & H2 & H3);
      try done.
    + cbn [length] in Hn. lia.
    + by rewrite length_insert.
    + intros i' this id Hi' Hid. destruct (decide (i' = j)) as [->|Hne].
      * rewrite list_lookup_insert_eq in Hi' by done. injection Hi' as <-.
        subst that'. cbn. rewrite map_insert_lookup.
        destruct (decide (id = counter)) as [->|]; [by destruct Hnotin|].
        apply (Hfresh j that id Hthat). by apply elem_of_ids_from_S.
      * rewrite list_lookup_insert_ne in Hi' by done.
        apply (Hfresh i' this id Hi'). by apply elem_of_ids_from_S.
    + assert (Heq : ((counter + 1) mod uint32_modulus + Z.of_nat k) mod uint32_modulus
                    = (counter + Z.of_nat (S k)) mod uint32_modulus).
      { rewrite Zplus_mod_idemp_l. f_equal. lia. }
      rewrite Heq in H1, H3. exists this'. by cbn.
Qed.

End registry_facts.

(** X15.  [Manager::create_device] takes an id from the counter whether
    or not [Device::create] throws, and makes that one call, on the path of
    the id.  When the call returns, the device is registered under the id
    unless the registry already has an entry there, which [std::map::insert]
    keeps; the other entries and the runtime are unchanged. *)
Theorem create_device_consumes_id_and_registers
    (w : World) (this : input.Manager) (counter : Z) :
  let r := input.create_device w this counter in
  let path := input.build_device_path w counter in
  state_of r = (counter + 1) mod 2 ^ 32
  ∧ trace_of r = [called (Device_create path)]
  ∧ (∀ x, raises w (Device_create path) = Some x → outcome_of r = Throw x)
  ∧ (raises w (Device_create path) = None →
       ∃ this', outcome_of r = Ret ({| input.path := path |}, this')
                ∧ input.runtime_ this' = input.runtime_ this
                ∧ input.devices_ this' !! counter
                  = Some (default {| input.path := path |} (input.devices_ this !! counter))
                ∧ ∀ id, id ≠ counter →
                        input.devices_ this' !! id = input.devices_ this !! id).
Proof.
  cbv zeta. rewrite create_device_eq. cbv zeta.
  destruct (raises w _) as [x|].
  - split; [done|]. split; [done|]. split; [by intros ? [= ->] | discriminate].
  - split; [done|]. split; [done|]. split; [discriminate|]. intros _.
    eexists. split; [reflexivity|]. cbn. split; [done|]. split.
    + rewrite map_insert_lookup. by destruct (decide (counter = counter)).
    + intros id Hid. rewrite map_insert_lookup. by destruct (decide (id = counter)).
Qed.

Lemma create_device_consumes_id_and_registers_witness :
  ∃ this',
    outcome_of (input.create_device (sample.host [] []) (input.MkManager 0 ∅) 4294967295)
    = Ret ({| input.path := "/run/user/1000/anbox/input-devices/event4294967295" |}, this')
    ∧ state_of (input.create_device (sample.host [] []) (input.MkManager 0 ∅) 4294967295) = 0
    ∧ input.devices_ this' !! 4294967295
      = Some {| input.path := "/run/user/1000/anbox/input-devices/event4294967295" |}.
Proof.
  destruct (create_device_consumes_id_and_registers (sample.host [] [])
              (input.MkManager 0 ∅) 4294967295)
    as (Hstate & _ & _ & Hret).
  destruct (Hret eq_refl) as (this' & Ho & _ & Hid & _).
  exists this'. split; [exact Ho|]. split; [exact Hstate | exact Hid].
Defined.

(** X16.  Over a sequence of [create_device] calls that returns, a
    registry never loses or replaces an entry and the managers keep their
    runtimes.  When moreover the calls are at most 2^32, all on managers of
    the pool, and no registry holds one of the ids to come, every device
    returned is registered, under its id, in the manager it was created
    on. *)
Theorem registries_hold_created_devices
    (w : World) (pool : list input.Manager) (calls : list nat) (counter : Z)
    (tr : list Event) (s : Z) (devices : list input.Device) (pool' : list input.Manager) :
  input.create_devices w pool calls counter = (tr, s, Ret (devices, pool')) →
  length pool' = length pool
  ∧ (∀ i this id d, pool !! i = Some this → input.devices_ this !! id = Some d →
       ∃ this', pool' !! i = Some this' ∧ input.devices_ this' !! id = Some d
                ∧ input.runtime_ this' = input.runtime_ this)
  ∧ (0 ≤ counter < 2 ^ 32 →
     Z.of_nat (length calls) ≤ 2 ^ 32 →
     Forall (fun i => (i < length pool)%nat) calls →
     (∀ i this id, pool !! i = Some this →
                   id ∈ input.ids_from counter (length calls) →
                   input.devices_ this !! id = None) →
     ∀ k i, calls !! k = Some i →
       let id := (counter + Z.of_nat k) mod 2 ^ 32 in
       ∃ this',
         devices !! k = Some {| input.path := input.build_device_path w id |}
         ∧ pool' !! i = Some this'
         ∧ input.devices_ this' !! id = Some {| input.path := input.build_device_path w id |}).
Proof.
  intros Hrun. destruct (create_devices_keeps w _ _ _ _ _ _ _ Hrun) as [Hlen Hkeep].
  split; [exact Hlen|]. split; [exact Hkeep|].
  intros Hc Hn Hvalid Hfresh k i Hk. cbv zeta.
  exact (create_devices_holds w _ _ _ _ _ _ _ Hrun Hc Hn Hvalid Hfresh k i Hk).
Qed.

Lemma registries_hold_created_devices_witness :
  ∃ devices pool' this',
    outcome_of (input.create_devices (sample.host [] [])
                  [input.MkManager 0 ∅; input.MkManager 0 ∅]
                  [0%nat; 1%nat; 0%nat] 4294967295)
    = Ret (devices, pool')
    ∧ pool' !! 0%nat = Some this'
    ∧ input.devices_ this' !! 1
      = Some {| input.path := "/run/user/1000/anbox/input-devices/event1" |}.
Proof.
  destruct (input.create_devices (sample.host [] [])
              [input.MkManager 0 ∅; input.MkManager 0 ∅]
              [0%nat; 1%nat; 0%nat] 4294967295)
    as [[tr s] [[devices pool']| |]] eqn:Hrun;
    [|vm_compute in Hrun; discriminate..].
  destruct (proj2 (proj2 (registries_hold_created_devices _ _ _ _ _ _ _ _ Hrun)))
    with (k := 2%nat) (i := 0%nat) as (this' & H1 & H2 & H3).
  - lia.
  - vm_compute. discriminate.
  - repeat constructor.
  - intros i this id Hi _. destruct i as [|[|i]]; try discriminate; by injection Hi as <-.
  - reflexivity.
  - exists devices, pool', this'. split; [reflexivity|]. split; [exact H2|]. exact H3.
Defined.

(** ** More of the session action *)

Section session_more_facts.
Import cli cmds.

Lemma calls_until_throw_ext (w w' : World) (cs : list Call) :
  (∀ c, raises w c = raises w' c) → calls_until_throw w cs = calls_until_throw w' cs.
Proof.
  intros H. induction cs as [|c cs IH]; [reflexivity|]. cbn. by rewrite H, IH.
Qed.

Lemma after_nvidia_check_frame (w : World) (st : Fields Members) :
  flags_ (after_nvidia_check w st) = flags_ st
  ∧ desktop_file_hint_ (members (after_nvidia_check w st)) = desktop_file_hint_ (members st).
Proof. unfold after_nvidia_check. by destruct (fs_exists w "/dev/nvidiactl"). Qed.

End session_more_facts.

(** X17.  The session action writes nothing to [ctxt.cout] and changes
    neither the flags nor [desktop_file_hint_].  It returns [EXIT_SUCCESS]
    exactly in the runs that reach [rt->stop()], which have started the
    runtime before, and [EXIT_FAILURE] exactly in the runs that log the
    missing kernel drivers; it returns no other value. *)
Theorem session_action_exit_codes_and_frame
    (w : World) (ctxt : cli.Context) (st : cli.Fields cmds.Members) :
  let r := cmds.session_action w ctxt st in
  cli.flags_ (state_of r) = cli.flags_ st
  ∧ cmds.desktop_file_hint_ (cli.members (state_of r))
    = cmds.desktop_file_hint_ (cli.members st)
  ∧ (∀ text, cout_write text ∉ trace_of r)
  ∧ (outcome_of r = Ret EXIT_SUCCESS ↔ rt_stop ∈ trace_of r)
  ∧ (outcome_of r = Ret EXIT_FAILURE ↔ cmds.missing_device_message ∈ trace_of r)
  ∧ (rt_stop ∈ trace_of r → called rt_start ∈ trace_of r)
  ∧ (∀ z, outcome_of r = Ret z → z = EXIT_SUCCESS ∨ z = EXIT_FAILURE).
Proof.
  pose (plain := fun e : Event =>
                   match e with
                   | cout_write _ | rt_stop | log_message Error _ => False
                   | _ => True
                   end).
  assert (Hplain : ∀ tr, Forall plain tr →
            (∀ text, cout_write text ∉ tr) ∧ (rt_stop ∉ tr)
            ∧ (cmds.missing_device_message ∉ tr)).
  { intros tr H. rewrite Forall_forall in H.
    split; [|split]; repeat intro; match goal with Hin : _ ∈ tr |- _ => exact (H _ Hin) end. }
  assert (Hchecks : Forall plain (cmds.checks_trace w)).
  { unfold cmds.checks_trace. destruct (fs_exists w "/dev/nvidiactl"); by repeat constructor. }
  assert (Hcalled : ∀ cs, Forall plain (map called cs)).
  { intros cs. apply Forall_forall. intros e (c & -> & _)%list_elem_of_fmap. exact I. }
  assert (Hshutdown : ∀ ev, Forall plain (cmds.shutdown_events ev)).
  { intros [signal|]; by repeat constructor. }
  (* a run that does not return *)
  assert (Hleaf : ∀ tr st' (o : Outcome Z),
            cli.flags_ st' = cli.flags_ st →
            cmds.desktop_file_hint_ (cli.members st') = cmds.desktop_file_hint_ (cli.members st) →
            Forall plain tr → (∀ z, o ≠ Ret z) →
            let r := (tr, st', o) in
            cli.flags_ (state_of r) = cli.flags_ st
            ∧ cmds.desktop_file_hint_ (cli.members (state_of r))
              = cmds.desktop_file_hint_ (cli.members st)
            ∧ (∀ text, cout_write text ∉ trace_of r)
            ∧ (outcome_of r = Ret EXIT_SUCCESS ↔ rt_stop ∈ trace_of r)
            ∧ (outcome_of r = Ret EXIT_FAILURE ↔ cmds.missing_device_message ∈ trace_of r)
            ∧ (rt_stop ∈ trace_of r → called rt_start ∈ trace_of r)
            ∧ (∀ z, outcome_of r = Ret z → z = EXIT_SUCCESS ∨ z = EXIT_FAILURE)).
  { intros tr st' o Hfl Hhint Htr Ho. cbv zeta. cbn [trace_of state_of outcome_of fst snd].
    destruct (Hplain tr Htr) as (Hc & Hs & Hm).
    split; [done|]. split; [done|]. split; [done|].
    split; [split; [by intros ?%Ho | done]|].
    split; [split; [by intros ?%Ho | done]|].
    split; [done|]. by intros z ?%Ho. }
  (* a run that reports the missing device *)
  assert (Hmissing : ∀ tr,
            Forall plain tr →
            let r := (tr ++ [cmds.missing_device_message], st, Ret EXIT_FAILURE) in
            cli.flags_ (state_of r) = cli.flags_ st
            ∧ cmds.desktop_file_hint_ (cli.members (state_of r))
              = cmds.desktop_file_hint_ (cli.members st)
            ∧ (∀ text, cout_write text ∉ trace_of r)
            ∧ (outcome_of r = Ret EXIT_SUCCESS ↔ rt_stop ∈ trace_of r)
            ∧ (outcome_of r = Ret EXIT_FAILURE ↔ cmds.missing_device_message ∈ trace_of r)
            ∧ (rt_stop ∈ trace_of r → called rt_start ∈ trace_of r)
            ∧ (∀ z, outcome_of r = Ret z → z = EXIT_SUCCESS ∨ z = EXIT_FAILURE)).
  { intros tr Htr. cbv zeta. cbn [trace_of state_of outcome_of fst snd].
    destruct (Hplain tr Htr) as (Hc & Hs & Hm).
    assert (Hstop : rt_stop ∉ tr ++ [cmds.missing_device_message]).
    { intros [Hin | Hin%list_elem_of_singleton]%elem_of_app; [done | discriminate]. }
    split; [done|]. split; [done|].
    split. { intros text [Hin | Hin%list_elem_of_singleton]%elem_of_app;
               [by apply (Hc text) | discriminate]. }
    split; [split; [discriminate | done]|].
    split. { split; [|done]. intros _. apply elem_of_app. right. left. }
    split; [done|]. intros z [= <-]. by right. }
  intros r. subst r. rewrite session_action_eq.
  destruct (raises w (trap_signals_for_process _)) as [x|].
  { apply Hleaf; [done | done | by repeat constructor | discriminate]. }
  destruct (raises w signal_raised_connect) as [x|].
  { apply Hleaf; [done | done | by repeat constructor | discriminate]. }
  destruct (fs_exists w "/dev/binder"); [destruct (fs_exists w "/dev/ashmem")|].
  2: { apply (Hmissing [called (trap_signals_for_process [sig_term; sig_int]);
                        called signal_raised_connect;
                        fs_exists_query "/dev/binder"; fs_exists_query "/dev/ashmem"]).
       by repeat constructor. }
  2: { apply (Hmissing [called (trap_signals_for_process [sig_term; sig_int]);
                        called signal_raised_connect;
                        fs_exists_query "/dev/binder"]).
       by repeat constructor. }
  cbv zeta. destruct (after_nvidia_check_frame w st) as [Hfl Hhint].
  pose proof (calls_until_throw_inv w
                (cmds.startup_calls w
                   (cmds.gles_driver_ (cli.members (cmds.after_nvidia_check w st))))) as Hinv.
  destruct (cmds.calls_until_throw w _) as [tr [x|]].
  { destruct Hinv as (cs1 & c & cs2 & _ & -> & _ & _).
    apply Hleaf; [done | done | | discriminate].
    apply Forall_app. split; [done|]. apply Forall_app. split; [done | by repeat constructor]. }
  destruct Hinv as [-> _]. rewrite prepend_prepend, session_run_eq.
  destruct (raises w rt_start) as [x|].
  { apply Hleaf; [done | done | | discriminate].
    cbn [trace_of fst snd]. rewrite !Forall_app. repeat split; first [done | by repeat constructor]. }
  destruct (pending w) as [|ev rest].
  { apply Hleaf; [done | done | | discriminate].
    cbn [trace_of fst snd]. rewrite !Forall_app. repeat split; first [done | by repeat constructor]. }
  unfold prepend. cbn [trace_of state_of outcome_of fst snd].
  set (cs := cmds.startup_calls w _).
  assert (Hbefore : Forall plain
            ((cmds.checks_trace w ++ map called cs)
               ++ [called rt_start; start_container (cmds.session_configuration w); trap_run]
               ++ cmds.shutdown_events ev)).
  { rewrite !Forall_app. split; [done|]. split; [by repeat constructor | done]. }
  destruct (Hplain _ Hbefore) as (Hc & Hs & Hm).
  assert (Hstop : rt_stop ∈ (cmds.checks_trace w ++ map called cs)
                    ++ [called rt_start; start_container (cmds.session_configuration w); trap_run]
                    ++ cmds.shutdown_events ev ++ [rt_stop]).
  { rewrite !elem_of_app. right. right. right. left. }
  assert (Hstart : called rt_start ∈ (cmds.checks_trace w ++ map called cs)
                    ++ [called rt_start; start_container (cmds.session_configuration w); trap_run]
                    ++ cmds.shutdown_events ev ++ [rt_stop]).
  { rewrite !elem_of_app. right. left. left. }
  split; [done|]. split; [done|].
  split.
  { intros text Hin. apply (Hc text). revert Hin. rewrite !elem_of_app.
    intros [? | [? | [? | Hin%list_elem_of_singleton]]]; [tauto | tauto | tauto | discriminate]. }
  split; [done|].
  split.
  { split; [discriminate|]. intros Hin. exfalso. apply Hm. revert Hin. rewrite !elem_of_app.
    intros [? | [? | [? | Hin%list_elem_of_singleton]]]; [tauto | tauto | tauto | discriminate]. }
  split; [done|]. intros z [= <-]. by left.
Qed.

(** X18.  Of what arrives while the session waits in [trap->run()], only
    the first arrival matters: on two hosts that differ in nothing but the
    arrivals after the first, the session action does the same steps and
    ends the same way. *)
Theorem session_action_reads_first_arrival_only
    (w w' : World) (ctxt : cli.Context) (st : cli.Fields cmds.Members) :
  (∀ path, fs_exists w path = fs_exists w' path) →
  (∀ c, raises w c = raises w' c) →
  socket_dir w = socket_dir w' →
  input_device_dir w = input_device_dir w' →
  audio_socket_file w = audio_socket_file w' →
  head (pending w) = head (pending w') →
  cmds.session_action w ctxt st = cmds.session_action w' ctxt st.
Proof.
  intros Hfs Hraises Hsocket Hinput Haudio Hhead.
  assert (Hconf : cmds.session_configuration w = cmds.session_configuration w').
  { unfold cmds.session_configuration, cmds.session_bind_mounts.
    by rewrite Hsocket, Hinput, Haudio. }
  assert (Hcalls : ∀ d, cmds.startup_calls w d = cmds.startup_calls w' d).
  { intros d. unfold cmds.startup_calls. by rewrite Hconf, Hsocket, Hinput. }
  assert (Hafter : cmds.after_nvidia_check w st = cmds.after_nvidia_check w' st).
  { unfold cmds.after_nvidia_check. by rewrite Hfs. }
  assert (Hchecks : cmds.checks_trace w = cmds.checks_trace w').
  { unfold cmds.checks_trace. by rewrite Hfs. }
  rewrite !session_action_eq, <- !Hraises, <- !Hfs.
  destruct (raises w (trap_signals_for_process _)); [done|].
  destruct (raises w signal_raised_connect); [done|].
  destruct (fs_exists w "/dev/binder"); [|done].
  destruct (fs_exists w "/dev/ashmem"); [|done].
  cbv zeta. rewrite <- Hafter, <- Hchecks, <- Hcalls, <- Hconf.
  rewrite <- (calls_until_throw_ext w w' _ Hraises).
  destruct (cmds.calls_until_throw w _) as [tr [x|]]; [done|].
  rewrite !session_run_eq, <- Hraises.
  destruct (raises w rt_start); [done|].
  destruct (pending w) as [|ev rest], (pending w') as [|ev' rest']; try done.
  by injection Hhead as <-.
Qed.

Lemma session_action_reads_first_arrival_only_witness :
  cmds.session_action
    (sample.host ["/dev/binder"; "/dev/ashmem"] [ConnectionLost; SignalRaised sig_int])
    {| cli.args := [] |} sample.fields0
  = cmds.session_action (sample.host ["/dev/binder"; "/dev/ashmem"] [ConnectionLost])
      {| cli.args := [] |} sample.fields0.
Proof.
  exact (session_action_reads_first_arrival_only
           (sample.host ["/dev/binder"; "/dev/ashmem"] [ConnectionLost; SignalRaised sig_int])
           (sample.host ["/dev/binder"; "/dev/ashmem"] [ConnectionLost])
           {| cli.args := [] |} sample.fields0
           (fun _ => eq_refl) (fun _ => eq_refl) eq_refl eq_refl eq_refl eq_refl).
Defined.
